(** * Photini: the nearest-city resolver of the Facebook uploader

    A shallow embedding of [FacebookSession.get_cities] and of the helpers
    it calls ([get_places], [distance], [is_city], [get]) from
    [src/photini/facebook.py], with the properties of the place resolver
    proved about it.

    - Python floats are the kernel's binary64 floats, Python integers are
      the integers [Z].
    - The decoded JSON the HTTP layer hands back is a [value]; subscripting,
      [in], [==], truth testing, iteration and [.split()] are the Python
      operations on it, with the exception each raises on the wrong shape.
      [in] and the [==] of lists and dicts take the same object for equal,
      which matters for the decoder's one NaN.
    - [math.cos] and [math.sqrt] raise [ValueError] outside their domain;
      where [math.cos] returns, its value is the platform's, a parameter.
    - A character is a code point below 256.
    - [cities_cache] and the HTTP session are explicit state; the remote
      server is a transition function on an arbitrary [World].
    - The pagination loop of [get_places] is driven by fuel, one unit per
      page. *)

From Stdlib Require Import ZArith Lia List Bool String Ascii Floats.
From Stdlib Require Import Permutation Sorted.
Import ListNotations.

Set Warnings "-register-all".

Local Open Scope string_scope.
Local Open Scope list_scope.

(** ** Exceptions and outcomes *)

Inductive exn : Type :=
| KeyError (key : string)
| TypeError
| AttributeError
| IndexError
| ValueError
| OverflowError
| ZeroDivisionError
| RequestException (msg : string).

Inductive outcome (A : Type) : Type :=
| Ok (a : A)
| Raise (e : exn)
| OutOfFuel.

Arguments Ok {A} a.
Arguments Raise {A} e.
Arguments OutOfFuel {A}.

Definition bind {A B : Type} (m : outcome A) (f : A -> outcome B) : outcome B :=
  match m with
  | Ok a => f a
  | Raise e => Raise e
  | OutOfFuel => OutOfFuel
  end.

Notation "x <- m ;; k" := (bind m (fun x => k))
  (at level 61, m at next level, right associativity).


(** ** Strings

    [unicode.split()], [unicode.lower()], indexing and slicing. *)

(** Whitespace code points below 256: TAB..CR, FS..US, SPACE, NEL, NBSP. *)
Definition isspace (c : ascii) : bool :=
  let n := N_of_ascii c in
  (((9 <=? n) && (n <=? 13)) || ((28 <=? n) && (n <=? 32)) || (n =? 133) || (n =? 160))%N.

(** Upper-case code points below 256: A..Z and the Latin-1 capitals
    U+00C0..U+00DE without the multiplication sign U+00D7. *)
Definition lower_char (c : ascii) : ascii :=
  let n := N_of_ascii c in
  if (((65 <=? n) && (n <=? 90)) || ((192 <=? n) && (n <=? 222) && negb (n =? 215)))%N
  then ascii_of_N (n + 32)
  else c.

Fixpoint lower (s : string) : string :=
  match s with
  | EmptyString => EmptyString
  | String c s' => String (lower_char c) (lower s')
  end.

(** [s.split()]: the maximal runs of non-whitespace characters. [cur] is the
    run being read. *)
Fixpoint split_from (cur : string) (s : string) : list string :=
  match s with
  | EmptyString => match cur with EmptyString => [] | _ => [cur] end
  | String c s' =>
      if isspace c
      then match cur with
           | EmptyString => split_from EmptyString s'
           | _ => cur :: split_from EmptyString s'
           end
      else split_from (cur ++ String c EmptyString) s'
  end.

Definition split (s : string) : list string := split_from EmptyString s.

Definition len (s : string) : Z := Z.of_nat (String.length s).

(** [s[i]], negative indices counting from the end. *)
Definition str_index (s : string) (i : Z) : outcome string :=
  let n := len s in
  let j := if (i <? 0)%Z then (i + n)%Z else i in
  if ((j <? 0) || (n <=? j))%Z then Raise IndexError
  else Ok (substring (Z.to_nat j) 1 s).

Definition slice_bound (n i : Z) : Z :=
  let j := if (i <? 0)%Z then (i + n)%Z else i in
  Z.max 0 (Z.min n j).

(** [s[start:stop]]; [None] is an omitted bound. *)
Definition str_slice (s : string) (start stop : option Z) : string :=
  let n := len s in
  let lo := match start with Some i => slice_bound n i | None => 0%Z end in
  let hi := match stop with Some i => slice_bound n i | None => n end in
  substring (Z.to_nat lo) (Z.to_nat (hi - lo)) s.

(** [needle in hay] on strings. *)
Fixpoint is_substring (needle hay : string) : bool :=
  prefix needle hay ||
  match hay with
  | EmptyString => false
  | String _ hay' => is_substring needle hay'
  end.

(** ** Decoded JSON

    What [rsp.json()] gives: [None], a bool, an int, a float, a string, a
    list or a dict with string keys. *)

Inductive value : Type :=
| VNone
| VBool (b : bool)
| VInt (n : Z)
| VNum (x : float)
| VStr (s : string)
| VList (l : list value)
| VDict (d : list (string * value)).

(** A dict is its items in insertion order; [lookup] finds a key's item. *)
Fixpoint lookup {A : Type} (k : string) (d : list (string * A)) : option A :=
  match d with
  | [] => None
  | (k', v) :: d' => if String.eqb k k' then Some v else lookup k d'
  end.

Definition float_of_bool (b : bool) : float := if b then 1%float else 0%float.

(** An int as a float, as [float(n)] and the arithmetic of a float with an
    int have it: the nearest float, the even one of two that are as near,
    and an [OverflowError] for an int beyond the floats. *)
Definition float_of_int (n : Z) : outcome float :=
  match binary_normalize prec emax n 0 false with
  | S754_infinity _ => Raise OverflowError
  | x => Ok (SF2Prim x)
  end.

(** [n == x] for an int and a float: the two numbers are compared
    exactly, the int is not rounded to a float. *)
Definition int_eqb_float (n : Z) (x : float) : bool :=
  match Prim2SF x with
  | S754_zero _ => (n =? 0)%Z
  | S754_finite s m e =>
      let v := if s then Z.neg m else Z.pos m in
      if (0 <=? e)%Z then (n =? v * 2 ^ e)%Z else (n * 2 ^ (- e) =? v)%Z
  | _ => false
  end.

(** [x is y or x == y] for two floats of decoded bodies. The decoder has
    one NaN object, which it hands out for every [NaN] it reads, so two
    NaNs are the same object. *)
Definition float_same (x y : float) : bool :=
  (PrimFloat.is_nan x && PrimFloat.is_nan y) || PrimFloat.eqb x y.

(** [a is b or a == b]: the test [in] makes on the elements of a list, and
    the test [==] makes on the items of two lists or two dicts. Values of
    different types are unequal, except that a bool compares as the number
    0 or 1 and an int compares with a float by value; lists compare element
    by element; two dicts are equal when they have as many items and every
    item of the first has an equal item under the same key in the
    second. *)
Fixpoint value_same (a b : value) {struct a} : bool :=
  match a, b with
  | VNone, VNone => true
  | VBool x, VBool y => Bool.eqb x y
  | VBool x, VInt y => Z.eqb (Z.b2z x) y
  | VBool x, VNum y => PrimFloat.eqb (float_of_bool x) y
  | VInt x, VBool y => Z.eqb x (Z.b2z y)
  | VInt x, VInt y => Z.eqb x y
  | VInt x, VNum y => int_eqb_float x y
  | VNum x, VBool y => PrimFloat.eqb x (float_of_bool y)
  | VNum x, VInt y => int_eqb_float y x
  | VNum x, VNum y => float_same x y
  | VStr x, VStr y => String.eqb x y
  | VList x, VList y =>
      (fix list_same (x y : list value) {struct x} : bool :=
         match x, y with
         | [], [] => true
         | u :: x', v :: y' => value_same u v && list_same x' y'
         | _, _ => false
         end) x y
  | VDict x, VDict y =>
      Nat.eqb (List.length x) (List.length y) &&
      (fix items_same (x : list (string * value)) {struct x} : bool :=
         match x with
         | [] => true
         | (k, u) :: x' =>
             match lookup k y with
             | Some v => value_same u v
             | None => false
             end && items_same x'
         end) x
  | _, _ => false
  end.

(** [a == b]: as [value_same], except that a float NaN is not [==] to
    itself. *)
Definition value_eqb (a b : value) : bool :=
  match a, b with
  | VNum x, VNum y => PrimFloat.eqb x y
  | _, _ => value_same a b
  end.

(** [x in l] for a list [l]. *)
Definition in_list (x : value) (l : list value) : bool :=
  existsb (fun el => value_same x el) l.

(** [bool(v)], as tested by [while places:]. *)
Definition truthy (v : value) : bool :=
  match v with
  | VNone => false
  | VBool b => b
  | VInt n => negb (n =? 0)%Z
  | VNum x => negb (PrimFloat.eqb x 0%float)
  | VStr s => negb (String.eqb s EmptyString)
  | VList l => match l with [] => false | _ => true end
  | VDict d => match d with [] => false | _ => true end
  end.

(** [v[k]] for a string key [k]. *)
Definition getitem (v : value) (k : string) : outcome value :=
  match v with
  | VDict d =>
      match lookup k d with
      | Some x => Ok x
      | None => Raise (KeyError k)
      end
  | _ => Raise TypeError
  end.

(** [k in v] for a string [k]. *)
Definition contains (k : string) (v : value) : outcome bool :=
  match v with
  | VDict d => Ok (match lookup k d with Some _ => true | None => false end)
  | VList l => Ok (in_list (VStr k) l)
  | VStr s => Ok (is_substring k s)
  | _ => Raise TypeError
  end.

Fixpoint chars (s : string) : list value :=
  match s with
  | EmptyString => []
  | String c s' => VStr (String c EmptyString) :: chars s'
  end.

(** The items [for x in v] runs through: a list's elements, a dict's keys,
    a string's characters. *)
Definition iterate (v : value) : outcome (list value) :=
  match v with
  | VList l => Ok l
  | VDict d => Ok (map (fun kv => VStr (fst kv)) d)
  | VStr s => Ok (chars s)
  | _ => Raise TypeError
  end.

(** [v.split()]: only strings have the method. *)
Definition value_split (v : value) : outcome (list string) :=
  match v with
  | VStr s => Ok (split s)
  | _ => Raise AttributeError
  end.

(** [x in (s1, s2, ...)] for a tuple of string literals. *)
Definition in_tuple (x : value) (t : list string) : bool :=
  existsb (fun s => value_same x (VStr s)) t.

(** ** The word histogram

    [hist = defaultdict(int)]: the words counted so far with their counts, in
    the order the words were first counted. *)

Definition histogram : Type := list (string * Z).

(** [hist[k]]; a word not counted yet reads as 0. *)
Definition hist_get (hist : histogram) (k : string) : Z :=
  match lookup k hist with
  | Some n => n
  | None => 0%Z
  end.

(** [hist[k] += 1]. *)
Fixpoint hist_incr (k : string) (hist : histogram) : histogram :=
  match hist with
  | [] => [(k, 1%Z)]
  | (k', n) :: hist' =>
      if String.eqb k k' then (k', (n + 1)%Z) :: hist'
      else (k', n) :: hist_incr k hist'
  end.

(** [hist.keys()], in insertion order. *)
Definition hist_keys (hist : histogram) : list string := map fst hist.

(** The body of [for word in ...] (lines 192-197). *)
Definition count_word (word : string) (hist : histogram) : outcome histogram :=
  word <- (if negb (String.eqb word EmptyString)
           then c <- str_index word 0 ;;
                Ok (if in_tuple (VStr c) [","; "("]
                    then str_slice word (Some 1%Z) None
                    else word)
           else Ok word) ;;
  word <- (if negb (String.eqb word EmptyString)
           then c <- str_index word (-1) ;;
                Ok (if in_tuple (VStr c) [","; ")"]
                    then str_slice word None (Some (-1)%Z)
                    else word)
           else Ok word) ;;
  Ok (if (2 <? len word)%Z then hist_incr (lower word) hist else hist).

Fixpoint count_words (words : list string) (hist : histogram) : outcome histogram :=
  match words with
  | [] => Ok hist
  | word :: words' =>
      hist' <- count_word word hist ;;
      count_words words' hist'
  end.

(** [place['name'].split() + place['location']['city'].split()]. *)
Definition place_words (place : value) : outcome (list string) :=
  name <- getitem place "name" ;;
  ws1 <- value_split name ;;
  location <- getitem place "location" ;;
  city <- getitem location "city" ;;
  ws2 <- value_split city ;;
  Ok (ws1 ++ ws2).

(** ** [is_city] *)

Definition city_categories : list string :=
  ["City"; "Neighborhood"; "Country"; "State/province/region"].

Definition is_city (place : value) : outcome bool :=
  category <- getitem place "category" ;;
  if in_tuple category city_categories then
    location <- getitem place "location" ;;
    has_latitude <- contains "latitude" location ;;
    if has_latitude then
      location <- getitem place "location" ;;
      contains "longitude" location
    else Ok false
  else Ok false.

(** [if place not in result and self.is_city(place): result.append(place)]. *)
Definition add_city (place : value) (result : list value) : outcome (list value) :=
  if in_list place result then Ok result
  else
    city <- is_city place ;;
    Ok (if city then result ++ [place] else result).

(** The body of the first loop over places (lines 191-199). *)
Definition scan_place (place : value) (acc : histogram * list value)
  : outcome (histogram * list value) :=
  let (hist, result) := acc in
  words <- place_words place ;;
  hist' <- count_words words hist ;;
  result' <- add_city place result ;;
  Ok (hist', result').

(** [words.sort(key=lambda x: -hist[x])]: a stable sort, smallest key first. *)
Fixpoint insert_by (key : string -> Z) (x : string) (l : list string) : list string :=
  match l with
  | [] => [x]
  | y :: l' =>
      if (key x <=? key y)%Z then x :: y :: l'
      else y :: insert_by key x l'
  end.

Fixpoint sort_by (key : string -> Z) (l : list string) : list string :=
  match l with
  | [] => []
  | x :: l' => insert_by key x (sort_by key l')
  end.

Definition sorted_words (hist : histogram) : list string :=
  sort_by (fun x => (- hist_get hist x)%Z) (hist_keys hist).

(** ** Coordinates, the cache and [distance] *)

Record LatLong : Type := { lat : float; lon : float }.

(** The dict [{'latitude': ..., 'longitude': ...}] of a cache entry. *)
Record Location : Type := { latitude : float; longitude : float }.

(** An element of [cities_cache]. *)
Record CacheEntry : Type := { location : Location; cities_list : list value }.

(** The requests [get] is called with: the place search of [get_places] and
    the [paging.next] URL of a page. *)
Inductive request : Type :=
| Search (center : LatLong) (distance : Z) (q : string)
| Next (url : value).

(** One call of [get]: what was asked and what came back, an exception of
    the HTTP layer or the decoded body. *)
Record call : Type := { req : request; rsp : string + value }.

Section Resolver.

(** The remote server. *)
Variable World : Type.
Variable http_get : request -> World -> World * (string + value).

(** The cosine of the platform's C library, which [math.cos] returns for
    every argument that is not an infinity. *)
Variable cos : float -> float.

(** The session: the server's state and the calls made so far. *)
Record Session : Type := { world : World; calls : list call }.

(** The module-level [cities_cache] and the session of [self]. *)
Record State : Type := { cities_cache : list CacheEntry; session : Session }.

(** [math.radians(x)]: [x * (pi / 180)]. *)
Definition radians (x : float) : float :=
  (x * (0x1.921fb54442d18p+1 / 180))%float.

(** [math.cos(x)]: a [ValueError] at an infinity; a NaN gives a NaN. *)
Definition math_cos (x : float) : outcome float :=
  if PrimFloat.is_infinity x then Raise ValueError else Ok (cos x).

(** [math.sqrt(x)]: a [ValueError] below zero; a NaN gives a NaN. *)
Definition math_sqrt (x : float) : outcome float :=
  if (x <? 0)%float then Raise ValueError else Ok (PrimFloat.sqrt x).

Definition distance (a : LatLong) (b : Location) : outcome float :=
  let dx := ((lon a - longitude b) * 111320.0)%float in
  c <- math_cos (radians (lat a)) ;;
  let dy := ((lat a - latitude b) * 111320.0 * c)%float in
  math_sqrt ((dx * dx) + (dy * dy))%float.

(** [FacebookSession.get]: any failure of the request, of
    [raise_for_status] or of the decoding is an exception. *)
Definition get (r : request) (s : Session) : Session * outcome value :=
  let (w, response) := http_get r (world s) in
  ({| world := w; calls := calls s ++ [{| req := r; rsp := response |}] |},
   match response with
   | inl msg => Raise (RequestException msg)
   | inr body => Ok body
   end).

Section ForPlaces.

(** [for place in self.get_places(...): body]: the loop body transforms the
    loop's variables [acc] and may raise. *)
Variable Acc : Type.
Variable body : value -> Acc -> outcome Acc.

(** [for place in places['data']: yield place], resumed by the loop body. *)
Fixpoint for_each (items : list value) (acc : Acc) : outcome Acc :=
  match items with
  | [] => Ok acc
  | place :: items' =>
      acc' <- body place acc ;;
      for_each items' acc'
  end.

(** What follows the items of a page: [None] is the generator's [return],
    [Some url] the next request. *)
Definition next_page (places : value) : outcome (option value) :=
  has_paging <- contains "paging" places ;;
  if negb has_paging then Ok None
  else
    paging <- getitem places "paging" ;;
    has_next <- contains "next" paging ;;
    if negb has_next then Ok None
    else
      paging <- getitem places "paging" ;;
      url <- getitem paging "next" ;;
      Ok (Some url).

(** [while places: ...], one unit of fuel per page. *)
Fixpoint pages (fuel : nat) (places : value) (acc : Acc) (s : Session)
  : Session * outcome Acc :=
  match fuel with
  | O => (s, OutOfFuel)
  | S fuel' =>
      if truthy places then
        match (data <- getitem places "data" ;;
               items <- iterate data ;;
               acc' <- for_each items acc ;;
               url <- next_page places ;;
               Ok (acc', url)) with
        | Ok (acc', Some url) =>
            match get (Next url) s with
            | (s', Ok places') => pages fuel' places' acc' s'
            | (s', Raise e) => (s', Raise e)
            | (s', OutOfFuel) => (s', OutOfFuel)
            end
        | Ok (acc', None) => (s, Ok acc')
        | Raise e => (s, Raise e)
        | OutOfFuel => (s, OutOfFuel)
        end
      else (s, Ok acc)
  end.

Definition get_places (fuel : nat) (latlong : LatLong) (distance : Z) (query : string)
    (acc : Acc) (s : Session) : Session * outcome Acc :=
  match get (Search latlong distance query) s with
  | (s', Ok places) => pages fuel places acc s'
  | (s', Raise e) => (s', Raise e)
  | (s', OutOfFuel) => (s', OutOfFuel)
  end.

End ForPlaces.

(** The cache look-up (lines 176-180): the loop body, the loop and the
    loop from the initial pair. *)
Definition nearer (latlong : LatLong) (nearest : value * float) (cache : CacheEntry)
  : outcome (value * float) :=
  dist <- distance latlong (location cache) ;;
  Ok (if (dist <? snd nearest)%float then (VList (cities_list cache), dist) else nearest).

Fixpoint scan_cache (latlong : LatLong) (cache : list CacheEntry) (nearest : value * float)
  : outcome (value * float) :=
  match cache with
  | [] => Ok nearest
  | entry :: cache' =>
      nearest' <- nearer latlong nearest entry ;;
      scan_cache latlong cache' nearest'
  end.

Definition find_nearest (latlong : LatLong) (cache : list CacheEntry)
  : outcome (value * float) :=
  scan_cache latlong cache (VNone, 1.0e12%float).

(** The second loop (lines 206-211). *)
Fixpoint search_words (fuel : nat) (latlong : LatLong) (hist : histogram)
    (threshold : Z) (words : list string) (result : list value) (s : Session)
  : Session * outcome (list value) :=
  match words with
  | [] => (s, Ok result)
  | word :: words' =>
      if (hist_get hist word <=? threshold)%Z then (s, Ok result)
      else
        match get_places (list value) add_city fuel latlong 10000 word result s with
        | (s', Ok result') =>
            search_words fuel latlong hist threshold words' result' s'
        | (s', Raise e) => (s', Raise e)
        | (s', OutOfFuel) => (s', OutOfFuel)
        end
  end.

(** Lines 200-211: from the histogram of the first search to the final
    result. *)
Definition seed (hist : histogram) : histogram :=
  match hist with
  | [] => [("city", 1%Z)]
  | _ => hist
  end.

Definition secondary_searches (fuel : nat) (latlong : LatLong) (hist : histogram)
    (result : list value) (s : Session) : Session * outcome (list value) :=
  let hist := seed hist in
  let words := sorted_words hist in
  match nth_error words (Nat.div (List.length words) 2) with
  | None => (s, Raise IndexError)
  | Some middle =>
      let threshold := hist_get hist middle in
      search_words fuel latlong hist threshold (firstn 5 words) result s
  end.

(** Lines 188-199: the free-text search around the coordinate. *)
Definition first_search (fuel : nat) (latlong : LatLong) (result : list value)
    (s : Session) : Session * outcome (histogram * list value) :=
  get_places (histogram * list value) scan_place fuel latlong 1000 "" ([], result) s.

(** [result = list(nearest[0])] or [result = []] (lines 183-187). *)
Definition initial_result (nearest : value * float) : outcome (list value) :=
  if (snd nearest <? 1000)%float then iterate (fst nearest) else Ok [].

(** Lines 183-216, once the look-up has ended with [nearest] at 500 m or
    more. *)
Definition search_cities (fuel : nat) (latlong : LatLong) (nearest : value * float)
    (st : State) : State * outcome value :=
  let failed (s : Session) := {| cities_cache := cities_cache st; session := s |} in
  match initial_result nearest with
  | Ok result =>
      match first_search fuel latlong result (session st) with
      | (s1, Ok (hist, result1)) =>
          match secondary_searches fuel latlong hist result1 s1 with
          | (s2, Ok result2) =>
              ({| cities_cache :=
                    cities_cache st ++
                    [{| location := {| latitude := lat latlong;
                                       longitude := lon latlong |};
                        cities_list := result2 |}];
                  session := s2 |},
               Ok (VList result2))
          | (s2, Raise e) => (failed s2, Raise e)
          | (s2, OutOfFuel) => (failed s2, OutOfFuel)
          end
      | (s1, Raise e) => (failed s1, Raise e)
      | (s1, OutOfFuel) => (failed s1, OutOfFuel)
      end
  | Raise e => (st, Raise e)
  | OutOfFuel => (st, OutOfFuel)
  end.

Definition get_cities (fuel : nat) (latlong : LatLong) (st : State)
  : State * outcome value :=
  match find_nearest latlong (cities_cache st) with
  | Ok nearest =>
      if (snd nearest <? 500)%float then (st, Ok (fst nearest))
      else search_cities fuel latlong nearest st
  | Raise e => (st, Raise e)
  | OutOfFuel => (st, OutOfFuel)
  end.

End Resolver.

Arguments world {World} s.
Arguments calls {World} s.
Arguments cities_cache {World} s.
Arguments session {World} s.
Arguments get {World} http_get r s.
Arguments for_each {Acc} body items acc.
Arguments pages {World} http_get {Acc} body fuel places acc s.
Arguments get_places {World} http_get {Acc} body fuel latlong distance query acc s.
Arguments search_words {World} http_get fuel latlong hist threshold words result s.
Arguments secondary_searches {World} http_get fuel latlong hist result s.
Arguments first_search {World} http_get fuel latlong result s.
Arguments search_cities {World} http_get fuel latlong nearest st.
Arguments get_cities {World} http_get cos fuel latlong st.

(** ** Notions the properties are stated with *)

(** A call that came back with a decoded body. *)
Definition succeeded (c : call) : Prop := exists body, rsp c = inr body.

(** The calls [new] made by a computation that ended in [out]: either all
    of them succeeded, or all but the last did, the last one raised and
    [out] is that exception. *)
Definition orderly {A : Type} (new : list call) (out : outcome A) : Prop :=
  Forall succeeded new \/
  exists before r msg,
    new = before ++ [{| req := r; rsp := inl msg |}] /\
    Forall succeeded before /\
    out = Raise (RequestException msg).

Definition is_search (r : request) : bool :=
  match r with
  | Search _ _ _ => true
  | Next _ => false
  end.

(** The place searches among the calls [new], without the requests for
    further pages. *)
Definition searches (new : list call) : list request :=
  filter is_search (map req new).

Fixpoint take_while {A : Type} (f : A -> bool) (l : list A) : list A :=
  match l with
  | [] => []
  | x :: l' => if f x then x :: take_while f l' else []
  end.

(** No place of [l] is equal to a place before it: it is not [==] to it,
    and [in] does not find it there (it is not the same object either). *)
Definition distinct_places (l : list value) : Prop :=
  forall i j a b,
    (i < j)%nat -> nth_error l i = Some a -> nth_error l j = Some b ->
    value_same b a = false /\ value_eqb b a = false.

(** The identifier of a place, where it has one. *)
Definition place_id (place : value) : option value :=
  match place with
  | VDict d => lookup "id" d
  | _ => None
  end.

(** No two places of [l] have the same identifier. *)
Definition distinct_ids (l : list value) : Prop :=
  forall i j a b,
    (i < j)%nat -> nth_error l i = Some a -> nth_error l j = Some b ->
    place_id a <> place_id b.

(** A place record: an object whose location, when it has one, is an
    object too. *)
Definition place_record (place : value) : Prop :=
  exists fields,
    place = VDict fields /\
    forall loc, lookup "location" fields = Some loc -> exists d, loc = VDict d.

(** The tokenization as the specification words it: strip one leading
    [(] or [,], then one trailing [)] or [,]; drop what is left when it has
    at most 2 characters; lower-case it. *)
Definition strip_leading (w : string) : string :=
  match w with
  | String c rest => if (Ascii.eqb c "," || Ascii.eqb c "(")%bool then rest else w
  | EmptyString => w
  end.

Fixpoint strip_trailing (w : string) : string :=
  match w with
  | EmptyString => EmptyString
  | String c EmptyString =>
      if (Ascii.eqb c "," || Ascii.eqb c ")")%bool then EmptyString else w
  | String c rest => String c (strip_trailing rest)
  end.

Definition token (w : string) : option string :=
  let t := strip_trailing (strip_leading w) in
  if (String.length t <=? 2)%nat then None else Some (lower t).

(** The tokens that are counted, in order. *)
Definition counted (ws : list string) : list string :=
  flat_map (fun w => match token w with Some t => [t] | None => [] end) ws.

Section Notions.

Variable World : Type.
Variable http_get : request -> World -> World * (string + value).
Variable cos : float -> float.

(** [x] is farther from [latlong] than [d] when [strictly], and at least
    as far when not. *)
Definition beyond (latlong : LatLong) (strictly : bool) (d : float) (x : CacheEntry)
  : Prop :=
  exists dx,
    distance cos latlong (location x) = Ok dx /\
    (if strictly then dx <=? d else dx <? d)%float = false.

(** [e] is the nearest entry of the cache to [latlong]: every entry has a
    distance, no entry is nearer, and every entry before [e] is farther (of
    several entries at the same distance the first is the nearest). *)
Definition first_nearest (latlong : LatLong) (cache : list CacheEntry) (e : CacheEntry)
  : Prop :=
  exists pre post d,
    cache = pre ++ e :: post /\
    distance cos latlong (location e) = Ok d /\
    (forall x, In x pre -> beyond latlong true d x) /\
    (forall x, In x post -> beyond latlong false d x).

(** Every list kept in the cache is free of repeated places. *)
Definition cache_distinct (cache : list CacheEntry) : Prop :=
  Forall (fun e => distinct_places (cities_list e)) cache.

(** The states the program can be in: [cities_cache] is empty when the
    module is loaded and only [get_cities] touches it (its caller reads the
    list it is given and does not change it). *)
Inductive reachable : State World -> Prop :=
| reachable_start (s : Session World) :
    reachable {| cities_cache := []; session := s |}
| reachable_call fuel latlong st st' out :
    reachable st ->
    get_cities http_get cos fuel latlong st = (st', out) ->
    reachable st'.

(** How a call whose look-up ended with [nearest] at 500 m or more can
    go: no initial result, a failed first search, a failed later search, or
    a returned list. *)
Inductive miss_run (fuel : nat) (latlong : LatLong) (nearest : value * float)
    (st : State World)
  : State World -> outcome value -> list call -> Prop :=
| run_no_result e :
    initial_result nearest = Raise e ->
    miss_run fuel latlong nearest st st (Raise e) []
| run_first_failed result0 s1 o1 out new1 :
    initial_result nearest = Ok result0 ->
    first_search http_get fuel latlong result0 (session st) = (s1, o1) ->
    (forall acc, o1 <> Ok acc) ->
    (forall acc, out <> Ok acc) ->
    (forall e, o1 = Raise e <-> out = Raise e) ->
    calls s1 = calls (session st) ++ new1 ->
    orderly new1 o1 ->
    miss_run fuel latlong nearest st
      {| cities_cache := cities_cache st; session := s1 |} out new1
| run_second_failed result0 s1 hist result1 s2 o2 out new1 new2 :
    initial_result nearest = Ok result0 ->
    first_search http_get fuel latlong result0 (session st) = (s1, Ok (hist, result1)) ->
    secondary_searches http_get fuel latlong hist result1 s1 = (s2, o2) ->
    (forall r, o2 <> Ok r) ->
    (forall acc, out <> Ok acc) ->
    (forall e, o2 = Raise e <-> out = Raise e) ->
    calls s1 = calls (session st) ++ new1 ->
    Forall succeeded new1 ->
    calls s2 = calls s1 ++ new2 ->
    orderly new2 o2 ->
    miss_run fuel latlong nearest st
      {| cities_cache := cities_cache st; session := s2 |} out (new1 ++ new2)
| run_completed result0 s1 hist result1 s2 result2 new1 new2 :
    initial_result nearest = Ok result0 ->
    first_search http_get fuel latlong result0 (session st) = (s1, Ok (hist, result1)) ->
    secondary_searches http_get fuel latlong hist result1 s1 = (s2, Ok result2) ->
    calls s1 = calls (session st) ++ new1 ->
    calls s2 = calls s1 ++ new2 ->
    Forall succeeded (new1 ++ new2) ->
    miss_run fuel latlong nearest st
      {| cities_cache :=
           cities_cache st ++
           [{| location := {| latitude := lat latlong; longitude := lon latlong |};
               cities_list := result2 |}];
         session := s2 |}
      (Ok (VList result2)) (new1 ++ new2).

End Notions.

(** ** Sample servers and places *)

Module Sample.

(** The sample coordinates lie on the equator, where the cosine is 1. *)
Definition cos_flat (x : float) : float := 1%float.

Definition origin : LatLong := {| lat := 0; lon := 0 |}.

(** About 435 m east of [origin]. *)
Definition near : LatLong := {| lat := 0; lon := 0.00390625 |}.

(** About 870 m east of [origin]. *)
Definition farther : LatLong := {| lat := 0; lon := 0.0078125 |}.

Definition place (id name category : string) : value :=
  VDict [("category", VStr category);
         ("id", VStr id);
         ("location", VDict [("city", VStr "Springfield");
                             ("latitude", VNum 0);
                             ("longitude", VNum 0)]);
         ("name", VStr name)].

(** A place record without a location. *)
Definition bare : value :=
  VDict [("category", VStr "City"); ("id", VStr "1"); ("name", VStr "Springfield")].

Definition page (places : list value) : value := VDict [("data", VList places)].

Definition heights : value := place "1" "Springfield Heights" "City".
Definition park : value := place "1" "Springfield Park" "City".
Definition old_town : value := place "7" "Old Town" "Neighborhood".

(** A place with the given identifier and latitude. *)
Definition place_at (id latitude : value) : value :=
  VDict [("category", VStr "City");
         ("id", id);
         ("location", VDict [("city", VStr "Springfield");
                             ("latitude", latitude);
                             ("longitude", VNum 0)]);
         ("name", VStr "Springfield")].

(** A server whose nearby search lists the places [listed]. *)
Definition listing_server (listed : list value) (r : request) (w : nat)
  : nat * (string + value) :=
  (S w,
   inr match r with
       | Search _ 1000 _ => page listed
       | _ => page []
       end).

(** A server that finds nothing. *)
Definition empty_server (r : request) (w : unit) : unit * (string + value) :=
  (w, inr (page [])).

(** A server whose nearby search lists one identifier under two names. *)
Definition twin_server (r : request) (w : nat) : nat * (string + value) :=
  (S w,
   inr match r with
       | Search _ 1000 _ => page [heights; park]
       | _ => page []
       end).

(** A page that announces a further page. *)
Definition page_one : value :=
  VDict [("data", VList [heights]);
         ("paging", VDict [("next", VStr "https://graph.facebook.com/next")])].

(** A server that announces a second page and fails to deliver it. *)
Definition flaky_server (r : request) (w : nat) : nat * (string + value) :=
  (S w,
   match r with
   | Search _ _ _ => inr page_one
   | Next _ => inl "503 Server Error"
   end).

(** A server whose nearby search lists a place without a location. *)
Definition bare_server (r : request) (w : nat) : nat * (string + value) :=
  (S w, inr (page [bare])).

Definition start {World : Type} (w : World) : State World :=
  {| cities_cache := []; session := {| world := w; calls := [] |} |}.

Definition entry : CacheEntry :=
  {| location := {| latitude := 0; longitude := 0 |}; cities_list := [old_town] |}.

(** The state after a call at [origin] that found [old_town]. *)
Definition cached : State nat :=
  {| cities_cache := [entry]; session := {| world := 0; calls := [] |} |}.

Definition twins : list value := [heights; park].

Definition twin_hist : histogram :=
  [("springfield", 4%Z); ("heights", 1%Z); ("park", 1%Z)].

Definition first_call : call :=
  {| req := Search origin 1000 ""; rsp := inr (page [heights; park]) |}.

Definition flaky_first_call : call :=
  {| req := Search origin 1000 ""; rsp := inr page_one |}.

Definition failed_call : call :=
  {| req := Next (VStr "https://graph.facebook.com/next");
     rsp := inl "503 Server Error" |}.

End Sample.
(** ** Floats: the order used by the cache look-up *)

Module FloatOrder.

Ltac cmp_cases :=
  repeat match goal with
  | |- context [(?a ?= ?b)%Z] => destruct (Z.compare_spec a b)
  | H : context [(?a ?= ?b)%Z] |- _ => destruct (Z.compare_spec a b)
  | |- context [(?a ?= ?b)%positive] => destruct (Pos.compare_spec a b)
  | H : context [(?a ?= ?b)%positive] |- _ => destruct (Pos.compare_spec a b)
  end.

Ltac sf_cases a b c :=
  destruct a as [[]|[]| |[] ? ?], b as [[]|[]| |[] ? ?], c as [[]|[]| |[] ? ?];
  cbn; try discriminate; try reflexivity; intros;
  change (PosDef.Pos.compare_cont Eq) with Pos.compare in *;
  cmp_cases; subst; cbn in *; try discriminate; try reflexivity; try lia.

Lemma SFcompare_lt_trans a b c :
  SFcompare a b = Some Lt -> SFcompare b c = Some Lt -> SFcompare a c = Some Lt.
Proof. sf_cases a b c. Qed.

Lemma SFcompare_eq_lt_trans a b c :
  SFcompare a b = Some Eq -> SFcompare b c = Some Lt -> SFcompare a c = Some Lt.
Proof. sf_cases a b c. Qed.

Lemma SFcompare_total a b u v :
  SFcompare a u = Some Lt -> SFcompare b v = Some Lt ->
  SFcompare a b = Some Lt \/ SFcompare a b = Some Eq \/ SFcompare b a = Some Lt.
Proof.
  destruct a as [[]|[]| |[] ? ?], b as [[]|[]| |[] ? ?];
    destruct u as [[]|[]| |[] ? ?], v as [[]|[]| |[] ? ?];
    cbn; try discriminate; intros _ _; auto;
    change (PosDef.Pos.compare_cont Eq) with Pos.compare in *;
    match goal with
    | |- context [(?x ?= ?y)%Z] =>
        rewrite (Z.compare_antisym x y); destruct (x ?= y)%Z; cbn; auto
    end;
    match goal with
    | |- context [(?x ?= ?y)%positive] =>
        rewrite (Pos.compare_antisym x y); destruct (x ?= y)%positive; cbn; auto
    end.
Qed.

Local Open Scope float_scope.

Lemma ltb_lt (x y : float) : (x <? y) = true <-> SFcompare (Prim2SF x) (Prim2SF y) = Some Lt.
Proof.
  rewrite ltb_spec. unfold SFltb.
  destruct (SFcompare (Prim2SF x) (Prim2SF y)) as [[]|]; split; congruence.
Qed.

Lemma leb_le (x y : float) :
  (x <=? y) = true <->
  SFcompare (Prim2SF x) (Prim2SF y) = Some Lt \/ SFcompare (Prim2SF x) (Prim2SF y) = Some Eq.
Proof.
  rewrite leb_spec. unfold SFleb.
  destruct (SFcompare (Prim2SF x) (Prim2SF y)) as [[]|]; split;
    intros; try tauto; try congruence; destruct H; congruence.
Qed.

Lemma ltb_trans x y z : (x <? y) = true -> (y <? z) = true -> (x <? z) = true.
Proof. rewrite !ltb_lt. apply SFcompare_lt_trans. Qed.

Lemma leb_ltb_trans x y z : (x <=? y) = true -> (y <? z) = true -> (x <? z) = true.
Proof.
  rewrite leb_le, !ltb_lt. intros [H|H] H'.
  - eapply SFcompare_lt_trans; eauto.
  - eapply SFcompare_eq_lt_trans; eauto.
Qed.

Lemma ltb_leb x y : (x <? y) = true -> (x <=? y) = true.
Proof. rewrite leb_le, ltb_lt. auto. Qed.

Lemma ltb_irrefl x : (x <? x) = false.
Proof.
  destruct (x <? x) eqn:E; [|reflexivity].
  apply ltb_lt in E. exfalso.
  destruct (Prim2SF x) as [[]|[]| |[] ? ?]; cbn in E; try discriminate;
    change (PosDef.Pos.compare_cont Eq) with Pos.compare in *;
    rewrite Z.compare_refl, Pos.compare_refl in E; discriminate.
Qed.

(** Two floats that are each below something (so neither is a NaN) are
    comparable. *)
Lemma ltb_total x y u v :
  (x <? u) = true -> (y <? v) = true -> (x <=? y) = false -> (y <? x) = true.
Proof.
  rewrite !ltb_lt. intros Hx Hy Hle.
  destruct (SFcompare_total _ _ _ _ Hx Hy) as [H|[H|H]]; auto;
    exfalso; assert (E : (x <=? y) = true) by (apply leb_le; auto); congruence.
Qed.

(** A float that is a NaN or has no minus sign. *)
Definition unsigned (f : spec_float) : Prop :=
  match f with
  | S754_zero s | S754_infinity s | S754_finite s _ _ => s = false
  | S754_nan => True
  end.

Lemma binary_round_aux_unsigned m e l : unsigned (binary_round_aux prec emax false m e l).
Proof.
  unfold binary_round_aux.
  destruct (shr_fexp prec emax m e l) as [mrs' e'].
  destruct (shr_fexp prec emax _ e' loc_Exact) as [mrs'' e''].
  destruct (shr_m mrs''); [reflexivity| |exact I].
  destruct (e'' <=? emax - prec)%Z; reflexivity.
Qed.

Lemma SFmul_square_unsigned a : unsigned (SF64mul a a).
Proof.
  destruct a as [[]|[]| |[] m e]; cbn; auto; apply binary_round_aux_unsigned.
Qed.

Lemma SFadd_unsigned a b : unsigned a -> unsigned b -> unsigned (SF64add a b).
Proof.
  destruct a as [sa|sa| |sa ma ea], b as [sb|sb| |sb mb eb]; cbn;
    intros Ha Hb; subst; cbn; auto.
  unfold binary_round. destruct (shl_align _ _ _) as [mz ez].
  apply binary_round_aux_unsigned.
Qed.

(** A sum of two squares is not below zero. *)
Lemma sum_of_squares_not_negative x y : (x * x + y * y <? 0) = false.
Proof.
  rewrite ltb_spec, add_spec, !mul_spec.
  pose proof (SFadd_unsigned _ _ (SFmul_square_unsigned (Prim2SF x))
                (SFmul_square_unsigned (Prim2SF y))) as H.
  destruct (SF64add _ _) as [[]|[]| |[] m e]; cbn in H; try discriminate; reflexivity.
Qed.

End FloatOrder.

(** ** Floats: rounding

    A product that stays below [2 ^ 1023] is rounded to a finite float; so
    the angle [math.radians] gives is an infinity only for an infinity. *)

Module Rounding.

Local Open Scope Z_scope.

Lemma digits2_size p : digits2_pos p = Pos.size p.
Proof. induction p; cbn; congruence. Qed.

Lemma digits_gt p : Z.pos p < 2 ^ Z.pos (digits2_pos p).
Proof.
  rewrite digits2_size. pose proof (Pos.size_gt p) as H.
  apply Pos2Z.pos_lt_pos in H. rewrite Pos2Z.inj_pow in H. exact H.
Qed.

Lemma digits_le p : 2 ^ Z.pos (digits2_pos p) <= 2 * Z.pos p.
Proof.
  rewrite digits2_size. pose proof (Pos.size_le p) as H.
  apply Pos2Z.pos_le_pos in H. rewrite Pos2Z.inj_pow in H. exact H.
Qed.

(** A number below [2 ^ k] has at most [k] digits. *)
Lemma Zdigits2_le m k : 0 <= k -> 0 <= m < 2 ^ k -> Zdigits2 m <= k.
Proof.
  intros Hk [H0 Hm]. destruct m as [|p|p]; cbn; [exact Hk| |lia].
  pose proof (digits_le p) as H.
  destruct (Z_lt_le_dec k (Z.pos (digits2_pos p))) as [Hlt|Hle]; [|exact Hle].
  exfalso. assert (2 ^ (k + 1) <= 2 ^ Z.pos (digits2_pos p))
    by (apply Z.pow_le_mono_r; lia).
  rewrite Z.pow_add_r in H1 by lia. lia.
Qed.

Lemma digits_mul a b :
  Z.pos (digits2_pos (a * b)) <= Z.pos (digits2_pos a) + Z.pos (digits2_pos b).
Proof.
  apply (Zdigits2_le (Z.pos (a * b))); [lia|]. split; [lia|].
  rewrite Pos2Z.inj_mul, Z.pow_add_r by lia.
  pose proof (digits_gt a). pose proof (digits_gt b). nia.
Qed.

Lemma shr_1_m mrs : 0 <= shr_m mrs -> shr_m (shr_1 mrs) = shr_m mrs / 2.
Proof.
  destruct mrs as [m r s]. cbn [shr_m]. intros H.
  destruct m as [|[p|p|]|p]; cbn; try lia.
  - rewrite Pos2Z.inj_xI. apply Z.div_unique with 1; lia.
  - rewrite Pos2Z.inj_xO. apply Z.div_unique with 0; lia.
Qed.

Lemma shr_1_nonneg mrs : 0 <= shr_m mrs -> 0 <= shr_m (shr_1 mrs).
Proof. intros H. rewrite shr_1_m by exact H. apply Z.div_pos; lia. Qed.

Lemma pow2_xO p : 2 ^ Z.pos p~0 = 2 ^ Z.pos p * 2 ^ Z.pos p.
Proof.
  replace (Z.pos p~0) with (Z.pos p + Z.pos p) by lia.
  apply Z.pow_add_r; lia.
Qed.

Lemma pow2_xI p : 2 ^ Z.pos p~1 = 2 * (2 ^ Z.pos p * 2 ^ Z.pos p).
Proof.
  replace (Z.pos p~1) with (1 + (Z.pos p + Z.pos p)) by lia.
  rewrite Z.pow_add_r, Z.pow_add_r by lia. reflexivity.
Qed.

Lemma iter_shr_1_m p : forall mrs,
  0 <= shr_m mrs -> shr_m (iter_pos shr_1 p mrs) = shr_m mrs / 2 ^ Z.pos p.
Proof.
  assert (Hdiv : forall m k, 0 < k -> 0 <= m -> 0 <= m / k)
    by (intros; apply Z.div_pos; lia).
  induction p as [p IH|p IH|]; intros mrs H; cbn [iter_pos].
  - pose proof (shr_1_nonneg _ H) as H0.
    assert (H1 : 0 <= shr_m (iter_pos shr_1 p (shr_1 mrs)))
      by (rewrite IH by exact H0; apply Hdiv; lia).
    rewrite IH, IH, shr_1_m by assumption.
    rewrite !Z.div_div by lia. rewrite pow2_xI. reflexivity.
  - assert (H1 : 0 <= shr_m (iter_pos shr_1 p mrs))
      by (rewrite IH by exact H; apply Hdiv; lia).
    rewrite IH, IH by assumption.
    rewrite Z.div_div by lia. rewrite pow2_xO. reflexivity.
  - rewrite shr_1_m by exact H. reflexivity.
Qed.

Lemma shr_record_of_loc_m m l : shr_m (shr_record_of_loc m l) = m.
Proof. destruct l as [|[]]; reflexivity. Qed.

Lemma Zdigits2_gt m : 0 <= m -> m < 2 ^ Zdigits2 m.
Proof.
  destruct m as [|p|p]; cbn [Zdigits2]; [reflexivity| |lia].
  intros _. apply digits_gt.
Qed.

Lemma Zdigits2_nonneg m : 0 <= Zdigits2 m.
Proof. destruct m; cbn; lia. Qed.

(** The exponent and the mantissa after the shift to the format. *)
Lemma shr_fexp_spec m e l mrs e' :
  0 <= m ->
  shr_fexp prec emax m e l = (mrs, e') ->
  e' = Z.max e (fexp prec emax (Zdigits2 m + e)) /\ 0 <= shr_m mrs < 2 ^ 53.
Proof.
  intros Hm. unfold shr_fexp, shr.
  pose proof (Zdigits2_gt m Hm) as Hd. pose proof (Zdigits2_nonneg m) as Hd0.
  assert (Hf : Zdigits2 m + e - 53 <= fexp prec emax (Zdigits2 m + e))
    by (unfold fexp; change prec with 53; lia).
  destruct (fexp prec emax (Zdigits2 m + e) - e) as [|p|p] eqn:En;
    intros H; inversion H; subst mrs e'; clear H.
  - split; [lia|]. rewrite shr_record_of_loc_m. split; [exact Hm|].
    apply Z.lt_le_trans with (1 := Hd). apply Z.pow_le_mono_r; lia.
  - split; [lia|].
    rewrite iter_shr_1_m by (rewrite shr_record_of_loc_m; exact Hm).
    rewrite shr_record_of_loc_m. split; [apply Z.div_pos; lia|].
    apply Z.div_lt_upper_bound; [lia|].
    rewrite <- Z.pow_add_r by lia.
    apply Z.lt_le_trans with (1 := Hd). apply Z.pow_le_mono_r; lia.
  - split; [lia|]. rewrite shr_record_of_loc_m. split; [exact Hm|].
    apply Z.lt_le_trans with (1 := Hd). apply Z.pow_le_mono_r; lia.
Qed.

Lemma round_nearest_even_bound m l :
  0 <= m -> 0 <= round_nearest_even m l <= m + 1.
Proof.
  intros H. unfold round_nearest_even.
  destruct l as [|[]]; try lia. destruct (IntDef.Z.even m); lia.
Qed.

(** A number below [2 ^ 1023] is rounded to a finite float. *)
Lemma binary_round_aux_finite s q e l s' :
  Z.pos (digits2_pos q) + e <= 1023 ->
  e <= 970 ->
  binary_round_aux prec emax s (Z.pos q) e l <> S754_infinity s'.
Proof.
  intros Hd He. unfold binary_round_aux.
  destruct (shr_fexp prec emax (Z.pos q) e l) as [mrs1 e1] eqn:E1.
  apply shr_fexp_spec in E1; [|lia]. destruct E1 as [He1 Hm1].
  pose proof (round_nearest_even_bound (shr_m mrs1) (loc_of_shr_record mrs1)
                (proj1 Hm1)) as Hr.
  set (m1 := round_nearest_even (shr_m mrs1) (loc_of_shr_record mrs1)) in *.
  destruct (shr_fexp prec emax m1 e1 loc_Exact) as [mrs2 e2] eqn:E2.
  apply shr_fexp_spec in E2; [|lia]. destruct E2 as [He2 Hm2].
  assert (Hd1 : Zdigits2 m1 <= 54).
  { apply Zdigits2_le; [lia|]. change (2 ^ 54) with (2 * 2 ^ 53). lia. }
  assert (Hle : e2 <= 971).
  { cbn [Zdigits2] in He1. unfold fexp in He1, He2.
    change prec with 53 in *. change emax with 1024 in *.
    change (SpecFloat.emin 53 1024) with (-1074) in *. lia. }
  destruct (shr_m mrs2); try discriminate.
  replace (e2 <=? emax - prec) with true; [discriminate|].
  symmetry. apply Z.leb_le. exact Hle.
Qed.

Lemma is_infinity_spec x :
  PrimFloat.is_infinity x = match Prim2SF x with S754_infinity _ => true | _ => false end.
Proof.
  unfold PrimFloat.is_infinity. rewrite eqb_spec, abs_spec.
  destruct (Prim2SF x) as [[]|[]| |[] m e]; reflexivity.
Qed.

(** [x * (pi / 180)] is an infinity exactly when [x] is one. *)
Lemma scaled_down_infinity (x : float) :
  PrimFloat.is_infinity (x * (0x1.921fb54442d18p+1 / 180))%float
  = PrimFloat.is_infinity x.
Proof.
  rewrite !is_infinity_spec, mul_spec.
  assert (Hc : Prim2SF (0x1.921fb54442d18p+1 / 180)%float
               = S754_finite false 5030569068109113 (-58))
    by (vm_compute; reflexivity).
  rewrite Hc. pose proof (Prim2SF_valid x) as Hv.
  destruct (Prim2SF x) as [s|s| |s m e]; try reflexivity.
  cbn [SpecFloat.valid_binary] in Hv. unfold bounded, canonical_mantissa in Hv.
  apply andb_prop in Hv. destruct Hv as [Hcan Hexp].
  apply Z.eqb_eq in Hcan. apply Z.leb_le in Hexp.
  unfold fexp in Hcan. change prec with 53%Z in *. change emax with 1024%Z in *.
  cbn [SFmul].
  pose proof (binary_round_aux_finite (xorb s false) (m * 5030569068109113)
                (e + -58) loc_Exact) as Hfin.
  pose proof (digits_mul m 5030569068109113) as Hmul.
  change (Z.pos (digits2_pos 5030569068109113)) with 53%Z in Hmul.
  unfold SF64mul, SFmul.
  destruct (binary_round_aux prec emax (xorb s false) (Z.pos (m * 5030569068109113))
              (e + -58) loc_Exact) as [s0|s0| |s0 m0 e0]; try reflexivity.
  exfalso. apply (Hfin s0); [lia|lia|reflexivity].
Qed.

End Rounding.

(** ** The cache look-up *)

Section CacheFacts.

Variable World : Type.
Variable http_get : request -> World -> World * (string + value).
Variable cos : float -> float.

Local Open Scope float_scope.

(** The angle [math.radians] gives is an infinity exactly when what it is
    given is one. *)
Lemma radians_infinite x : PrimFloat.is_infinity (radians x) = PrimFloat.is_infinity x.
Proof. apply Rounding.scaled_down_infinity. Qed.

(** [distance] raises exactly when the latitude is an infinity, which
    [math.cos] is then given; [math.sqrt] is given a sum of squares and
    does not raise. *)
Lemma distance_cases a b :
  (PrimFloat.is_infinity (lat a) = true /\
   distance cos a b = Raise ValueError) \/
  (PrimFloat.is_infinity (lat a) = false /\
   exists d, distance cos a b = Ok d).
Proof.
  unfold distance, math_cos, math_sqrt. rewrite radians_infinite.
  destruct (PrimFloat.is_infinity (lat a)); cbn [bind]; [left; auto|].
  right. split; [reflexivity|].
  rewrite FloatOrder.sum_of_squares_not_negative. eauto.
Qed.

Lemma distance_infinite a b :
  PrimFloat.is_infinity (lat a) = true -> distance cos a b = Raise ValueError.
Proof.
  intros H. destruct (distance_cases a b) as [[_ E]|[E _]]; [exact E|congruence].
Qed.

Lemma distance_finite a b :
  PrimFloat.is_infinity (lat a) = false -> exists d, distance cos a b = Ok d.
Proof.
  intros H. destruct (distance_cases a b) as [[E _]|[_ E]]; [congruence|exact E].
Qed.

(** When the distance to one entry is defined, so is the distance to any
    other. *)
Lemma distance_defined a b d b' :
  distance cos a b = Ok d -> exists d', distance cos a b' = Ok d'.
Proof.
  intros H. apply distance_finite.
  destruct (distance_cases a b) as [[_ E]|[E _]]; [congruence|exact E].
Qed.

Lemma scan_cache_app latlong pre post acc :
  scan_cache cos latlong (pre ++ post) acc
  = (acc' <- scan_cache cos latlong pre acc ;; scan_cache cos latlong post acc').
Proof.
  revert acc. induction pre as [|x pre IH]; intros acc; cbn; [reflexivity|].
  destruct (nearer cos latlong acc x) as [acc1|e|]; cbn [bind]; auto.
Qed.

Lemma scan_cache_keeps latlong post acc :
  (forall x, In x post -> beyond cos latlong false (snd acc) x) ->
  scan_cache cos latlong post acc = Ok acc.
Proof.
  revert acc. induction post as [|x post IH]; intros acc H; cbn; [reflexivity|].
  destruct (H x (or_introl eq_refl)) as (dx & E & F).
  unfold nearer. rewrite E. cbn [bind]. rewrite F.
  apply IH. intros y Hy. apply H. right. exact Hy.
Qed.

Lemma scan_cache_above latlong d pre : forall acc bound,
  (d <? bound) = true ->
  (d <? snd acc) = true ->
  (forall x, In x pre -> beyond cos latlong true d x) ->
  exists acc', scan_cache cos latlong pre acc = Ok acc' /\ (d <? snd acc') = true.
Proof.
  induction pre as [|x pre IH]; intros acc bound Hb Hacc H; cbn; [eauto|].
  destruct (H x (or_introl eq_refl)) as (dx & E & F).
  unfold nearer. rewrite E. cbn [bind].
  apply (IH _ bound Hb).
  - destruct (dx <? snd acc) eqn:Ex; cbn; [|exact Hacc].
    exact (FloatOrder.ltb_total _ _ (snd acc) bound Ex Hb F).
  - intros y Hy. apply H. right. exact Hy.
Qed.

(** The loop of lines 177-180 finds the nearest entry when that entry is
    within the initial bound. *)
Lemma find_nearest_first latlong cache e d :
  first_nearest cos latlong cache e ->
  distance cos latlong (location e) = Ok d ->
  (d <? 1.0e12) = true ->
  find_nearest cos latlong cache = Ok (VList (cities_list e), d).
Proof.
  intros (pre & post & d' & -> & Hd' & Hpre & Hpost) Hd Hb.
  assert (d' = d) by congruence. subst d'.
  unfold find_nearest. rewrite scan_cache_app.
  destruct (scan_cache_above latlong d pre (VNone, 1.0e12) 1.0e12 Hb Hb Hpre)
    as (acc & -> & Hacc).
  cbn [bind scan_cache]. unfold nearer at 1. rewrite Hd. cbn [bind]. rewrite Hacc.
  apply scan_cache_keeps. exact Hpost.
Qed.

Lemma leb_refl_below d bound : (d <? bound) = true -> (d <=? d) = true.
Proof.
  intros Hb. destruct (d <=? d) eqn:E; [reflexivity|].
  pose proof (FloatOrder.ltb_total _ _ _ _ Hb Hb E) as H.
  rewrite FloatOrder.ltb_irrefl in H. discriminate.
Qed.

(** After the loop has seen [seen] without raising, [nearest] is either
    still the initial pair, and nothing seen was within the initial bound,
    or the list and distance of the nearest entry seen. *)
Lemma find_nearest_scan latlong seen :
  PrimFloat.is_infinity (lat latlong) = false ->
  (find_nearest cos latlong seen = Ok (VNone, 1.0e12) /\
   forall x, In x seen -> beyond cos latlong false 1.0e12 x) \/
  (exists e d,
     first_nearest cos latlong seen e /\
     distance cos latlong (location e) = Ok d /\
     find_nearest cos latlong seen = Ok (VList (cities_list e), d) /\
     (d <? 1.0e12) = true).
Proof.
  intros Hfin. unfold find_nearest.
  induction seen as [|c seen IH] using rev_ind; [left; split; [reflexivity|intros x []]|].
  rewrite scan_cache_app.
  destruct (distance_finite latlong (location c) Hfin) as [dc Ec].
  destruct IH as [[E Hfar]|(e & de & (pre & post & de' & -> & Ee' & Hpre & Hpost) & Ee & E & Hb)];
    rewrite E; cbn [bind scan_cache]; unfold nearer; rewrite Ec; cbn [bind snd].
  - destruct (dc <? 1.0e12) eqn:Hc.
    + right. exists c, dc. split; [|split; [exact Ec|split; [reflexivity|exact Hc]]].
      exists seen, [], dc. split; [reflexivity|]. split; [exact Ec|].
      split; [|intros x []].
      intros x Hx. destruct (Hfar x Hx) as (dx & Ex & F). exists dx. split; [exact Ex|].
      destruct (dx <=? dc) eqn:Hle; [|reflexivity].
      pose proof (FloatOrder.leb_ltb_trans _ _ _ Hle Hc) as Hlt. congruence.
    + left. split; [reflexivity|]. intros x Hx.
      apply in_app_or in Hx. destruct Hx as [Hx|[<-|[]]]; [exact (Hfar x Hx)|].
      exists dc. auto.
  - assert (de' = de) by congruence. subst de'.
    destruct (dc <? de) eqn:Hc.
    + right. exists c, dc.
      split; [|split; [exact Ec|split; [reflexivity|exact (FloatOrder.ltb_trans _ _ _ Hc Hb)]]].
      exists (pre ++ e :: post), [], dc. split; [reflexivity|]. split; [exact Ec|].
      split; [|intros x []].
      intros x Hx.
      assert (Hx' : exists dx, distance cos latlong (location x) = Ok dx /\
                               ((dx <=? de) = false \/ dx = de \/ (dx <? de) = false)).
      { apply in_app_or in Hx. destruct Hx as [Hx|[<-|Hx]].
        - destruct (Hpre x Hx) as (dx & Ex & F). eauto.
        - eauto.
        - destruct (Hpost x Hx) as (dx & Ex & F). eauto. }
      destruct Hx' as (dx & Ex & Hcmp). exists dx. split; [exact Ex|].
      destruct (dx <=? dc) eqn:Hle; [|reflexivity].
      pose proof (FloatOrder.leb_ltb_trans _ _ _ Hle Hc) as Hlt.
      destruct Hcmp as [F|[->|F]].
      * pose proof (FloatOrder.ltb_leb _ _ Hlt) as Hle'. congruence.
      * rewrite FloatOrder.ltb_irrefl in Hlt. discriminate.
      * congruence.
    + right. exists e, de. split; [|split; [exact Ee|split; [reflexivity|exact Hb]]].
      exists pre, (post ++ [c]), de. rewrite <- app_assoc. split; [reflexivity|].
      split; [exact Ee|]. split; [exact Hpre|]. intros x Hx.
      apply in_app_or in Hx. destruct Hx as [Hx|[<-|[]]]; [exact (Hpost x Hx)|].
      exists dc. auto.
Qed.

(** The look-up raises when there is an entry to measure and the latitude
    is an infinity. *)
Lemma find_nearest_raises latlong cache :
  cache <> [] ->
  PrimFloat.is_infinity (lat latlong) = true ->
  find_nearest cos latlong cache = Raise ValueError.
Proof.
  intros Hne Hinf. destruct cache as [|c cache]; [congruence|].
  unfold find_nearest. cbn [scan_cache]. unfold nearer.
  rewrite (distance_infinite _ _ Hinf). reflexivity.
Qed.

Lemma find_nearest_returns latlong cache :
  cache = [] \/ PrimFloat.is_infinity (lat latlong) = false ->
  exists nearest, find_nearest cos latlong cache = Ok nearest.
Proof.
  intros [->|Hfin]; [cbn; eauto|].
  destruct (find_nearest_scan latlong cache Hfin) as [[E _]|(e & d & _ & _ & E & _)];
    rewrite E; eauto.
Qed.

(** Whenever an entry is within the initial bound, the cache has a nearest
    entry, and it is at most as far. *)
Lemma nearest_entry_exists latlong cache e0 d0 :
  In e0 cache ->
  distance cos latlong (location e0) = Ok d0 ->
  (d0 <? 1.0e12) = true ->
  exists e d,
    first_nearest cos latlong cache e /\
    distance cos latlong (location e) = Ok d /\
    (d <=? d0) = true.
Proof.
  intros Hin E0 Hb0.
  assert (Hfin : PrimFloat.is_infinity (lat latlong) = false).
  { destruct (distance_cases latlong (location e0)) as [[_ E]|[E _]]; [congruence|exact E]. }
  destruct (find_nearest_scan latlong cache Hfin) as [[_ Hfar]|(e & d & Hnear & Ed & _ & Hb)].
  - destruct (Hfar e0 Hin) as (dx & Ex & F). congruence.
  - exists e, d. split; [exact Hnear|]. split; [exact Ed|].
    destruct Hnear as (pre & post & d' & -> & Ed' & Hpre & Hpost).
    assert (d' = d) by congruence. subst d'.
    apply in_app_or in Hin. destruct Hin as [Hin|[<-|Hin]].
    + destruct (Hpre e0 Hin) as (dx & Ex & F).
      assert (dx = d0) by congruence. subst dx.
      apply FloatOrder.ltb_leb.
      exact (FloatOrder.ltb_total _ _ _ _ Hb0 Hb F).
    + assert (d0 = d) by congruence. subst d0.
      exact (leb_refl_below _ _ Hb).
    + destruct (Hpost e0 Hin) as (dx & Ex & F).
      assert (dx = d0) by congruence. subst dx.
      destruct (d <=? d0) eqn:Hle; [reflexivity|].
      pose proof (FloatOrder.ltb_total _ _ _ _ Hb Hb0 Hle) as Hlt. congruence.
Qed.

Lemma below_500_in_bound d : (d <? 500) = true -> (d <? 1.0e12) = true.
Proof. intros H. apply (FloatOrder.ltb_trans _ 500); [exact H|reflexivity]. Qed.

Lemma below_1000_in_bound d : (d <? 1000) = true -> (d <? 1.0e12) = true.
Proof. intros H. apply (FloatOrder.ltb_trans _ 1000); [exact H|reflexivity]. Qed.

(** C1. When the nearest cache entry is less than 500 m (by [distance])
    from the coordinate, [get_cities] returns that entry's list itself,
    calls the server not at all and leaves the cache as it was: the state
    after the call is the state before it. *)
Theorem cache_hit_returns_cached_list fuel latlong (st : State World) e d :
  first_nearest cos latlong (cities_cache st) e ->
  distance cos latlong (location e) = Ok d ->
  (d <? 500) = true ->
  get_cities http_get cos fuel latlong st = (st, Ok (VList (cities_list e))).
Proof.
  intros Hnear He Hd. unfold get_cities.
  rewrite (find_nearest_first _ _ _ _ Hnear He (below_500_in_bound _ Hd)).
  cbn [fst snd]. rewrite Hd. reflexivity.
Qed.

End CacheFacts.

(** ** The calls a search makes *)

Section Traces.

Variable World : Type.
Variable http_get : request -> World -> World * (string + value).

Lemma orderly_nil {A : Type} (out : outcome A) : orderly [] out.
Proof. left. constructor. Qed.

Lemma orderly_app {A B : Type} new1 new2 (out1 : outcome A) (out2 : outcome B) :
  orderly new1 out1 -> (forall e, out1 <> Raise e) -> orderly new2 out2 ->
  orderly (new1 ++ new2) out2.
Proof.
  intros [H1|(b & r & m & _ & _ & E)] Hok H2; [|exfalso; exact (Hok _ E)].
  destruct H2 as [H2|(b & r & m & -> & Hb & E)].
  - left. apply Forall_app. split; assumption.
  - right. exists (new1 ++ b), r, m. rewrite app_assoc. repeat split; auto.
    apply Forall_app. split; assumption.
Qed.

Lemma orderly_retype {A B : Type} new (out : outcome A) (out' : outcome B) :
  orderly new out ->
  (forall msg, out = Raise (RequestException msg) -> out' = Raise (RequestException msg)) ->
  orderly new out'.
Proof.
  intros [H|(b & r & m & E & Hb & Eo)] Hr; [left; exact H|].
  right. exists b, r, m. repeat split; auto.
Qed.

Lemma searches_app new1 new2 : searches (new1 ++ new2) = searches new1 ++ searches new2.
Proof. unfold searches. rewrite map_app, filter_app. reflexivity. Qed.

(** One call of [get] is logged with its answer. *)
Lemma get_spec r (s s' : Session World) out :
  get http_get r s = (s', out) ->
  exists response,
    calls s' = calls s ++ [{| req := r; rsp := response |}] /\
    match response with
    | inl msg => out = Raise (RequestException msg)
    | inr body => out = Ok body
    end.
Proof.
  unfold get. destruct (http_get r (world s)) as [w response].
  intros E. inversion E; subst; clear E. exists response. cbn.
  split; [reflexivity|]. destruct response; reflexivity.
Qed.

Lemma get_orderly r (s s' : Session World) out :
  get http_get r s = (s', out) ->
  exists c, req c = r /\ calls s' = calls s ++ [c] /\ orderly [c] out /\
            (forall e, out = Raise e -> exists msg, e = RequestException msg) /\
            out <> OutOfFuel.
Proof.
  intros H. destruct (get_spec _ _ _ _ H) as (response & Hc & Ho).
  exists {| req := r; rsp := response |}. split; [reflexivity|]. split; [exact Hc|].
  destruct response as [msg|body]; subst out.
  - repeat split.
    + right. exists [], r, msg. repeat split. constructor.
    + intros e E. inversion E. eauto.
    + discriminate.
  - repeat split.
    + left. constructor; [|constructor]. exists body. reflexivity.
    + intros e E. discriminate.
    + discriminate.
Qed.

Section Loop.

Variable Acc : Type.
Variable body : value -> Acc -> outcome Acc.

(** The pages of a search are fetched one after the other until a request
    fails; none of the requests is a new search. *)
Lemma pages_calls fuel : forall places acc (s s' : Session World) out,
  pages http_get body fuel places acc s = (s', out) ->
  exists new, calls s' = calls s ++ new /\ searches new = [] /\ orderly new out.
Proof.
  induction fuel as [|fuel IH]; intros places acc s s' out H; cbn in H.
  - inversion H; subst. exists []. rewrite app_nil_r. auto using orderly_nil.
  - destruct (truthy places).
    2:{ inversion H; subst. exists []. rewrite app_nil_r. auto using orderly_nil. }
    destruct (data <- getitem places "data" ;; _) as [[acc' [url|]]|e|].
    2-4: inversion H; subst; exists []; rewrite app_nil_r; auto using orderly_nil.
    destruct (get http_get (Next url) s) as [s1 o1] eqn:G.
    destruct (get_orderly _ _ _ _ G) as (c & Hr & Hc & Ho & _ & Hf).
    destruct o1 as [places'|e|]; [|inversion H; subst|exfalso; apply Hf; reflexivity].
    + destruct (IH _ _ _ _ _ H) as (new & Hn & Hs & Hord).
      exists (c :: new). rewrite Hn, Hc, <- app_assoc. split; [reflexivity|].
      split.
      * unfold searches in *. cbn. rewrite Hr. cbn. exact Hs.
      * change (c :: new) with ([c] ++ new).
        eapply orderly_app; eauto. discriminate.
    + exists [c]. split; [exact Hc|]. split.
      * unfold searches. cbn. rewrite Hr. reflexivity.
      * eapply orderly_retype; [exact Ho|]. intros msg E. inversion E. reflexivity.
Qed.

(** A search is one search request followed by the requests for its
    further pages. *)
Lemma get_places_calls fuel latlong dist query acc (s s' : Session World) out :
  get_places http_get body fuel latlong dist query acc s = (s', out) ->
  exists new,
    calls s' = calls s ++ new /\
    searches new = [Search latlong dist query] /\
    orderly new out.
Proof.
  unfold get_places. intros H.
  destruct (get http_get (Search latlong dist query) s) as [s1 o1] eqn:G.
  destruct (get_orderly _ _ _ _ G) as (c & Hr & Hc & Ho & _ & Hf).
  destruct o1 as [places|e|]; [|inversion H; subst|exfalso; apply Hf; reflexivity].
  - destruct (pages_calls _ _ _ _ _ _ H) as (new & Hn & Hs & Hord).
    exists (c :: new). rewrite Hn, Hc, <- app_assoc. split; [reflexivity|].
    split.
    + unfold searches in *. cbn. rewrite Hr. cbn. rewrite Hs. reflexivity.
    + change (c :: new) with ([c] ++ new).
      eapply orderly_app; eauto. discriminate.
  - exists [c]. split; [exact Hc|]. split.
    + unfold searches. cbn. rewrite Hr. reflexivity.
    + eapply orderly_retype; [exact Ho|]. intros msg E. inversion E. reflexivity.
Qed.

(** What the loop body preserves, a completed search preserves. *)
Variable P : Acc -> Prop.
Hypothesis body_preserves :
  forall place acc acc', P acc -> body place acc = Ok acc' -> P acc'.

Lemma for_each_preserves items : forall acc acc',
  P acc -> for_each body items acc = Ok acc' -> P acc'.
Proof.
  induction items as [|place items IH]; intros acc acc' HP H; cbn in H.
  - inversion H; subst. exact HP.
  - destruct (body place acc) as [acc1|e|] eqn:B; cbn in H; try discriminate.
    apply (IH acc1); [exact (body_preserves _ _ _ HP B)|exact H].
Qed.

Lemma pages_preserves fuel : forall places acc (s s' : Session World) acc',
  P acc -> pages http_get body fuel places acc s = (s', Ok acc') -> P acc'.
Proof.
  induction fuel as [|fuel IH]; intros places acc s s' acc' HP H; cbn in H;
    [discriminate|].
  destruct (truthy places); [|inversion H; subst; exact HP].
  destruct (getitem places "data") as [data|e|]; cbn in H; try discriminate.
  destruct (iterate data) as [items|e|]; cbn in H; try discriminate.
  destruct (for_each body items acc) as [acc1|e|] eqn:F; cbn in H; try discriminate.
  pose proof (for_each_preserves _ _ _ HP F) as HP1.
  destruct (next_page places) as [[url|]|e|]; cbn in H; try discriminate.
  - destruct (get http_get (Next url) s) as [s1 [places'|e|]]; try discriminate.
    exact (IH _ _ _ _ _ HP1 H).
  - inversion H; subst. exact HP1.
Qed.

Lemma get_places_preserves fuel latlong dist query acc (s s' : Session World) acc' :
  P acc ->
  get_places http_get body fuel latlong dist query acc s = (s', Ok acc') ->
  P acc'.
Proof.
  unfold get_places. intros HP H.
  destruct (get http_get (Search latlong dist query) s) as [s1 [places|e|]];
    try discriminate.
  exact (pages_preserves _ _ _ _ _ _ HP H).
Qed.

End Loop.

End Traces.

(** ** Sorting the words *)

Section Sorting.

Variable key : string -> Z.

Lemma insert_by_perm x l : Permutation (insert_by key x l) (x :: l).
Proof.
  induction l as [|y l IH]; cbn; [reflexivity|].
  destruct (key x <=? key y)%Z; [reflexivity|].
  rewrite IH. apply perm_swap.
Qed.

Lemma sort_by_perm l : Permutation (sort_by key l) l.
Proof.
  induction l as [|x l IH]; cbn; [reflexivity|].
  rewrite insert_by_perm. constructor. exact IH.
Qed.

Lemma insert_by_sorted x l :
  StronglySorted (fun a b => (key a <= key b)%Z) l ->
  StronglySorted (fun a b => (key a <= key b)%Z) (insert_by key x l).
Proof.
  induction l as [|y l IH]; intros Hs; cbn.
  - constructor; constructor.
  - inversion Hs as [|? ? Hl Hy]; subst.
    destruct (key x <=? key y)%Z eqn:E.
    + apply Z.leb_le in E. constructor; [exact Hs|].
      constructor; [exact E|].
      eapply Forall_impl; [|exact Hy]. cbn. intros; lia.
    + apply Z.leb_gt in E. constructor; [apply IH; exact Hl|].
      eapply Permutation_Forall; [symmetry; apply insert_by_perm|].
      constructor; [lia|exact Hy].
Qed.

Lemma sort_by_sorted l : StronglySorted (fun a b => (key a <= key b)%Z) (sort_by key l).
Proof.
  induction l as [|x l IH]; cbn; [constructor|].
  apply insert_by_sorted. exact IH.
Qed.

End Sorting.

Lemma StronglySorted_impl {A : Type} (R R' : A -> A -> Prop) l :
  (forall a b, R a b -> R' a b) -> StronglySorted R l -> StronglySorted R' l.
Proof.
  intros HR. induction 1 as [|a l Hs IH Ha]; constructor; auto.
  eapply Forall_impl; [|exact Ha]. auto.
Qed.

Lemma sorted_words_perm hist : Permutation (sorted_words hist) (hist_keys hist).
Proof. apply sort_by_perm. Qed.

Lemma sorted_words_descending hist :
  StronglySorted (fun a b => (hist_get hist b <= hist_get hist a)%Z) (sorted_words hist).
Proof.
  eapply StronglySorted_impl; [|apply sort_by_sorted]. cbn. intros; lia.
Qed.

Lemma seed_nonempty hist : seed hist <> [].
Proof. destruct hist; discriminate. Qed.

(** [words[len(words) // 2]] exists: the histogram was seeded. *)
Lemma middle_word hist :
  exists middle,
    nth_error (sorted_words (seed hist))
              (Nat.div (List.length (sorted_words (seed hist))) 2) = Some middle.
Proof.
  set (words := sorted_words (seed hist)).
  assert (Hlen : List.length words <> 0%nat).
  { unfold words. rewrite (Permutation_length (sorted_words_perm _)).
    unfold hist_keys. rewrite length_map.
    pose proof (seed_nonempty hist). destruct (seed hist); [congruence|discriminate]. }
  destruct (nth_error words (Nat.div (List.length words) 2)) as [m|] eqn:E; [eauto|].
  apply nth_error_None in E. exfalso.
  pose proof (Nat.div_lt (List.length words) 2). lia.
Qed.

Lemma take_while_length {A : Type} (f : A -> bool) l :
  (List.length (take_while f l) <= List.length l)%nat.
Proof. induction l as [|x l IH]; cbn; [lia|]. destruct (f x); cbn; lia. Qed.

(** ** Collecting the cities *)

Lemma add_city_cases place result result' :
  add_city place result = Ok result' ->
  result' = result \/
  (result' = result ++ [place] /\
   in_list place result = false /\
   is_city place = Ok true).
Proof.
  unfold add_city. destruct (in_list place result) eqn:E.
  - intros H. inversion H. auto.
  - destruct (is_city place) as [[|]|e|]; cbn; intros H; inversion H; auto.
Qed.

Lemma add_city_grows result0 place result result' :
  (exists extra, result = result0 ++ extra) ->
  add_city place result = Ok result' ->
  exists extra, result' = result0 ++ extra.
Proof.
  intros [extra ->] H. destruct (add_city_cases _ _ _ H) as [->|[-> _]].
  - eauto.
  - exists (extra ++ [place]). rewrite app_assoc. reflexivity.
Qed.

(** What is [==] is equal for [in] as well. *)
Lemma value_eqb_same a b : value_eqb a b = true -> value_same a b = true.
Proof.
  destruct a, b; cbn; auto.
  unfold float_same. intros ->. apply orb_true_r.
Qed.

Lemma value_same_eqb a b : value_same a b = false -> value_eqb a b = false.
Proof.
  intros H. destruct (value_eqb a b) eqn:E; [|reflexivity].
  apply value_eqb_same in E. congruence.
Qed.

Lemma distinct_places_nil : distinct_places [].
Proof. intros i j a b _ H. destruct i; discriminate. Qed.

Lemma add_city_distinct place result result' :
  distinct_places result ->
  add_city place result = Ok result' ->
  distinct_places result'.
Proof.
  intros Hd H. destruct (add_city_cases _ _ _ H) as [->|(-> & Hnew & _)]; [exact Hd|].
  intros i j a b Hlt Hi Hj.
  assert (Hj' : (j < List.length (result ++ [place]))%nat)
    by (apply nth_error_Some; congruence).
  rewrite length_app in Hj'. cbn in Hj'.
  assert (Hia : nth_error result i = Some a).
  { rewrite nth_error_app1 in Hi by lia. exact Hi. }
  destruct (Nat.eq_dec j (List.length result)) as [->|Hne].
  - rewrite nth_error_app2, Nat.sub_diag in Hj by lia. cbn in Hj.
    inversion Hj; subst b.
    destruct (value_same place a) eqn:E; [|split; [reflexivity|]].
    + assert (X : in_list place result = true).
      { apply existsb_exists. exists a. split; [|exact E].
        eapply nth_error_In; eauto. }
      congruence.
    + apply value_same_eqb. exact E.
  - rewrite nth_error_app1 in Hj by lia. exact (Hd i j a b Hlt Hia Hj).
Qed.

Lemma scan_place_result place hist result hist' result' :
  scan_place place (hist, result) = Ok (hist', result') ->
  add_city place result = Ok result'.
Proof.
  unfold scan_place.
  destruct (place_words place) as [ws|e|]; cbn; try discriminate.
  destruct (count_words ws hist) as [h|e|]; cbn; try discriminate.
  destruct (add_city place result) as [r|e|]; cbn; try discriminate.
  intros H. inversion H. reflexivity.
Qed.

(** ** The resolver *)

Section ResolverFacts.

Variable World : Type.
Variable http_get : request -> World -> World * (string + value).
Variable cos : float -> float.

(** The second loop searches for the words above the threshold, in order,
    and stops at the first word that is not, or at the first failure. *)
Lemma search_words_calls fuel latlong hist threshold :
  forall words result (s s' : Session World) out,
  search_words http_get fuel latlong hist threshold words result s = (s', out) ->
  exists new queries rest,
    calls s' = calls s ++ new /\
    searches new = map (Search latlong 10000) queries /\
    orderly new out /\
    take_while (fun w => (threshold <? hist_get hist w)%Z) words = queries ++ rest /\
    (forall r, out = Ok r -> rest = []).
Proof.
  induction words as [|word words IH]; intros result s s' out H; cbn in H.
  - inversion H; subst. exists [], [], []. rewrite app_nil_r.
    repeat split; auto using orderly_nil.
  - cbn [take_while]. rewrite Z.ltb_antisym.
    destruct (hist_get hist word <=? threshold)%Z; cbn [negb].
    + inversion H; subst. exists [], [], []. rewrite app_nil_r.
      repeat split; auto using orderly_nil.
    + destruct (get_places http_get add_city fuel latlong 10000 word result s)
        as [s1 o1] eqn:G.
      pose proof G as G1. apply get_places_calls in G1.
      destruct G1 as (new1 & Hc1 & Hs1 & Ho1).
      destruct o1 as [result1|e|].
      * destruct (IH _ _ _ _ H) as (new2 & qs & rest & Hc2 & Hs2 & Ho2 & Ht & Hr).
        exists (new1 ++ new2), (word :: qs), rest.
        rewrite Hc2, Hc1, <- app_assoc, searches_app, Hs1, Hs2, Ht.
        repeat split; auto.
        eapply orderly_app; eauto. discriminate.
      * inversion H; subst.
        exists new1, [word], (take_while (fun w => (threshold <? hist_get hist w)%Z) words).
        repeat split; auto. discriminate.
      * inversion H; subst.
        exists new1, [word], (take_while (fun w => (threshold <? hist_get hist w)%Z) words).
        repeat split; auto. discriminate.
Qed.

Lemma search_words_preserves (P : list value -> Prop) fuel latlong hist threshold :
  (forall place result result', P result -> add_city place result = Ok result' -> P result') ->
  forall words result (s s' : Session World) result',
  P result ->
  search_words http_get fuel latlong hist threshold words result s = (s', Ok result') ->
  P result'.
Proof.
  intros HP. induction words as [|word words IH]; intros result s s' result' Hr H; cbn in H.
  - inversion H; subst. exact Hr.
  - destruct (hist_get hist word <=? threshold)%Z; [inversion H; subst; exact Hr|].
    destruct (get_places http_get add_city fuel latlong 10000 word result s)
      as [s1 [result1|e|]] eqn:G; try discriminate.
    apply (get_places_preserves _ _ _ _ P HP) in G; [|exact Hr].
    exact (IH _ _ _ _ G H).
Qed.

Lemma secondary_searches_unfold fuel latlong hist result (s : Session World) :
  exists middle,
    nth_error (sorted_words (seed hist))
              (Nat.div (List.length (sorted_words (seed hist))) 2) = Some middle /\
    secondary_searches http_get fuel latlong hist result s
    = search_words http_get fuel latlong (seed hist) (hist_get (seed hist) middle)
        (firstn 5 (sorted_words (seed hist))) result s.
Proof.
  destruct (middle_word hist) as [middle E]. exists middle. split; [exact E|].
  unfold secondary_searches. rewrite E. reflexivity.
Qed.

Lemma secondary_searches_preserves (P : list value -> Prop) fuel latlong hist :
  (forall place result result', P result -> add_city place result = Ok result' -> P result') ->
  forall result (s s' : Session World) result',
  P result ->
  secondary_searches http_get fuel latlong hist result s = (s', Ok result') ->
  P result'.
Proof.
  intros HP result s s' result' Hr H.
  destruct (secondary_searches_unfold fuel latlong hist result s) as (m & _ & E).
  rewrite E in H. eapply search_words_preserves; eauto.
Qed.

Lemma first_search_preserves (P : list value -> Prop) fuel latlong :
  (forall place result result', P result -> add_city place result = Ok result' -> P result') ->
  forall result (s s' : Session World) hist result',
  P result ->
  first_search http_get fuel latlong result s = (s', Ok (hist, result')) ->
  P result'.
Proof.
  intros HP result s s' hist result' Hr H. unfold first_search in H.
  apply (get_places_preserves _ _ _ _ (fun acc => P (snd acc))) in H; auto.
  intros place [h r] [h' r'] Ha Hb. cbn in *.
  eapply HP; eauto using scan_place_result.
Qed.

Lemma orderly_ok {A : Type} new (a : A) : orderly new (Ok a) -> Forall succeeded new.
Proof. intros [H|(b & r & m & _ & _ & E)]; [exact H|discriminate]. Qed.

Lemma secondary_searches_calls fuel latlong hist result (s s' : Session World) out :
  secondary_searches http_get fuel latlong hist result s = (s', out) ->
  exists new, calls s' = calls s ++ new /\ orderly new out.
Proof.
  destruct (secondary_searches_unfold fuel latlong hist result s) as (m & _ & ->).
  intros H. apply search_words_calls in H.
  destruct H as (new & _ & _ & Hc & _ & Ho & _). eauto.
Qed.

Lemma search_cities_run fuel latlong nearest (st st' : State World) out :
  search_cities http_get fuel latlong nearest st = (st', out) ->
  exists new, miss_run World http_get fuel latlong nearest st st' out new.
Proof.
  intros H. unfold search_cities in H.
  destruct (initial_result nearest) as [result0|e|] eqn:I.
  2:{ inversion H; subst. exists []. constructor. exact I. }
  2:{ exfalso. unfold initial_result in I.
      destruct (snd _ <? 1000)%float; [|discriminate].
      destruct (fst nearest); discriminate. }
  destruct (first_search http_get fuel latlong result0 (session st)) as [s1 o1] eqn:F.
  pose proof F as F'. unfold first_search in F'.
  apply get_places_calls in F'. destruct F' as (new1 & Hc1 & _ & Ho1).
  destruct o1 as [[hist result1]|e|].
  - destruct (secondary_searches http_get fuel latlong hist result1 s1) as [s2 o2] eqn:S2.
    pose proof S2 as S2'. apply secondary_searches_calls in S2'.
    destruct S2' as (new2 & Hc2 & Ho2).
    pose proof (orderly_ok _ _ Ho1) as Hs1.
    destruct o2 as [result2|e|]; inversion H; subst; exists (new1 ++ new2).
    + eapply run_completed; eauto.
      apply Forall_app. split; [exact Hs1|exact (orderly_ok _ _ Ho2)].
    + eapply run_second_failed; eauto; try discriminate.
      intros e'; split; intros E; inversion E; reflexivity.
    + eapply run_second_failed; eauto; try discriminate.
      intros e'; split; intros E; inversion E.
  - inversion H; subst. exists new1.
    eapply run_first_failed; eauto; try discriminate.
    intros e'; split; intros E; inversion E; reflexivity.
  - inversion H; subst. exists new1.
    eapply run_first_failed; eauto; try discriminate.
    intros e'; split; intros E; inversion E.
Qed.

(** How a call of [get_cities] can go: the look-up raises, or it ends
    with [nearest] and the call returns the cached list, below 500 m, or
    goes on to search. *)
Lemma get_cities_cases fuel latlong (st st' : State World) out :
  get_cities http_get cos fuel latlong st = (st', out) ->
  (exists e,
     find_nearest cos latlong (cities_cache st) = Raise e /\
     st' = st /\ out = Raise e) \/
  (exists nearest,
     find_nearest cos latlong (cities_cache st) = Ok nearest /\
     (snd nearest <? 500)%float = true /\
     st' = st /\ out = Ok (fst nearest)) \/
  (exists nearest new,
     find_nearest cos latlong (cities_cache st) = Ok nearest /\
     (snd nearest <? 500)%float = false /\
     miss_run World http_get fuel latlong nearest st st' out new).
Proof.
  unfold get_cities. intros H.
  destruct (find_nearest cos latlong (cities_cache st)) as [nearest|e|] eqn:E.
  - right. destruct (snd nearest <? 500)%float eqn:Hd.
    + left. inversion H; subst. eauto.
    + right. destruct (search_cities_run _ _ _ _ _ _ H) as [new R]. eauto.
  - left. inversion H; subst. eauto.
  - exfalso. clear H. unfold find_nearest in E.
    revert E. generalize (VNone, 1.0e12%float).
    induction (cities_cache st) as [|c cache IH]; intros acc; cbn; [discriminate|].
    unfold nearer, distance, math_cos, math_sqrt.
    destruct (PrimFloat.is_infinity _); cbn [bind]; [discriminate|].
    destruct (_ <? 0)%float; cbn [bind]; [discriminate|]. apply IH.
Qed.

End ResolverFacts.

(** ** Fuel

    A run that ends before the fuel does is the same run with more fuel. *)

Section Fuel.

Variable World : Type.
Variable http_get : request -> World -> World * (string + value).
Variable cos : float -> float.

Lemma pages_more_fuel {Acc : Type} (body : value -> Acc -> outcome Acc) fuel :
  forall places acc (s s' : Session World) out fuel',
  pages http_get body fuel places acc s = (s', out) ->
  out <> OutOfFuel ->
  (fuel <= fuel')%nat ->
  pages http_get body fuel' places acc s = (s', out).
Proof.
  induction fuel as [|fuel IH]; intros places acc s s' out fuel' H Hout Hle; cbn in H.
  - inversion H; subst. congruence.
  - destruct fuel' as [|fuel']; [lia|]. cbn.
    destruct (truthy places); [|exact H].
    destruct (data <- getitem places "data" ;; _) as [[acc' [url|]]|e|]; try exact H.
    destruct (get http_get (Next url) s) as [s1 [places'|e|]]; try exact H.
    apply IH; [exact H|exact Hout|lia].
Qed.

Lemma get_places_more_fuel {Acc : Type} (body : value -> Acc -> outcome Acc)
    fuel fuel' latlong dist query acc (s s' : Session World) out :
  get_places http_get body fuel latlong dist query acc s = (s', out) ->
  out <> OutOfFuel ->
  (fuel <= fuel')%nat ->
  get_places http_get body fuel' latlong dist query acc s = (s', out).
Proof.
  unfold get_places. intros H Hout Hle.
  destruct (get http_get (Search latlong dist query) s) as [s1 [places|e|]]; try exact H.
  exact (pages_more_fuel _ _ _ _ _ _ _ _ H Hout Hle).
Qed.

Lemma search_words_more_fuel fuel fuel' latlong hist threshold :
  forall words result (s s' : Session World) out,
  search_words http_get fuel latlong hist threshold words result s = (s', out) ->
  out <> OutOfFuel ->
  (fuel <= fuel')%nat ->
  search_words http_get fuel' latlong hist threshold words result s = (s', out).
Proof.
  induction words as [|word words IH]; intros result s s' out H Hout Hle; cbn in *;
    [exact H|].
  destruct (hist_get hist word <=? threshold)%Z; [exact H|].
  destruct (get_places http_get add_city fuel latlong 10000 word result s)
    as [s1 o1] eqn:G.
  assert (Ho1 : o1 <> OutOfFuel).
  { intros ->. inversion H; subst. congruence. }
  rewrite (get_places_more_fuel _ _ _ _ _ _ _ _ _ _ G Ho1 Hle).
  destruct o1 as [result1|e|]; [|exact H|congruence].
  exact (IH _ _ _ _ H Hout Hle).
Qed.

Lemma get_cities_more_fuel fuel fuel' latlong (st st' : State World) out :
  get_cities http_get cos fuel latlong st = (st', out) ->
  out <> OutOfFuel ->
  (fuel <= fuel')%nat ->
  get_cities http_get cos fuel' latlong st = (st', out).
Proof.
  unfold get_cities. intros H Hout Hle.
  destruct (find_nearest cos latlong (cities_cache st)) as [nearest|e|]; try exact H.
  destruct (snd nearest <? 500)%float; [exact H|].
  unfold search_cities in *.
  destruct (initial_result _) as [result0|e|]; try exact H.
  unfold first_search in *.
  destruct (get_places http_get scan_place fuel latlong 1000 "" ([], result0) (session st))
    as [s1 o1] eqn:F.
  assert (Ho1 : o1 <> OutOfFuel).
  { intros ->. inversion H; subst. congruence. }
  rewrite (get_places_more_fuel _ _ _ _ _ _ _ _ _ _ F Ho1 Hle).
  destruct o1 as [[hist result1]|e|]; [|exact H|congruence].
  unfold secondary_searches in *.
  destruct (nth_error _ _) as [middle|]; [|exact H].
  destruct (search_words http_get fuel latlong (seed hist) (hist_get (seed hist) middle)
              (firstn 5 (sorted_words (seed hist))) result1 s1) as [s2 o2] eqn:S2.
  assert (Ho2 : o2 <> OutOfFuel).
  { intros ->. inversion H; subst. congruence. }
  rewrite (search_words_more_fuel _ _ _ _ _ _ _ _ _ _ S2 Ho2 Hle). exact H.
Qed.

End Fuel.

(** ** Properties of [get_cities] *)

Section ResolverTheorems.

Variable World : Type.
Variable http_get : request -> World -> World * (string + value).
Variable cos : float -> float.

Lemma orderly_failure {A : Type} new (out : outcome A) c msg :
  orderly new out -> In c new -> rsp c = inl msg ->
  out = Raise (RequestException msg) /\
  exists before, new = before ++ [c] /\ Forall succeeded before.
Proof.
  intros [H|(before & r & m & -> & Hb & ->)] Hin Hc.
  - rewrite Forall_forall in H. destruct (H c Hin) as [body E]. congruence.
  - apply in_app_or in Hin. destruct Hin as [Hin|[<-|[]]].
    + rewrite Forall_forall in Hb. destruct (Hb c Hin) as [body E]. congruence.
    + cbn in Hc. inversion Hc; subst. eauto.
Qed.

Lemma miss_run_orderly fuel latlong nearest (st st' : State World) out new :
  miss_run World http_get fuel latlong nearest st st' out new ->
  calls (session st') = calls (session st) ++ new /\ orderly new out.
Proof.
  intros [e I|r0 s1 o1 out' new1 I F N1 N2 E Hc Ho
          |r0 s1 h r1 s2 o2 out' new1 new2 I F S2 N1 N2 E Hc1 Hs1 Hc2 Ho2
          |r0 s1 h r1 s2 r2 new1 new2 I F S2 Hc1 Hc2 Hs]; cbn [session].
  - rewrite app_nil_r. split; [reflexivity|apply orderly_nil].
  - split; [exact Hc|]. eapply orderly_retype; [exact Ho|].
    intros msg Em. apply E. exact Em.
  - split; [rewrite Hc2, Hc1, app_assoc; reflexivity|].
    eapply (orderly_app new1 new2 (Ok tt)); [left; exact Hs1|discriminate|].
    eapply orderly_retype; [exact Ho2|]. intros msg Em. apply E. exact Em.
  - split; [rewrite Hc2, Hc1, app_assoc; reflexivity|]. left. exact Hs.
Qed.

(** Every call of [get_cities] makes its requests one after the other and
    stops at the first that fails. *)
Lemma get_cities_orderly fuel latlong (st st' : State World) out :
  get_cities http_get cos fuel latlong st = (st', out) ->
  exists new, calls (session st') = calls (session st) ++ new /\ orderly new out.
Proof.
  intros H.
  destruct (get_cities_cases _ _ _ _ _ _ _ _ H)
    as [(e & _ & -> & ->)|[(nearest & _ & _ & -> & ->)|(nearest & new & _ & _ & R)]].
  - exists []. rewrite app_nil_r. split; [reflexivity|apply orderly_nil].
  - exists []. rewrite app_nil_r. split; [reflexivity|apply orderly_nil].
  - exists new. exact (miss_run_orderly _ _ _ _ _ _ _ R).
Qed.

Lemma miss_run_cache fuel latlong nearest (st st' : State World) out new :
  miss_run World http_get fuel latlong nearest st st' out new ->
  ((forall v, out <> Ok v) /\ cities_cache st' = cities_cache st) \/
  (exists result,
     out = Ok (VList result) /\
     cities_cache st' =
     cities_cache st ++
     [{| location := {| latitude := lat latlong; longitude := lon latlong |};
         cities_list := result |}]).
Proof.
  intros [e I|r0 s1 o1 out' new1 I F N1 N2 E Hc Ho
          |r0 s1 h r1 s2 o2 out' new1 new2 I F S2 N1 N2 E Hc1 Hs1 Hc2 Ho2
          |r0 s1 h r1 s2 r2 new1 new2 I F S2 Hc1 Hc2 Hs]; cbn [cities_cache].
  - left. split; [discriminate|reflexivity].
  - left. auto.
  - left. auto.
  - right. eauto.
Qed.

(** C9. When a call to the server raises during [get_cities], that
    exception is the outcome of [get_cities] itself, unchanged; the failed
    call is the last call made (so it is not tried again) and every call
    before it succeeded. *)
Theorem search_failure_propagates fuel latlong (st st' : State World) out new c msg :
  get_cities http_get cos fuel latlong st = (st', out) ->
  calls (session st') = calls (session st) ++ new ->
  In c new ->
  rsp c = inl msg ->
  out = Raise (RequestException msg) /\
  exists before, new = before ++ [c] /\ Forall succeeded before.
Proof.
  intros H Hnew Hin Hc.
  destruct (get_cities_orderly _ _ _ _ _ H) as (new' & Hc' & Ho).
  rewrite Hc' in Hnew. apply app_inv_head in Hnew. subst new'.
  exact (orderly_failure _ _ _ _ Ho Hin Hc).
Qed.

(** C10. A call of [get_cities] that does not return a list leaves
    [cities_cache] as it was, and so does any call in which a request to the
    server raised; a call that misses the cache and returns appends exactly
    one entry, the queried coordinate with the returned list, after the
    entries that were there. *)
Theorem cache_updated_on_success_only fuel latlong (st st' : State World) out :
  get_cities http_get cos fuel latlong st = (st', out) ->
  ((forall v, out <> Ok v) -> cities_cache st' = cities_cache st) /\
  (forall new c msg,
     calls (session st') = calls (session st) ++ new ->
     In c new -> rsp c = inl msg ->
     cities_cache st' = cities_cache st) /\
  (forall v nearest,
     out = Ok v ->
     find_nearest cos latlong (cities_cache st) = Ok nearest ->
     (snd nearest <? 500)%float = false ->
     exists result,
       v = VList result /\
       cities_cache st' =
       cities_cache st ++
       [{| location := {| latitude := lat latlong; longitude := lon latlong |};
           cities_list := result |}]).
Proof.
  intros H.
  assert (Hfail : (forall v, out <> Ok v) -> cities_cache st' = cities_cache st).
  { intros Hno.
    destruct (get_cities_cases _ _ _ _ _ _ _ _ H)
      as [(e & _ & -> & _)|[(nearest & _ & _ & -> & _)|(nearest & new & _ & _ & R)]];
      try reflexivity.
    destruct (miss_run_cache _ _ _ _ _ _ _ R) as [[_ E]|(r & E & _)]; [exact E|].
    exfalso. exact (Hno _ E). }
  split; [exact Hfail|]. split.
  - intros new c msg Hnew Hin Hc. apply Hfail. intros v E.
    destruct (get_cities_orderly _ _ _ _ _ H) as (new' & Hc' & Ho).
    rewrite Hc' in Hnew. apply app_inv_head in Hnew. subst new'.
    destruct (orderly_failure _ _ _ _ Ho Hin Hc) as [E' _]. congruence.
  - intros v nearest E Hn Hd.
    destruct (get_cities_cases _ _ _ _ _ _ _ _ H)
      as [(e & Hn' & _)|[(n' & Hn' & Hd' & _)|(n' & new & Hn' & _ & R)]];
      try congruence.
    destruct (miss_run_cache _ _ _ _ _ _ _ R) as [[Hno _]|(r & E' & Hcache)].
    + exfalso. exact (Hno _ E).
    + exists r. split; [congruence|exact Hcache].
Qed.

Lemma scan_cache_in latlong cache : forall acc nearest,
  scan_cache cos latlong cache acc = Ok nearest ->
  nearest = acc \/
  exists e d, In e cache /\
    distance cos latlong (location e) = Ok d /\
    nearest = (VList (cities_list e), d).
Proof.
  induction cache as [|x cache IH]; intros acc nearest H; cbn in H.
  - inversion H. left. reflexivity.
  - unfold nearer in H.
    destruct (distance cos latlong (location x)) as [dx|e|] eqn:Ex; cbn [bind] in H;
      try discriminate.
    destruct (IH _ _ H) as [->|(e & d & Hin & Ed & ->)].
    + destruct (dx <? snd acc)%float; [|left; reflexivity].
      right. exists x, dx. split; [left; reflexivity|]. split; [exact Ex|reflexivity].
    + right. exists e, d. split; [right; exact Hin|]. split; [exact Ed|reflexivity].
Qed.

(** What the cache look-up hands to the rest of [get_cities]. *)
Lemma find_nearest_in latlong cache nearest :
  find_nearest cos latlong cache = Ok nearest ->
  nearest = (VNone, 1.0e12%float) \/
  exists e d, In e cache /\
    distance cos latlong (location e) = Ok d /\
    nearest = (VList (cities_list e), d).
Proof. apply scan_cache_in. Qed.

Lemma miss_run_completed fuel latlong nearest (st st' : State World) v new :
  miss_run World http_get fuel latlong nearest st st' (Ok v) new ->
  exists result0 s1 hist result1 s2 result2,
    initial_result nearest = Ok result0 /\
    first_search http_get fuel latlong result0 (session st) = (s1, Ok (hist, result1)) /\
    secondary_searches http_get fuel latlong hist result1 s1 = (s2, Ok result2) /\
    v = VList result2.
Proof.
  intros R. inversion R; subst;
    try match goal with
        | Hno : forall acc, Ok _ <> Ok acc |- _ => exfalso; exact (Hno _ eq_refl)
        end.
  do 6 eexists. repeat split; eauto.
Qed.

Lemma initial_result_cases latlong cache nearest result0 :
  find_nearest cos latlong cache = Ok nearest ->
  initial_result nearest = Ok result0 ->
  result0 = [] \/
  exists e, In e cache /\ result0 = cities_list e.
Proof.
  intros Hn. unfold initial_result.
  destruct (snd nearest <? 1000)%float; [|intros H; inversion H; auto].
  destruct (find_nearest_in latlong cache nearest Hn) as [->|(e & d & Hin & _ & ->)]; cbn.
  - discriminate.
  - intros H. inversion H. right. eauto.
Qed.

(** A call keeps the lists of the cache free of repeated places and returns
    such a list. *)
Lemma get_cities_distinct fuel latlong (st st' : State World) out :
  cache_distinct (cities_cache st) ->
  get_cities http_get cos fuel latlong st = (st', out) ->
  cache_distinct (cities_cache st') /\
  forall v, out = Ok v -> exists result, v = VList result /\ distinct_places result.
Proof.
  intros Hc H.
  destruct (get_cities_cases _ _ _ _ _ _ _ _ H)
    as [(e & _ & -> & ->)|[(nearest & Hn & Hd & -> & ->)|(nearest & new & Hn & Hd & R)]].
  - split; [exact Hc|]. discriminate.
  - split; [exact Hc|].
    intros v E. inversion E; subst v.
    destruct (find_nearest_in latlong (cities_cache st) nearest Hn)
      as [->|(e & d & Hin & _ & ->)]; cbn in *.
    + discriminate.
    + exists (cities_list e). split; [reflexivity|].
      unfold cache_distinct in Hc. rewrite Forall_forall in Hc. exact (Hc e Hin).
  - destruct (miss_run_cache _ _ _ _ _ _ _ R) as [[Hno E]|(r & E & Hcache)].
    + split; [rewrite E; exact Hc|]. intros v Ev. exfalso. exact (Hno _ Ev).
    + subst out. destruct (miss_run_completed _ _ _ _ _ _ _ R)
        as (r0 & s1 & h & r1 & s2 & r2 & I & F & S2 & Ev).
      inversion Ev; subst r2.
      assert (D0 : distinct_places r0).
      { destruct (initial_result_cases _ _ _ _ Hn I) as [->|(e & Hin & ->)].
        - apply distinct_places_nil.
        - unfold cache_distinct in Hc. rewrite Forall_forall in Hc. exact (Hc e Hin). }
      assert (D1 : distinct_places r1).
      { eapply (first_search_preserves World http_get distinct_places); eauto.
        intros place a b Ha Hb. exact (add_city_distinct _ _ _ Ha Hb). }
      assert (D2 : distinct_places r).
      { eapply (secondary_searches_preserves World http_get distinct_places); eauto.
        intros place a b Ha Hb. exact (add_city_distinct _ _ _ Ha Hb). }
      split.
      * rewrite Hcache. apply Forall_app. split; [exact Hc|].
        constructor; [exact D2|constructor].
      * intros v E. inversion E. eauto.
Qed.

Lemma reachable_distinct (st : State World) :
  reachable World http_get cos st -> cache_distinct (cities_cache st).
Proof.
  induction 1 as [s|fuel latlong st st' out _ IH H]; cbn.
  - constructor.
  - exact (proj1 (get_cities_distinct _ _ _ _ _ IH H)).
Qed.

(** C3, as the code has it. In every list [get_cities] returns, in any
    state the program can reach, no place is [==] to a place before it in
    the list, nor found there by [in]: places are told apart by the whole
    record, not by their identifier. *)
Theorem result_has_no_equal_places fuel latlong (st st' : State World) v :
  reachable World http_get cos st ->
  get_cities http_get cos fuel latlong st = (st', Ok v) ->
  exists result, v = VList result /\ distinct_places result.
Proof.
  intros Hr H.
  exact (proj2 (get_cities_distinct _ _ _ _ _ (reachable_distinct _ Hr) H) v eq_refl).
Qed.

(** C8. When the nearest cache entry is at least 500 m and less than
    1000 m from the coordinate, the list [get_cities] returns contains every
    place of that entry's list. *)
Theorem partial_reuse_keeps_cached_places fuel latlong (st st' : State World) e d v :
  first_nearest cos latlong (cities_cache st) e ->
  distance cos latlong (location e) = Ok d ->
  (d <? 500)%float = false ->
  (d <? 1000)%float = true ->
  get_cities http_get cos fuel latlong st = (st', Ok v) ->
  exists result, v = VList result /\ incl (cities_list e) result.
Proof.
  intros Hnear He Hlo Hhi H.
  pose proof (find_nearest_first cos _ _ _ _ Hnear He (below_1000_in_bound _ Hhi)) as E.
  destruct (get_cities_cases _ _ _ _ _ _ _ _ H)
    as [(e' & _ & _ & Ho)|[(nearest & Hn & Hd & _)|(nearest & new & Hn & Hd & R)]].
  { discriminate. }
  { rewrite E in Hn. inversion Hn; subst nearest. cbn [snd] in Hd. congruence. }
  rewrite E in Hn. inversion Hn; subst nearest.
  destruct (miss_run_completed _ _ _ _ _ _ _ R)
    as (r0 & s1 & h & r1 & s2 & r2 & I & F & S2 & ->).
  unfold initial_result in I. cbn [fst snd] in I.
  rewrite Hhi in I. cbn in I. inversion I; subst r0.
  set (P := fun r : list value => exists extra, r = cities_list e ++ extra).
  assert (HP : forall place a b, P a -> add_city place a = Ok b -> P b)
    by (intros place a b; apply add_city_grows).
  assert (P1 : P r1).
  { eapply (first_search_preserves World http_get P); eauto.
    exists []. rewrite app_nil_r. reflexivity. }
  assert (P2 : P r2).
  { eapply (secondary_searches_preserves World http_get P); eauto. }
  destruct P2 as [extra ->]. exists (cities_list e ++ extra).
  split; [reflexivity|]. apply incl_appl. apply incl_refl.
Qed.

(** C7. In a call of [get_cities] whose first search completed with the
    histogram [hist]: the words are the histogram's words sorted by
    descending count, the threshold is the count of the word at index
    [len // 2], and the searches made after the first one are, in order and
    each within 10000 m of the coordinate, for the words at the head of the
    first five that are above the threshold; there are at most five of
    them, and when the call returns they are all the words before the first
    one that is not above the threshold. *)
Theorem secondary_search_plan fuel latlong (st st' : State World) out nearest result0 s1
    hist result1 :
  find_nearest cos latlong (cities_cache st) = Ok nearest ->
  (snd nearest <? 500)%float = false ->
  initial_result nearest = Ok result0 ->
  first_search http_get fuel latlong result0 (session st) = (s1, Ok (hist, result1)) ->
  get_cities http_get cos fuel latlong st = (st', out) ->
  let hist' := seed hist in
  let words := sorted_words hist' in
  Permutation words (hist_keys hist') /\
  StronglySorted (fun a b => (hist_get hist' b <= hist_get hist' a)%Z) words /\
  exists middle,
    nth_error words (Nat.div (List.length words) 2) = Some middle /\
    let threshold := hist_get hist' middle in
    exists new queries rest,
      calls (session st') = calls s1 ++ new /\
      searches new = map (Search latlong 10000) queries /\
      (List.length queries <= 5)%nat /\
      take_while (fun w => (threshold <? hist_get hist' w)%Z) (firstn 5 words)
      = queries ++ rest /\
      (forall v, out = Ok v -> rest = []).
Proof.
  intros Hn Hd I F H hist' words.
  split; [apply sorted_words_perm|]. split; [apply sorted_words_descending|].
  destruct (secondary_searches_unfold World http_get fuel latlong hist result1 s1)
    as (middle & Hm & E).
  exists middle. split; [exact Hm|]. intros threshold.
  unfold get_cities, search_cities in H. rewrite Hn, Hd, I, F, E in H.
  destruct (search_words http_get fuel latlong (seed hist) (hist_get (seed hist) middle)
              (firstn 5 (sorted_words (seed hist))) result1 s1) as [s2 o2] eqn:S2.
  apply search_words_calls in S2.
  destruct S2 as (new & queries & rest & Hc & Hs & _ & Ht & Hr).
  assert (Hs2 : session st' = s2)
    by (destruct o2; inversion H; reflexivity).
  exists new, queries, rest. rewrite Hs2.
  split; [exact Hc|]. split; [exact Hs|]. split; [|split; [exact Ht|]].
  - pose proof (take_while_length
                  (fun w => (threshold <? hist_get hist' w)%Z) (firstn 5 words)) as L.
    fold hist' words threshold in Ht. rewrite Ht, length_app in L.
    pose proof (firstn_le_length 5 words). lia.
  - intros v Ev. destruct o2 as [r2|e|]; inversion H; subst; try discriminate.
    eapply Hr. reflexivity.
Qed.

(** C2, on the code. With an empty cache and a first search that yields no
    place (a body that is false, or one whose [data] is empty and that has
    no further page), [get_cities] returns the empty list and seeds the
    histogram with [{'city': 1}], but makes no second search: the only call
    made is the first search, since the count of the one word equals the
    threshold. *)
Theorem empty_search_makes_no_second_search fuel latlong (st : State World) w body :
  cities_cache st = [] ->
  http_get (Search latlong 1000 "") (world (session st)) = (w, inr body) ->
  truthy body = false \/ body = VDict [("data", VList [])] ->
  let s1 := {| world := w;
               calls := calls (session st) ++
                        [{| req := Search latlong 1000 ""; rsp := inr body |}] |} in
  first_search http_get (S fuel) latlong [] (session st) = (s1, Ok ([], [])) /\
  seed [] = [("city", 1%Z)] /\
  secondary_searches http_get (S fuel) latlong [] [] s1 = (s1, Ok []) /\
  get_cities http_get cos (S fuel) latlong st
  = ({| cities_cache :=
          [{| location := {| latitude := lat latlong; longitude := lon latlong |};
              cities_list := [] |}];
        session := s1 |},
     Ok (VList [])).
Proof.
  intros Hcache Hget Hbody s1.
  assert (F : first_search http_get (S fuel) latlong [] (session st) = (s1, Ok ([], []))).
  { unfold first_search, get_places, get. rewrite Hget.
    destruct Hbody as [Hb| ->]; cbn; [rewrite Hb|]; reflexivity. }
  assert (S2 : secondary_searches http_get (S fuel) latlong [] [] s1 = (s1, Ok [])).
  { reflexivity. }
  split; [exact F|]. split; [reflexivity|]. split; [exact S2|].
  unfold get_cities, search_cities. rewrite Hcache. cbn. rewrite F, S2. reflexivity.
Qed.

End ResolverTheorems.

(** ** [is_city] and the fields of a place *)

Lemma in_tuple_str category t :
  in_tuple category t = true <-> exists c, category = VStr c /\ In c t.
Proof.
  unfold in_tuple. rewrite existsb_exists. split.
  - intros (s & Hin & E). destruct category; cbn in E; try discriminate.
    apply String.eqb_eq in E. subst. eauto.
  - intros (c & -> & Hin). exists c. split; [exact Hin|]. cbn. apply String.eqb_refl.
Qed.

Lemma contains_dict k d :
  contains k (VDict d) = Ok (match lookup k d with Some _ => true | None => false end).
Proof. reflexivity. Qed.

(** C5. For a place record, [is_city] returns true exactly when the
    category is one of City, Neighborhood, Country and
    State/province/region and the location has both a latitude and a
    longitude. *)
Theorem is_city_iff place :
  place_record place ->
  is_city place = Ok true <->
  exists fields category loc,
    place = VDict fields /\
    lookup "category" fields = Some (VStr category) /\
    (category = "City" \/ category = "Neighborhood" \/ category = "Country" \/
     category = "State/province/region") /\
    lookup "location" fields = Some (VDict loc) /\
    lookup "latitude" loc <> None /\
    lookup "longitude" loc <> None.
Proof.
  intros (fields & -> & Hloc). unfold is_city. cbn [getitem].
  split.
  - destruct (lookup "category" fields) as [category|] eqn:Ec; cbn [bind]; [|discriminate].
    destruct (in_tuple category city_categories) eqn:Et; [|discriminate].
    apply in_tuple_str in Et. destruct Et as (c & -> & Hin).
    destruct (lookup "location" fields) as [loc|] eqn:El; cbn [bind]; [|discriminate].
    destruct (Hloc _ eq_refl) as [d ->]. rewrite !contains_dict. cbn [bind].
    destruct (lookup "latitude" d) eqn:Ela; cbn [bind]; [|discriminate].
    destruct (lookup "longitude" d) eqn:Elo; cbn [bind]; [|discriminate].
    intros _. exists fields, c, d. repeat split; try congruence.
    cbn in Hin. intuition auto.
  - intros (fields' & c & d & E & Ec & Hc & El & Ela & Elo).
    inversion E; subst fields'. rewrite Ec. cbn [bind].
    assert (Et : in_tuple (VStr c) city_categories = true).
    { apply in_tuple_str. exists c. split; [reflexivity|]. cbn. intuition auto. }
    rewrite Et, El. cbn [bind]. rewrite !contains_dict.
    destruct (lookup "latitude" d); [|congruence]. cbn [bind].
    destruct (lookup "longitude" d); [|congruence]. reflexivity.
Qed.

(** ** Tokenization *)

Lemma substring_0_0 s : substring 0 0 s = EmptyString.
Proof. destruct s; reflexivity. Qed.

Lemma substring_prefix s t : substring 0 (String.length s) (s ++ t) = s.
Proof.
  induction s as [|c s IH]; cbn; [apply substring_0_0|]. rewrite IH. reflexivity.
Qed.

Lemma substring_all s : substring 0 (String.length s) s = s.
Proof. induction s as [|c s IH]; cbn; [reflexivity|]. rewrite IH. reflexivity. Qed.

Lemma substring_last s c :
  substring (String.length s) 1 (s ++ String c EmptyString) = String c EmptyString.
Proof. induction s as [|a s IH]; cbn; [reflexivity|exact IH]. Qed.

Lemma length_snoc s c :
  String.length (s ++ String c EmptyString) = S (String.length s).
Proof. induction s as [|a s IH]; cbn; [reflexivity|]. rewrite IH. reflexivity. Qed.

Lemma last_char_split w :
  w <> EmptyString -> exists init c, w = (init ++ String c EmptyString)%string.
Proof.
  induction w as [|a w IH]; [congruence|]. intros _.
  destruct w as [|b w].
  - exists EmptyString, a. reflexivity.
  - destruct IH as (init & c & E); [discriminate|].
    exists (String a init), c. cbn. rewrite <- E. reflexivity.
Qed.

Lemma strip_trailing_snoc init c :
  strip_trailing (init ++ String c EmptyString) =
  if (Ascii.eqb c "," || Ascii.eqb c ")")%bool then init
  else (init ++ String c EmptyString)%string.
Proof.
  induction init as [|a init IH]; [reflexivity|].
  cbn [append strip_trailing]. rewrite IH.
  destruct init; cbn [append];
    destruct (Ascii.eqb c "," || Ascii.eqb c ")")%bool; reflexivity.
Qed.

Lemma in_tuple_char c s1 s2 :
  in_tuple (VStr (String c EmptyString))
           [String s1 EmptyString; String s2 EmptyString]
  = (Ascii.eqb c s1 || Ascii.eqb c s2)%bool.
Proof.
  unfold in_tuple. cbn.
  destruct (Ascii.eqb c s1), (Ascii.eqb c s2); reflexivity.
Qed.

(** [word[0]] and [word[1:]] of a word that is not empty. *)
Lemma str_index_first c rest : str_index (String c rest) 0 = Ok (String c EmptyString).
Proof.
  unfold str_index, len. cbn [String.length].
  replace ((0 <? 0)%Z) with false by reflexivity.
  replace ((0 <? 0) || (Z.of_nat (S (String.length rest)) <=? 0))%Z with false
    by (symmetry; apply orb_false_iff; split; [reflexivity|apply Z.leb_gt; lia]).
  cbn. rewrite substring_0_0. reflexivity.
Qed.

Lemma str_slice_tail c rest : str_slice (String c rest) (Some 1%Z) None = rest.
Proof.
  unfold str_slice, slice_bound, len. cbn [String.length].
  replace ((1 <? 0)%Z) with false by reflexivity.
  replace (Z.to_nat (Z.max 0 (Z.min (Z.of_nat (S (String.length rest))) 1))) with 1%nat
    by lia.
  replace (Z.to_nat (Z.of_nat (S (String.length rest)) -
                     Z.max 0 (Z.min (Z.of_nat (S (String.length rest))) 1)))
    with (String.length rest) by lia.
  cbn. apply substring_all.
Qed.

(** [word[-1]] and [word[:-1]] of a word that is not empty. *)
Lemma str_index_last init c :
  str_index (init ++ String c EmptyString) (-1) = Ok (String c EmptyString).
Proof.
  unfold str_index, len. rewrite length_snoc.
  replace ((-1 <? 0)%Z) with true by reflexivity.
  replace ((-1 + Z.of_nat (S (String.length init)) <? 0)
           || (Z.of_nat (S (String.length init)) <=?
               -1 + Z.of_nat (S (String.length init))))%Z with false
    by (symmetry; apply orb_false_iff; split; [apply Z.ltb_ge|apply Z.leb_gt]; lia).
  replace (Z.to_nat (-1 + Z.of_nat (S (String.length init)))) with (String.length init)
    by lia.
  rewrite substring_last. reflexivity.
Qed.

Lemma str_slice_init init c :
  str_slice (init ++ String c EmptyString) None (Some (-1)%Z) = init.
Proof.
  unfold str_slice, slice_bound, len. rewrite length_snoc.
  replace ((-1 <? 0)%Z) with true by reflexivity.
  replace (Z.to_nat
             (Z.max 0 (Z.min (Z.of_nat (S (String.length init)))
                             (-1 + Z.of_nat (S (String.length init)))) - 0))
    with (String.length init) by lia.
  cbn [Z.to_nat]. apply substring_prefix.
Qed.

Lemma eqb_empty w : String.eqb w EmptyString = match w with EmptyString => true | _ => false end.
Proof. destruct w; reflexivity. Qed.

(** The loop body at lines 192-197 computes the token of the
    specification. *)
Lemma count_word_token word hist :
  count_word word hist =
  Ok (match token word with
      | Some t => hist_incr t hist
      | None => hist
      end).
Proof.
  unfold count_word, token.
  assert (E1 : (if negb (String.eqb word EmptyString)
                then c <- str_index word 0 ;;
                     Ok (if in_tuple (VStr c) [","; "("]
                         then str_slice word (Some 1%Z) None
                         else word)
                else Ok word) = Ok (strip_leading word)).
  { destruct word as [|c rest]; [reflexivity|].
    rewrite eqb_empty. cbn [negb]. rewrite str_index_first. cbn [bind].
    rewrite in_tuple_char, str_slice_tail. reflexivity. }
  rewrite E1. cbn [bind]. set (w1 := strip_leading word).
  assert (E2 : (if negb (String.eqb w1 EmptyString)
                then c <- str_index w1 (-1) ;;
                     Ok (if in_tuple (VStr c) [","; ")"]
                         then str_slice w1 None (Some (-1)%Z)
                         else w1)
                else Ok w1) = Ok (strip_trailing w1)).
  { destruct (String.eqb w1 EmptyString) eqn:Ee.
    - apply String.eqb_eq in Ee. rewrite Ee. reflexivity.
    - apply String.eqb_neq in Ee. destruct (last_char_split _ Ee) as (init & c & ->).
      cbn [negb]. rewrite str_index_last. cbn [bind].
      rewrite in_tuple_char, str_slice_init, strip_trailing_snoc. reflexivity. }
  rewrite E2. cbn [bind]. f_equal. unfold len.
  destruct (String.length (strip_trailing w1) <=? 2)%nat eqn:L.
  - apply Nat.leb_le in L.
    replace (2 <? Z.of_nat (String.length (strip_trailing w1)))%Z with false
      by (symmetry; apply Z.ltb_ge; lia).
    reflexivity.
  - apply Nat.leb_gt in L.
    replace (2 <? Z.of_nat (String.length (strip_trailing w1)))%Z with true
      by (symmetry; apply Z.ltb_lt; lia).
    reflexivity.
Qed.

Lemma count_words_counted words : forall hist,
  count_words words hist = Ok (fold_left (fun h t => hist_incr t h) (counted words) hist).
Proof.
  induction words as [|word words IH]; intros hist; cbn [count_words]; [reflexivity|].
  rewrite count_word_token. cbn [bind]. rewrite IH. f_equal.
  unfold counted. cbn [flat_map]. rewrite fold_left_app.
  destruct (token word); reflexivity.
Qed.

Lemma hist_get_incr t hist k :
  hist_get (hist_incr t hist) k
  = (hist_get hist k + if String.eqb k t then 1 else 0)%Z.
Proof.
  unfold hist_get. induction hist as [|[k' n] hist IH]; cbn.
  - destruct (String.eqb k t); reflexivity.
  - destruct (String.eqb t k') eqn:E1; cbn.
    + apply String.eqb_eq in E1. subst k'.
      destruct (String.eqb k t); [reflexivity|lia].
    + destruct (String.eqb k k') eqn:E2.
      * apply String.eqb_eq in E2. subst k'.
        rewrite String.eqb_sym, E1. lia.
      * exact IH.
Qed.

Lemma hist_get_counted ts : forall hist k,
  hist_get (fold_left (fun h t => hist_incr t h) ts hist) k
  = (hist_get hist k + Z.of_nat (count_occ string_dec ts k))%Z.
Proof.
  induction ts as [|t ts IH]; intros hist k; cbn [fold_left count_occ]; [lia|].
  rewrite IH, hist_get_incr.
  destruct (string_dec t k) as [->|Hne].
  - rewrite String.eqb_refl. lia.
  - assert (E : String.eqb k t = false) by (apply String.eqb_neq; congruence).
    rewrite E. lia.
Qed.

(** C6. The words of a place are the whitespace-separated pieces of its
    name followed by those of its location's city. Each is stripped of one
    leading [(] or [,] and then of one trailing [)] or [,], dropped when at
    most 2 characters are left, and lower-cased; the histogram counts each
    of the remaining tokens once more. *)
Theorem words_are_tokenized place hist result hist' result' :
  scan_place place (hist, result) = Ok (hist', result') ->
  exists name location city,
    getitem place "name" = Ok (VStr name) /\
    getitem place "location" = Ok location /\
    getitem location "city" = Ok (VStr city) /\
    let tokens := counted (split name ++ split city) in
    hist' = fold_left (fun h t => hist_incr t h) tokens hist /\
    forall k, hist_get hist' k
              = (hist_get hist k + Z.of_nat (count_occ string_dec tokens k))%Z.
Proof.
  unfold scan_place, place_words.
  destruct (getitem place "name") as [name|e|] eqn:En; cbn [bind]; try discriminate.
  destruct name as [| | | |name| |]; cbn [value_split bind]; try discriminate.
  destruct (getitem place "location") as [location|e|] eqn:El; cbn [bind];
    try discriminate.
  destruct (getitem location "city") as [city|e|] eqn:Ec; cbn [bind]; try discriminate.
  destruct city as [| | | |city| |]; cbn [value_split bind]; try discriminate.
  rewrite count_words_counted. cbn [bind].
  destruct (add_city place result) as [r|e|]; cbn [bind]; try discriminate.
  intros H. inversion H; subst.
  exists name, location, city.
  split; [reflexivity|]. split; [reflexivity|]. split; [exact Ec|].
  split; [reflexivity|]. intros k. apply hist_get_counted.
Qed.

Example split_on_whitespace :
  split "  New York  City (NY), x " = ["New"; "York"; "City"; "(NY),"; "x"].
Proof. reflexivity. Qed.

Example token_strips_one_leading : token "((ab," = Some "(ab".
Proof. reflexivity. Qed.

Example token_strips_one_trailing : token "Town)," = Some "town)".
Proof. reflexivity. Qed.

Example token_too_short : token "(NY)" = None.
Proof. reflexivity. Qed.

Example tokens_of_new_york_city :
  counted (split "New York City") = ["new"; "york"; "city"].
Proof. reflexivity. Qed.

(** ** Places with missing fields *)

Lemma is_city_total fields category loc :
  lookup "category" fields = Some category ->
  lookup "location" fields = Some (VDict loc) ->
  exists b,
    is_city (VDict fields) = Ok b /\
    (lookup "latitude" loc = None \/ lookup "longitude" loc = None -> b = false).
Proof.
  intros Hc Hl. unfold is_city. cbn [getitem]. rewrite Hc. cbn [bind].
  destruct (in_tuple category city_categories).
  2:{ exists false. split; reflexivity. }
  rewrite Hl. cbn [bind]. rewrite !contains_dict. cbn [bind].
  destruct (lookup "latitude" loc) as [x|].
  2:{ exists false. split; reflexivity. }
  destruct (lookup "longitude" loc) as [y|].
  - exists true. split; [reflexivity|]. intros [H|H]; discriminate.
  - exists false. split; reflexivity.
Qed.

(** C4, as the code has it. For a place that has a category and whose
    location is an object, [is_city] does not raise: it looks whether the
    location has a latitude and a longitude and answers false when one is
    missing. When the place also has a name and its location a city, both
    strings, the loop body of the first search does not raise either. *)
Theorem present_fields_are_enough fields category loc :
  lookup "category" fields = Some category ->
  lookup "location" fields = Some (VDict loc) ->
  (exists b,
     is_city (VDict fields) = Ok b /\
     (lookup "latitude" loc = None \/ lookup "longitude" loc = None -> b = false)) /\
  (forall name city hist result,
     lookup "name" fields = Some (VStr name) ->
     lookup "city" loc = Some (VStr city) ->
     exists acc, scan_place (VDict fields) (hist, result) = Ok acc).
Proof.
  intros Hc Hl. pose proof (is_city_total _ _ _ Hc Hl) as Hcity.
  split; [exact Hcity|].
  intros name city hist result Hn Hci.
  unfold scan_place, place_words. cbn [getitem]. rewrite Hn, Hl. cbn [bind value_split getitem].
  rewrite Hci. cbn [bind value_split]. rewrite count_words_counted. cbn [bind].
  unfold add_city. destruct Hcity as (b & -> & _).
  destruct (in_list _ result); cbn [bind]; eauto.
Qed.

(** ** The properties at the sample servers *)

Lemma cache_hit_witness :
  get_cities Sample.twin_server Sample.cos_flat 1 Sample.near Sample.cached
  = (Sample.cached, Ok (VList (cities_list Sample.entry))).
Proof.
  apply (cache_hit_returns_cached_list nat Sample.twin_server Sample.cos_flat 1
           Sample.near Sample.cached Sample.entry 434.84375%float).
  - exists [], [], 434.84375%float. split; [reflexivity|].
    split; [vm_compute; reflexivity|]. split; intros x [].
  - vm_compute. reflexivity.
  - vm_compute. reflexivity.
Defined.

Lemma partial_reuse_witness :
  exists result,
    VList [Sample.old_town; Sample.heights; Sample.park] = VList result /\
    incl (cities_list Sample.entry) result.
Proof.
  apply (partial_reuse_keeps_cached_places nat Sample.twin_server Sample.cos_flat
           2 Sample.farther Sample.cached
           (fst (get_cities Sample.twin_server Sample.cos_flat 2 Sample.farther Sample.cached))
           Sample.entry 869.6875%float).
  - exists [], [], 869.6875%float. split; [reflexivity|].
    split; [vm_compute; reflexivity|]. split; intros x [].
  - vm_compute. reflexivity.
  - vm_compute. reflexivity.
  - vm_compute. reflexivity.
  - vm_compute. reflexivity.
Defined.

Lemma secondary_search_plan_witness :
  let hist' := seed Sample.twin_hist in
  let words := sorted_words hist' in
  Permutation words (hist_keys hist') /\
  StronglySorted (fun a b => (hist_get hist' b <= hist_get hist' a)%Z) words /\
  exists middle,
    nth_error words (Nat.div (List.length words) 2) = Some middle /\
    let threshold := hist_get hist' middle in
    exists new queries rest,
      calls (session (fst (get_cities Sample.twin_server Sample.cos_flat 2
                             Sample.origin (Sample.start 0%nat))))
      = calls {| world := 1%nat; calls := [Sample.first_call] |} ++ new /\
      searches new = map (Search Sample.origin 10000) queries /\
      (List.length queries <= 5)%nat /\
      take_while (fun w => (threshold <? hist_get hist' w)%Z) (firstn 5 words)
      = queries ++ rest /\
      (forall v,
         snd (get_cities Sample.twin_server Sample.cos_flat 2
                Sample.origin (Sample.start 0%nat)) = Ok v ->
         rest = []).
Proof.
  apply (secondary_search_plan nat Sample.twin_server Sample.cos_flat 2
           Sample.origin (Sample.start 0%nat) _ _ (VNone, 1.0e12%float) [] _
           Sample.twin_hist Sample.twins).
  - vm_compute. reflexivity.
  - vm_compute. reflexivity.
  - vm_compute. reflexivity.
  - vm_compute. reflexivity.
  - apply surjective_pairing.
Defined.

Lemma search_failure_witness :
  snd (get_cities Sample.flaky_server Sample.cos_flat 3 Sample.origin (Sample.start 0%nat))
  = Raise (RequestException "503 Server Error") /\
  exists before,
    [Sample.flaky_first_call; Sample.failed_call] = before ++ [Sample.failed_call] /\
    Forall succeeded before.
Proof.
  apply (search_failure_propagates nat Sample.flaky_server Sample.cos_flat 3
           Sample.origin (Sample.start 0%nat)
           (fst (get_cities Sample.flaky_server Sample.cos_flat 3 Sample.origin
                   (Sample.start 0%nat)))).
  - apply surjective_pairing.
  - vm_compute. reflexivity.
  - right. left. reflexivity.
  - reflexivity.
Defined.

Lemma cache_update_witness :
  cities_cache (fst (get_cities Sample.twin_server Sample.cos_flat 2 Sample.origin
                       (Sample.start 0%nat)))
  = [] ++ [{| location := {| latitude := 0; longitude := 0 |};
              cities_list := Sample.twins |}].
Proof.
  destruct (cache_updated_on_success_only nat Sample.twin_server Sample.cos_flat 2
              Sample.origin (Sample.start 0%nat) _ _ (surjective_pairing _))
    as (_ & _ & H).
  destruct (H (VList Sample.twins) (VNone, 1.0e12%float)) as (result & E & Hc).
  - vm_compute. reflexivity.
  - vm_compute. reflexivity.
  - vm_compute. reflexivity.
  - inversion E; subst result. exact Hc.
Defined.

Lemma distinct_places_witness :
  exists result, VList Sample.twins = VList result /\ distinct_places result.
Proof.
  apply (result_has_no_equal_places nat Sample.twin_server Sample.cos_flat 2
           Sample.origin (Sample.start 0%nat)
           (fst (get_cities Sample.twin_server Sample.cos_flat 2 Sample.origin
                   (Sample.start 0%nat)))).
  - apply reachable_start.
  - vm_compute. reflexivity.
Defined.

(** The test is Python's: a record with a NaN in it, listed twice, is
    returned once, since the decoder's NaN is one object; the integers
    2^53 and 2^53 + 1, which the same float stands for, are told apart; the
    integer 1 and the float 1.0 are equal. *)
Example nan_record_listed_once :
  snd (get_cities
         (Sample.listing_server [Sample.place_at (VStr "1") (VNum nan);
                                 Sample.place_at (VStr "1") (VNum nan)])
         Sample.cos_flat 2 Sample.origin (Sample.start 0%nat))
  = Ok (VList [Sample.place_at (VStr "1") (VNum nan)]).
Proof. vm_compute. reflexivity. Qed.

Example large_integers_told_apart :
  snd (get_cities
         (Sample.listing_server [Sample.place_at (VInt (2 ^ 53)) (VNum 0);
                                 Sample.place_at (VInt (2 ^ 53 + 1)) (VNum 0);
                                 Sample.place_at (VNum 0x1p+53) (VNum 0)])
         Sample.cos_flat 2 Sample.origin (Sample.start 0%nat))
  = Ok (VList [Sample.place_at (VInt (2 ^ 53)) (VNum 0);
               Sample.place_at (VInt (2 ^ 53 + 1)) (VNum 0)]).
Proof. vm_compute. reflexivity. Qed.

Example integer_equals_float :
  snd (get_cities
         (Sample.listing_server [Sample.place_at (VInt 1) (VNum 0);
                                 Sample.place_at (VNum 1) (VInt 0);
                                 Sample.place_at (VBool true) (VBool false)])
         Sample.cos_flat 2 Sample.origin (Sample.start 0%nat))
  = Ok (VList [Sample.place_at (VInt 1) (VNum 0)]).
Proof. vm_compute. reflexivity. Qed.

(** C3 as stated fails: the nearby search of [Sample.twin_server] lists the
    identifier "1" under two names, both records are cities, they are not
    [==], and [get_cities] returns both. *)
Lemma same_identifier_twice :
  get_cities Sample.twin_server Sample.cos_flat 2 Sample.origin (Sample.start 0%nat)
  = ({| cities_cache := [{| location := {| latitude := 0; longitude := 0 |};
                            cities_list := [Sample.heights; Sample.park] |}];
        session := {| world := 2%nat;
                      calls := [Sample.first_call;
                                {| req := Search Sample.origin 10000 "springfield";
                                   rsp := inr (Sample.page []) |}] |} |},
     Ok (VList [Sample.heights; Sample.park])) /\
  place_id Sample.heights = Some (VStr "1") /\
  place_id Sample.park = Some (VStr "1") /\
  ~ distinct_ids [Sample.heights; Sample.park].
Proof.
  split; [vm_compute; reflexivity|]. split; [reflexivity|]. split; [reflexivity|].
  intros H.
  apply (H 0%nat 1%nat Sample.heights Sample.park); [lia|reflexivity|reflexivity|].
  reflexivity.
Qed.

Lemma present_fields_witness :
  (exists b,
     is_city Sample.heights = Ok b /\
     (lookup "latitude" [("city", VStr "Springfield"); ("latitude", VNum 0);
                         ("longitude", VNum 0)] = None \/
      lookup "longitude" [("city", VStr "Springfield"); ("latitude", VNum 0);
                          ("longitude", VNum 0)] = None -> b = false)) /\
  (forall name city hist result,
     lookup "name" [("category", VStr "City"); ("id", VStr "1");
                    ("location", VDict [("city", VStr "Springfield");
                                        ("latitude", VNum 0);
                                        ("longitude", VNum 0)]);
                    ("name", VStr "Springfield Heights")] = Some (VStr name) ->
     lookup "city" [("city", VStr "Springfield"); ("latitude", VNum 0);
                    ("longitude", VNum 0)] = Some (VStr city) ->
     exists acc, scan_place Sample.heights (hist, result) = Ok acc).
Proof.
  apply (present_fields_are_enough _ (VStr "City")); reflexivity.
Defined.

(** C4 as stated fails: a place record without a location makes [is_city],
    the loop body of the first search and [get_cities] raise [KeyError]. *)
Lemma place_without_location_raises :
  is_city Sample.bare = Raise (KeyError "location") /\
  scan_place Sample.bare ([], []) = Raise (KeyError "location") /\
  get_cities Sample.bare_server Sample.cos_flat 2 Sample.origin (Sample.start 0%nat)
  = ({| cities_cache := [];
        session := {| world := 1%nat;
                      calls := [{| req := Search Sample.origin 1000 "";
                                   rsp := inr (Sample.page [Sample.bare]) |}] |} |},
     Raise (KeyError "location")).
Proof. split; [|split]; vm_compute; reflexivity. Qed.

Lemma is_city_iff_witness :
  is_city Sample.old_town = Ok true <->
  exists fields category loc,
    Sample.old_town = VDict fields /\
    lookup "category" fields = Some (VStr category) /\
    (category = "City" \/ category = "Neighborhood" \/ category = "Country" \/
     category = "State/province/region") /\
    lookup "location" fields = Some (VDict loc) /\
    lookup "latitude" loc <> None /\
    lookup "longitude" loc <> None.
Proof.
  apply is_city_iff. eexists. split; [reflexivity|].
  intros loc H. vm_compute in H. inversion H. eexists. reflexivity.
Defined.

Lemma tokenized_witness :
  exists name location city,
    getitem (Sample.place "9" "Springfield (Old Town), IL" "City") "name" = Ok (VStr name) /\
    getitem (Sample.place "9" "Springfield (Old Town), IL" "City") "location" = Ok location /\
    getitem location "city" = Ok (VStr city) /\
    let tokens := counted (split name ++ split city) in
    [("springfield", 2%Z); ("old", 1%Z); ("town)", 1%Z)]
    = fold_left (fun h t => hist_incr t h) tokens [] /\
    forall k, hist_get [("springfield", 2%Z); ("old", 1%Z); ("town)", 1%Z)] k
              = (hist_get [] k + Z.of_nat (count_occ string_dec tokens k))%Z.
Proof.
  apply (words_are_tokenized _ [] []
           _ [Sample.place "9" "Springfield (Old Town), IL" "City"]).
  vm_compute. reflexivity.
Defined.

Lemma empty_search_witness :
  get_cities Sample.empty_server Sample.cos_flat 1 Sample.origin (Sample.start tt)
  = ({| cities_cache := [{| location := {| latitude := 0; longitude := 0 |};
                            cities_list := [] |}];
        session := {| world := tt;
                      calls := [{| req := Search Sample.origin 1000 "";
                                   rsp := inr (Sample.page []) |}] |} |},
     Ok (VList [])).
Proof.
  destruct (empty_search_makes_no_second_search unit Sample.empty_server Sample.cos_flat
              0 Sample.origin (Sample.start tt) tt (Sample.page []))
    as (_ & _ & _ & H).
  - reflexivity.
  - reflexivity.
  - right. reflexivity.
  - exact H.
Defined.

(** ** More on the resolver: what a call searches for *)

(** A word the histogram can hold: lower-case and longer than 2
    characters. *)
Definition query_word (t : string) : Prop :=
  lower t = t /\ (2 < String.length t)%nat.

(** The words of a histogram are query words, each once. *)
Definition hist_ok (hist : histogram) : Prop :=
  NoDup (hist_keys hist) /\ Forall query_word (hist_keys hist).

(** Every place of [l] passes [is_city]. *)
Definition all_cities (l : list value) : Prop :=
  Forall (fun place => is_city place = Ok true) l.

Lemma lower_char_idempotent c : lower_char (lower_char c) = lower_char c.
Proof. destruct c as [[] [] [] [] [] [] [] []]; reflexivity. Qed.

Lemma lower_idempotent s : lower (lower s) = lower s.
Proof.
  induction s as [|c s IH]; cbn; [reflexivity|].
  rewrite lower_char_idempotent, IH. reflexivity.
Qed.

Lemma length_lower s : String.length (lower s) = String.length s.
Proof. induction s as [|c s IH]; cbn; [reflexivity|]. rewrite IH. reflexivity. Qed.

Lemma token_query_word w t : token w = Some t -> query_word t.
Proof.
  unfold token.
  destruct (String.length (strip_trailing (strip_leading w)) <=? 2)%nat eqn:L;
    [discriminate|].
  intros H. inversion H; subst t. apply Nat.leb_gt in L.
  split; [apply lower_idempotent|rewrite length_lower; exact L].
Qed.

Lemma counted_query_words ws : Forall query_word (counted ws).
Proof.
  unfold counted. induction ws as [|w ws IH]; cbn; [constructor|].
  apply Forall_app. split; [|exact IH].
  destruct (token w) as [t|] eqn:E; constructor; [|constructor].
  exact (token_query_word _ _ E).
Qed.

Lemma hist_keys_incr k hist :
  (In k (hist_keys hist) /\ hist_keys (hist_incr k hist) = hist_keys hist) \/
  (~ In k (hist_keys hist) /\ hist_keys (hist_incr k hist) = hist_keys hist ++ [k]).
Proof.
  unfold hist_keys. induction hist as [|[k' n] hist IH]; cbn.
  - right. split; [tauto|reflexivity].
  - destruct (String.eqb k k') eqn:E; cbn.
    + apply String.eqb_eq in E. left. split; [left; congruence|reflexivity].
    + apply String.eqb_neq in E. destruct IH as [[Hin Hk]|[Hin Hk]].
      * left. split; [right; exact Hin|]. rewrite Hk. reflexivity.
      * right. split; [intros [H|H]; [congruence|tauto]|]. rewrite Hk. reflexivity.
Qed.

Lemma hist_incr_ok k hist : query_word k -> hist_ok hist -> hist_ok (hist_incr k hist).
Proof.
  intros Hk [Hn Hf]. unfold hist_ok.
  destruct (hist_keys_incr k hist) as [[_ ->]|[Hin ->]]; [split; assumption|].
  split.
  - apply NoDup_app; [exact Hn|constructor; [intros []|constructor]|].
    intros x Hx [<-|[]]. exact (Hin Hx).
  - apply Forall_app. split; [exact Hf|]. constructor; [exact Hk|constructor].
Qed.

Lemma fold_hist_incr_ok ts : forall hist,
  Forall query_word ts -> hist_ok hist ->
  hist_ok (fold_left (fun h t => hist_incr t h) ts hist).
Proof.
  induction ts as [|t ts IH]; intros hist Ht Hh; cbn; [exact Hh|].
  inversion Ht; subst. apply IH; [assumption|]. apply hist_incr_ok; assumption.
Qed.

Lemma scan_place_hist_ok place hist result hist' result' :
  hist_ok hist ->
  scan_place place (hist, result) = Ok (hist', result') ->
  hist_ok hist'.
Proof.
  intros Hh. unfold scan_place.
  destruct (place_words place) as [ws|e|]; cbn [bind]; try discriminate.
  rewrite count_words_counted. cbn [bind].
  destruct (add_city place result) as [r|e|]; cbn [bind]; try discriminate.
  intros H. inversion H; subst.
  apply fold_hist_incr_ok; [apply counted_query_words|exact Hh].
Qed.

Lemma hist_ok_nil : hist_ok [].
Proof. split; constructor. Qed.

Lemma seed_ok hist : hist_ok hist -> hist_ok (seed hist).
Proof.
  destruct hist; [|auto]. intros _. split.
  - constructor; [intros []|constructor].
  - constructor; [|constructor]. split; [reflexivity|cbn; lia].
Qed.

Lemma take_while_prefix {A : Type} (f : A -> bool) l :
  exists rest, l = take_while f l ++ rest.
Proof.
  induction l as [|x l [rest IH]]; cbn; [exists []; reflexivity|].
  destruct (f x); [|eexists; reflexivity].
  exists rest. cbn. rewrite <- IH. reflexivity.
Qed.

Lemma NoDup_app_left {A : Type} (l l' : list A) : NoDup (l ++ l') -> NoDup l.
Proof.
  induction l as [|x l IH]; cbn; intros H; [constructor|].
  inversion H; subst. constructor; [|auto].
  intros Hin. apply H2. apply in_or_app. left. exact Hin.
Qed.

(** The words a call may search for: a head of the first five sorted words,
    each a query word, none twice. *)
Lemma planned_queries hist queries rest f :
  hist_ok hist ->
  take_while f (firstn 5 (sorted_words (seed hist))) = queries ++ rest ->
  NoDup queries /\ Forall query_word queries /\ (List.length queries <= 5)%nat.
Proof.
  intros Hh Ht. destruct (seed_ok _ Hh) as [Hn Hf].
  set (words := sorted_words (seed hist)) in *.
  assert (Hn' : NoDup words).
  { eapply Permutation_NoDup; [symmetry; apply sorted_words_perm|exact Hn]. }
  assert (Hf' : Forall query_word words).
  { eapply Permutation_Forall; [symmetry; apply sorted_words_perm|exact Hf]. }
  destruct (take_while_prefix f (firstn 5 words)) as [rest' E].
  rewrite Ht in E.
  assert (Ew : words = queries ++ (rest ++ rest') ++ skipn 5 words).
  { rewrite <- (firstn_skipn 5 words) at 1. rewrite E, <- !app_assoc. reflexivity. }
  split; [|split].
  - rewrite Ew in Hn'. exact (NoDup_app_left _ _ Hn').
  - rewrite Ew in Hf'. apply Forall_app in Hf'. tauto.
  - pose proof (firstn_le_length 5 words) as L. rewrite E, !length_app in L. lia.
Qed.

Section ResolverMore.

Variable World : Type.
Variable http_get : request -> World -> World * (string + value).
Variable cos : float -> float.

Lemma no_new_calls (l new : list call) : l = l ++ new -> new = [].
Proof.
  intros H. rewrite <- (app_nil_r l) in H at 1. apply app_inv_head in H. congruence.
Qed.

Lemma first_search_hist_ok fuel latlong result (s s' : Session World) hist result' :
  first_search http_get fuel latlong result s = (s', Ok (hist, result')) ->
  hist_ok hist.
Proof.
  unfold first_search. intros H.
  apply (get_places_preserves _ _ _ _ (fun acc => hist_ok (fst acc))) in H.
  - exact H.
  - intros place [h r] [h' r'] Ha Hb. cbn in *.
    exact (scan_place_hist_ok _ _ _ _ _ Ha Hb).
  - exact hist_ok_nil.
Qed.

(** The searches of one call: none, or the nearby search followed by the
    searches for a head of the planned words. *)
Lemma get_cities_searches fuel latlong (st st' : State World) out new :
  get_cities http_get cos fuel latlong st = (st', out) ->
  calls (session st') = calls (session st) ++ new ->
  searches new = [] \/
  exists queries,
    searches new = Search latlong 1000 "" :: map (Search latlong 10000) queries /\
    NoDup queries /\ Forall query_word queries /\ (List.length queries <= 5)%nat.
Proof.
  intros H Hnew. unfold get_cities in H.
  destruct (find_nearest cos latlong (cities_cache st)) as [nearest|e|].
  2,3: inversion H as [[Hst Hout]]; rewrite <- Hst in Hnew;
       rewrite (no_new_calls _ _ Hnew); left; reflexivity.
  destruct (snd nearest <? 500)%float.
  { inversion H as [[Hst Hout]]. rewrite <- Hst in Hnew.
    rewrite (no_new_calls _ _ Hnew). left. reflexivity. }
  unfold search_cities in H.
  destruct (initial_result _) as [result0|e|].
  2,3: inversion H as [[Hst Hout]]; rewrite <- Hst in Hnew;
       rewrite (no_new_calls _ _ Hnew); left; reflexivity.
  destruct (first_search http_get fuel latlong result0 (session st)) as [s1 o1] eqn:F.
  pose proof F as F'. unfold first_search in F'. apply get_places_calls in F'.
  destruct F' as (new1 & Hc1 & Hs1 & _).
  assert (Hfirst : session st' = s1 ->
                   exists queries,
                     searches new
                     = Search latlong 1000 "" :: map (Search latlong 10000) queries /\
                     NoDup queries /\ Forall query_word queries /\
                     (List.length queries <= 5)%nat).
  { intros E. rewrite E, Hc1 in Hnew. apply app_inv_head in Hnew. subst new.
    exists []. rewrite Hs1. repeat split; try constructor. cbn. lia. }
  right.
  destruct o1 as [[hist result1]|e|];
    [|inversion H as [[Hst Hout]]; apply Hfirst; rewrite <- Hst; reflexivity..].
  destruct (secondary_searches_unfold World http_get fuel latlong hist result1 s1)
    as (middle & _ & E).
  rewrite E in H.
  destruct (search_words http_get fuel latlong (seed hist) (hist_get (seed hist) middle)
              (firstn 5 (sorted_words (seed hist))) result1 s1) as [s2 o2] eqn:S2.
  apply search_words_calls in S2.
  destruct S2 as (new2 & queries & rest & Hc2 & Hs2 & _ & Ht & _).
  assert (Hs : session st' = s2) by (destruct o2; inversion H; reflexivity).
  rewrite Hs, Hc2, Hc1, <- app_assoc in Hnew. apply app_inv_head in Hnew. subst new.
  exists queries. rewrite searches_app, Hs1, Hs2.
  split; [reflexivity|].
  exact (planned_queries _ _ _ _ (first_search_hist_ok _ _ _ _ _ _ _ F) Ht).
Qed.

(** X4. One call of [get_cities] makes at most six searches and makes none
    of them twice. *)
Theorem searches_are_few_and_distinct fuel latlong (st st' : State World) out new :
  get_cities http_get cos fuel latlong st = (st', out) ->
  calls (session st') = calls (session st) ++ new ->
  NoDup (searches new) /\ (List.length (searches new) <= 6)%nat.
Proof.
  intros H Hnew.
  destruct (get_cities_searches _ _ _ _ _ _ H Hnew) as [->|(qs & -> & Hn & _ & Hl)].
  - split; [constructor|cbn; lia].
  - split; [|cbn; rewrite length_map; lia].
    constructor.
    + intros Hin. apply in_map_iff in Hin. destruct Hin as (q & E & _). discriminate.
    + clear Hl. induction Hn as [|q qs Hq Hn IH]; cbn; constructor; [|exact IH].
      intros Hin. apply in_map_iff in Hin. destruct Hin as (q' & E & Hq').
      inversion E; subst q'. exact (Hq Hq').
Qed.

(** X5. Every search of a call is centred on the queried coordinate; it is
    the search within 1000 m with the empty query, or a search within
    10000 m for a lower-case word of more than 2 characters. *)
Theorem searches_are_for_query_words fuel latlong (st st' : State World) out new r :
  get_cities http_get cos fuel latlong st = (st', out) ->
  calls (session st') = calls (session st) ++ new ->
  In r (searches new) ->
  r = Search latlong 1000 "" \/
  exists word,
    r = Search latlong 10000 word /\ lower word = word /\ (2 < String.length word)%nat.
Proof.
  intros H Hnew Hin.
  destruct (get_cities_searches _ _ _ _ _ _ H Hnew) as [E|(qs & E & _ & Hf & _)];
    rewrite E in Hin; [destruct Hin|].
  destruct Hin as [<-|Hin]; [left; reflexivity|].
  apply in_map_iff in Hin. destruct Hin as (q & <- & Hq).
  right. exists q. rewrite Forall_forall in Hf. destruct (Hf q Hq) as [Hl Hlen].
  auto.
Qed.

(** Whatever [add_city] preserves holds of every list in the cache and of
    every list returned, once it holds of the cache. *)
Lemma get_cities_invariant (P : list value -> Prop) fuel latlong (st st' : State World) out :
  P [] ->
  (forall place result result', P result -> add_city place result = Ok result' -> P result') ->
  Forall (fun e => P (cities_list e)) (cities_cache st) ->
  get_cities http_get cos fuel latlong st = (st', out) ->
  Forall (fun e => P (cities_list e)) (cities_cache st') /\
  forall v, out = Ok v -> exists result, v = VList result /\ P result.
Proof.
  intros Hnil Hadd Hc H.
  destruct (get_cities_cases World http_get cos _ _ _ _ _ H)
    as [(e & _ & -> & ->)|[(nearest & Hn & Hd & -> & ->)|(nearest & new & Hn & Hd & R)]].
  - split; [exact Hc|]. discriminate.
  - split; [exact Hc|].
    intros v E. inversion E; subst v.
    destruct (find_nearest_in cos latlong (cities_cache st) nearest Hn)
      as [->|(e & d & Hin & _ & ->)]; cbn in *.
    + discriminate.
    + exists (cities_list e). split; [reflexivity|].
      rewrite Forall_forall in Hc. exact (Hc e Hin).
  - destruct (miss_run_cache World http_get _ _ _ _ _ _ _ R) as [[Hno E]|(r & E & Hcache)].
    + split; [rewrite E; exact Hc|]. intros v Ev. exfalso. exact (Hno _ Ev).
    + subst out. destruct (miss_run_completed World http_get _ _ _ _ _ _ _ R)
        as (r0 & s1 & h & r1 & s2 & r2 & I & F & S2 & Ev).
      inversion Ev; subst r2.
      assert (D0 : P r0).
      { destruct (initial_result_cases cos _ _ _ _ Hn I) as [->|(e & Hin & ->)];
          [exact Hnil|].
        rewrite Forall_forall in Hc. exact (Hc e Hin). }
      assert (D1 : P r1)
        by exact (first_search_preserves World http_get P fuel latlong Hadd _ _ _ _ _ D0 F).
      assert (D2 : P r)
        by exact (secondary_searches_preserves World http_get P fuel latlong h Hadd
                    _ _ _ _ D1 S2).
      split.
      * rewrite Hcache. apply Forall_app. split; [exact Hc|].
        constructor; [exact D2|constructor].
      * intros v E. inversion E. eauto.
Qed.

Lemma add_city_all_cities place result result' :
  all_cities result -> add_city place result = Ok result' -> all_cities result'.
Proof.
  intros Ha H. destruct (add_city_cases _ _ _ H) as [->|(-> & _ & Hc)]; [exact Ha|].
  apply Forall_app. split; [exact Ha|]. constructor; [exact Hc|constructor].
Qed.

Lemma reachable_all_cities (st : State World) :
  reachable World http_get cos st ->
  Forall (fun e => all_cities (cities_list e)) (cities_cache st).
Proof.
  induction 1 as [s|fuel latlong st st' out _ IH H]; cbn; [constructor|].
  refine (proj1 (get_cities_invariant all_cities _ _ _ _ _ _ add_city_all_cities IH H)).
  constructor.
Qed.


End ResolverMore.

(** ** More on the resolver: thresholds and errors *)

Section LoopFacts.

Variable Acc : Type.
Variable body : value -> Acc -> outcome Acc.


End LoopFacts.

Section ThresholdFacts.

Variable World : Type.
Variable http_get : request -> World -> World * (string + value).

(** X6. When all the words of the histogram have the same count (as with
    one word, or with the seeded histogram), the second loop stops at its
    first word: no further search is made and the result is left as it
    is. *)
Theorem equal_counts_search_nothing fuel latlong hist result (s : Session World) :
  (forall w w', In w (hist_keys (seed hist)) -> In w' (hist_keys (seed hist)) ->
                hist_get (seed hist) w = hist_get (seed hist) w') ->
  secondary_searches http_get fuel latlong hist result s = (s, Ok result).
Proof.
  intros Heq.
  destruct (secondary_searches_unfold World http_get fuel latlong hist result s)
    as (middle & Hm & ->).
  set (words := sorted_words (seed hist)) in *.
  assert (Hin : forall w, In w words -> In w (hist_keys (seed hist))).
  { intros w Hw. eapply Permutation_in; [apply sorted_words_perm|exact Hw]. }
  destruct words as [|w0 words'] eqn:Ew; [destruct (Nat.div 0 2); discriminate|].
  cbn [firstn search_words].
  rewrite (Heq w0 middle).
  - rewrite Z.leb_refl. reflexivity.
  - apply Hin. left. reflexivity.
  - apply Hin. exact (nth_error_In _ _ Hm).
Qed.

End ThresholdFacts.

(** X7. On a place record, [is_city] raises exactly when the category is
    missing ([KeyError] for it) or the category is eligible and the
    location is missing ([KeyError] for it); a place of another category
    is answered without a look at its location. *)
Theorem is_city_raises_iff place e :
  place_record place ->
  is_city place = Raise e <->
  exists fields,
    place = VDict fields /\
    ((lookup "category" fields = None /\ e = KeyError "category") \/
     (exists category,
        lookup "category" fields = Some category /\
        in_tuple category city_categories = true /\
        lookup "location" fields = None /\
        e = KeyError "location")).
Proof.
  intros (fields & -> & Hloc). unfold is_city. cbn [getitem]. split.
  - intros H. exists fields. split; [reflexivity|].
    destruct (lookup "category" fields) as [category|] eqn:Ec; cbn [bind] in H.
    2:{ left. inversion H. auto. }
    right. exists category.
    destruct (in_tuple category city_categories) eqn:Et; [|discriminate].
    destruct (lookup "location" fields) as [loc|] eqn:El; cbn [bind] in H.
    2:{ inversion H. auto. }
    exfalso. destruct (Hloc _ eq_refl) as [d ->].
    rewrite !contains_dict in H. cbn [bind] in H.
    destruct (lookup "latitude" d); cbn [bind] in H; discriminate.
  - intros (fields' & E & [[Ec ->]|(category & Ec & Et & El & ->)]);
      inversion E; subst fields'; rewrite Ec; cbn [bind]; [reflexivity|].
    rewrite Et, El. reflexivity.
Qed.

(** ** [do_upload]: the caller of [get_cities]

    [FacebookSession.do_upload] and [FacebookSession.post] (lines 218-268).
    The items of [image.metadata] are taken as they are used: an item that
    tests false is [None], one that tests true is [Some] of what is read
    from it. The encoder of [requests_toolbelt] and the server are
    parameters. *)

Module Upload.

(** [t[i]] on a tuple of strings, negative indices counting from the
    end. *)
Definition tuple_index (t : list string) (i : Z) : outcome string :=
  let n := Z.of_nat (List.length t) in
  let j := if (i <? 0)%Z then (i + n)%Z else i in
  if ((j <? 0) || (n <=? j))%Z then Raise IndexError
  else match nth_error t (Z.to_nat j) with
       | Some s => Ok s
       | None => Raise IndexError
       end.

(** [d[k] = v] on a dict. *)
Fixpoint dict_set {A : Type} (k : string) (v : A) (d : list (string * A))
  : list (string * A) :=
  match d with
  | [] => [(k, v)]
  | (k', v') :: d' =>
      if String.eqb k k' then (k, v) :: d' else (k', v') :: dict_set k v d'
  end.

(** [str(b)] of a bool. *)
Definition str_of_bool (b : bool) : string := if b then "True" else "False".

Definition newline : string := String (ascii_of_nat 10) EmptyString.

(** [image.metadata.date_taken]: [datetime.isoformat()] and [precision]. *)
Record DateTaken : Type := { isoformat : string; precision : Z }.

(** The items of [image.metadata] that [do_upload] reads. *)
Record Metadata : Type := {
  title : option string;
  description : option string;
  date_taken : option DateTaken;
  latlong : option LatLong
}.

(** [params], as [get_upload_params] builds it. *)
Record Params : Type := { album_id : string; no_story : bool; geo_tag : bool }.

Definition granularities : list string := ["year"; "month"; "day"; "hour"; "min"].

(** The operand of [a.lon - ...]: a float, an int as a float, or a bool
    taken as 0 or 1. *)
Definition as_number (v : value) : outcome float :=
  match v with
  | VNum x => Ok x
  | VInt n => float_of_int n
  | VBool b => Ok (float_of_bool b)
  | _ => Raise TypeError
  end.

Section WithServer.

Variable World : Type.
Variable http_get : request -> World -> World * (string + value).
Variable cos : float -> float.

(** What is uploaded with the photo. *)
Variable File : Type.

(** A value of the [fields] dict: the pair [('source', fileobj)], a string
    or the identifier of a place. *)
Inductive field : Type :=
| Source (fileobj : File)
| Str (s : string)
| Val (v : value).

Definition fields_t : Type := list (string * field).

(** [MultipartEncoder(fields=fields)] of [requests_toolbelt]: the encoded
    body, or the exception the encoder raises, as it does for a field that
    is not a string. *)
Variable Data : Type.
Variable multipart : fields_t -> exn + Data.

(** The server's answer to [session.post] with the encoded fields: an
    exception of the HTTP layer, as [str(ex)], or the decoded body. *)
Variable http_post : string -> Data -> World -> World * (string + value).

(** One call of [post]: the URL, the fields that were encoded, their
    encoding and the answer. *)
Record post_call : Type :=
  { url : string; sent : fields_t; encoded : Data; answer : string + value }.

(** The resolver's state and the posts made so far. *)
Record Uploader : Type := { resolver : State World; posts : list post_call }.

(** Lines 219-234: the photo, the story flag and the caption. *)
Definition caption (md : Metadata) : string :=
  match title md, description md with
  | Some t, Some d => (t ++ newline ++ newline ++ d)%string
  | Some t, None => t
  | None, Some d => d
  | None, None => EmptyString
  end.

Definition base_fields (fileobj : File) (md : Metadata) (params : Params) : fields_t :=
  let fields := [("photo", Source fileobj);
                 ("no_story", Str (str_of_bool (no_story params)))] in
  if negb (String.eqb (caption md) EmptyString)
  then dict_set "caption" (Str (caption md)) fields
  else fields.

(** Lines 235-240: the date and its granularity. *)
Definition date_fields (md : Metadata) (fields : fields_t) : outcome fields_t :=
  match date_taken md with
  | Some d =>
      let fields := dict_set "backdated_time" (Str (isoformat d)) fields in
      if (precision d <=? 5)%Z then
        g <- tuple_index granularities (precision d - 1) ;;
        Ok (dict_set "backdated_time_granularity" (Str g) fields)
      else Ok fields
  | None => Ok fields
  end.

(** [self.distance(latlong, place['location'])] on the location of a
    place. *)
Definition place_distance (a : LatLong) (b : value) : outcome float :=
  lon_v <- getitem b "longitude" ;;
  lon_x <- as_number lon_v ;;
  lat_v <- getitem b "latitude" ;;
  lat_x <- as_number lat_v ;;
  distance cos a {| latitude := lat_x; longitude := lon_x |}.

(** The body of the loop at lines 244-247. *)
Definition nearer_place (a : LatLong) (place : value) (nearest : value * float)
  : outcome (value * float) :=
  loc <- getitem place "location" ;;
  dist <- place_distance a loc ;;
  Ok (if (dist <? snd nearest)%float then (place, dist) else nearest).

(** Lines 243-250, after [get_cities] has returned [cities]. *)
Definition place_fields (a : LatLong) (cities : value) (fields : fields_t)
  : outcome fields_t :=
  items <- iterate cities ;;
  nearest <- for_each (nearer_place a) items (VNone, 1.0e12%float) ;;
  if truthy (fst nearest) then
    id <- getitem (fst nearest) "id" ;;
    Ok (dict_set "place" (Val id) fields)
  else Ok fields.

(** Lines 251-258: the fields are encoded, outside the [try]; then the
    post, whose failure is returned as text. *)
Definition send (params : Params) (fields : fields_t) (st : State World)
    (posted : list post_call) : Uploader * outcome string :=
  match multipart fields with
  | inl e => ({| resolver := st; posts := posted |}, Raise e)
  | inr body =>
      let url :=
        ("https://graph.facebook.com/v2.6/" ++ album_id params ++ "/photos")%string in
      let (w, response) := http_post url body (world (session st)) in
      ({| resolver := {| cities_cache := cities_cache st;
                         session := {| world := w; calls := calls (session st) |} |};
          posts := posted ++ [{| url := url; sent := fields; encoded := body;
                                 answer := response |}] |},
       Ok match response with
          | inl msg => msg
          | inr _ => EmptyString
          end)
  end.

Definition do_upload (fuel : nat) (fileobj : File) (md : Metadata) (params : Params)
    (up : Uploader) : Uploader * outcome string :=
  match date_fields md (base_fields fileobj md params) with
  | Ok fields =>
      match latlong md, geo_tag params with
      | Some a, true =>
          match get_cities http_get cos fuel a (resolver up) with
          | (st, Ok cities) =>
              match place_fields a cities fields with
              | Ok fields' => send params fields' st (posts up)
              | Raise e => ({| resolver := st; posts := posts up |}, Raise e)
              | OutOfFuel => ({| resolver := st; posts := posts up |}, OutOfFuel)
              end
          | (st, Raise e) => ({| resolver := st; posts := posts up |}, Raise e)
          | (st, OutOfFuel) => ({| resolver := st; posts := posts up |}, OutOfFuel)
          end
      | _, _ => send params fields (resolver up) (posts up)
      end
  | Raise e => (up, Raise e)
  | OutOfFuel => (up, OutOfFuel)
  end.

(** The distance from [a] to a place, as the loop computes it. *)
Definition distance_to (a : LatLong) (place : value) : outcome float :=
  loc <- getitem place "location" ;;
  place_distance a loc.


End WithServer.

Arguments Source {File} fileobj.
Arguments Str {File} s.
Arguments Val {File} v.
Arguments url {File Data} p.
Arguments sent {File Data} p.
Arguments encoded {File Data} p.
Arguments answer {File Data} p.
Arguments resolver {World File Data} u.
Arguments posts {World File Data} u.
Arguments base_fields {File} fileobj md params.
Arguments date_fields {File} md fields.
Arguments place_fields cos {File} a cities fields.
Arguments send {World File Data} multipart http_post params fields st posted.
Arguments do_upload {World} http_get cos {File Data} multipart http_post
  fuel fileobj md params up.

Section UploadFacts.

Variable World : Type.
Variable http_get : request -> World -> World * (string + value).
Variable cos : float -> float.
Variable File : Type.
Variable Data : Type.
Variable multipart : fields_t File -> exn + Data.
Variable http_post : string -> Data -> World -> World * (string + value).

Local Open Scope float_scope.

(** Encoding and posting touch neither the cache nor the calls of [get];
    either the encoder raises and nothing is posted, or there is one post,
    of the encoded fields. *)
Lemma send_posts params fields (st : State World) posted up' out :
  send multipart http_post params fields st posted = (up', out) ->
  cities_cache (resolver up') = cities_cache st /\
  calls (session (resolver up')) = calls (session st) /\
  ((exists e, multipart fields = inl e /\ posts up' = posted /\ out = Raise e) \/
   (exists p,
      multipart fields = inr (encoded p) /\
      posts up' = posted ++ [p] /\
      sent p = fields /\
      out = Ok match answer p with inl msg => msg | inr _ => EmptyString end)).
Proof.
  unfold send. destruct (multipart fields) as [e|body].
  - intros H. inversion H; subst; cbn. split; [reflexivity|]. split; [reflexivity|].
    left. eauto.
  - destruct (http_post _ body (world (session st))) as [w response].
    intros H. inversion H; subst; cbn [resolver posts cities_cache session calls].
    split; [reflexivity|]. split; [reflexivity|].
    right. eexists {| url := _; sent := _; encoded := _; answer := _ |}.
    cbn [encoded sent answer]. repeat split.
Qed.

(** X8. An upload posts at most once. It raises only when nothing was
    posted; once the post is made the outcome is returned, the empty string
    for a post that succeeded and the text of the exception for one that
    failed. *)
Theorem upload_posts_once_or_raises fuel fileobj md params (up up' : Uploader World File Data) out :
  do_upload http_get cos multipart http_post fuel fileobj md params up = (up', out) ->
  (posts up' = posts up /\ forall text, out <> Ok text) \/
  (exists p,
     posts up' = posts up ++ [p] /\
     out = Ok match answer p with inl msg => msg | inr _ => EmptyString end).
Proof.
  unfold do_upload. intros H.
  assert (Hsend : forall fields st,
             send multipart http_post params fields st (posts up) = (up', out) ->
             (posts up' = posts up /\ forall text, out <> Ok text) \/
             (exists p,
                posts up' = posts up ++ [p] /\
                out = Ok match answer p with inl msg => msg | inr _ => EmptyString end)).
  { intros fields st Hs. apply send_posts in Hs.
    destruct Hs as (_ & _ & [(e & _ & Hp & ->)|(p & _ & Hp & _ & Ho)]).
    - left. split; [exact Hp|discriminate].
    - right. eauto. }
  destruct (date_fields md (base_fields fileobj md params)) as [fields|e|];
    [|inversion H; subst; left; split; [reflexivity|discriminate]..].
  destruct (latlong md) as [a|]; [|eauto].
  destruct (geo_tag params); [|eauto].
  destruct (get_cities http_get cos fuel a (resolver up)) as [st [cities|e|]];
    [|inversion H; subst; left; split; [reflexivity|discriminate]..].
  destruct (place_fields cos a cities fields) as [fields'|e|];
    [eauto|inversion H; subst; left; split; [reflexivity|discriminate]..].
Qed.

(** X9. When a request of the place search fails during an upload, the
    upload raises that exception and posts nothing. *)
Theorem search_failure_aborts_upload fuel fileobj md params (up up' : Uploader World File Data)
    out new c msg :
  do_upload http_get cos multipart http_post fuel fileobj md params up = (up', out) ->
  calls (session (resolver up')) = calls (session (resolver up)) ++ new ->
  In c new ->
  rsp c = inl msg ->
  out = Raise (RequestException msg) /\ posts up' = posts up.
Proof.
  unfold do_upload. intros H Hnew Hin Hc.
  assert (Hsend : forall fields, ~ send multipart http_post params fields (resolver up) (posts up)
                                   = (up', out)).
  { intros fields Hs. apply send_posts in Hs. destruct Hs as (_ & Hcalls & _).
    rewrite Hcalls in Hnew. rewrite (no_new_calls _ _ Hnew) in Hin. exact Hin. }
  destruct (date_fields md (base_fields fileobj md params)) as [fields|e|].
  2,3: inversion H as [[Hup Hout]]; rewrite <- Hup in Hnew;
       rewrite (no_new_calls _ _ Hnew) in Hin; destruct Hin.
  destruct (latlong md) as [a|]; [|exfalso; exact (Hsend _ H)].
  destruct (geo_tag params); [|exfalso; exact (Hsend _ H)].
  destruct (get_cities http_get cos fuel a (resolver up)) as [st o] eqn:G.
  destruct (get_cities_orderly _ _ _ _ _ _ _ _ G) as (new' & Hc' & Ho).
  assert (Hst : calls (session (resolver up')) = calls (session st)).
  { destruct o as [cities|e|]; [|inversion H; reflexivity..].
    destruct (place_fields cos a cities fields) as [fields'|e|];
      [|inversion H; reflexivity..].
    apply send_posts in H. tauto. }
  rewrite Hst, Hc' in Hnew. apply app_inv_head in Hnew. subst new'.
  destruct (orderly_failure _ _ _ _ Ho Hin Hc) as [-> _].
  inversion H. split; reflexivity.
Qed.

Lemma app_same_nil {A : Type} (l l' : list A) : l = l ++ l' -> l' = [].
Proof.
  intros H. rewrite <- (app_nil_r l) in H at 1. apply app_inv_head in H. congruence.
Qed.

Lemma lookup_dict_set_other {A : Type} k k' (v : A) d :
  k <> k' -> lookup k (dict_set k' v d) = lookup k d.
Proof.
  intros Hne. induction d as [|[k0 v0] d IH]; cbn.
  - destruct (String.eqb k k') eqn:E; [apply String.eqb_eq in E; congruence|reflexivity].
  - destruct (String.eqb k' k0) eqn:E0; cbn.
    + apply String.eqb_eq in E0. subst k0.
      destruct (String.eqb k k') eqn:E; [apply String.eqb_eq in E; congruence|reflexivity].
    + rewrite IH. reflexivity.
Qed.

Lemma lookup_dict_set_same {A : Type} k (v : A) d : lookup k (dict_set k v d) = Some v.
Proof.
  induction d as [|[k0 v0] d IH]; cbn.
  - rewrite String.eqb_refl. reflexivity.
  - destruct (String.eqb k k0) eqn:E; cbn; [rewrite String.eqb_refl; reflexivity|].
    rewrite E. exact IH.
Qed.

Lemma date_fields_no_place md (fields fields' : fields_t File) :
  date_fields md fields = Ok fields' ->
  lookup "place" fields' = lookup "place" fields.
Proof.
  unfold date_fields. destruct (date_taken md) as [d|]; [|intros H; inversion H; reflexivity].
  destruct (precision d <=? 5)%Z.
  - destruct (tuple_index granularities (precision d - 1)) as [g|e|]; cbn [bind];
      try discriminate.
    intros H. inversion H. rewrite !lookup_dict_set_other by discriminate. reflexivity.
  - intros H. inversion H. rewrite lookup_dict_set_other by discriminate. reflexivity.
Qed.

Lemma base_fields_no_place (fileobj : File) md params :
  lookup "place" (base_fields fileobj md params) = None.
Proof.
  unfold base_fields. destruct (negb _); [|reflexivity].
  rewrite lookup_dict_set_other by discriminate. reflexivity.
Qed.

(** X10. Without coordinates, or with geo-tagging switched off, an upload
    leaves the cache alone, asks the server for no place, and what it posts
    names no place. *)
Theorem upload_without_geotag fuel fileobj md params (up up' : Uploader World File Data) out :
  latlong md = None \/ geo_tag params = false ->
  do_upload http_get cos multipart http_post fuel fileobj md params up = (up', out) ->
  cities_cache (resolver up') = cities_cache (resolver up) /\
  calls (session (resolver up')) = calls (session (resolver up)) /\
  forall p, posts up' = posts up ++ [p] -> lookup "place" (sent p) = None.
Proof.
  unfold do_upload. intros Hoff H.
  destruct (date_fields md (base_fields fileobj md params)) as [fields|e|] eqn:D.
  2,3: inversion H; subst; repeat split; intros p Hp;
       apply app_same_nil in Hp; discriminate.
  assert (Hs : send multipart http_post params fields (resolver up) (posts up) = (up', out)).
  { destruct Hoff as [E|E]; rewrite E in H; [exact H|].
    destruct (latlong md); exact H. }
  apply send_posts in Hs.
  destruct Hs as (Hcache & Hcalls & [(e & _ & Hp & _)|(p & _ & Hp & Hsent & _)]);
    (split; [exact Hcache|]); (split; [exact Hcalls|]); intros p' Hp'; rewrite Hp in Hp'.
  - apply app_same_nil in Hp'. discriminate.
  - apply app_inv_head in Hp'. inversion Hp'; subst p'.
    rewrite Hsent, (date_fields_no_place _ _ _ D). apply base_fields_no_place.
Qed.

Lemma nearer_place_distance a place nearest dx :
  distance_to cos a place = Ok dx ->
  nearer_place cos a place nearest
  = Ok (if dx <? snd nearest then (place, dx) else nearest).
Proof.
  unfold distance_to, nearer_place.
  destruct (getitem place "location") as [loc|e|]; cbn [bind]; try discriminate.
  intros ->. reflexivity.
Qed.





(** X12. The granularity sent with the date follows [precision]: year,
    month, day, hour, min for 1 to 5 and none above 5. Below 1 the index
    into the tuple wraps around, and from -5 down it is out of range and
    the upload raises [IndexError] before any request is made. *)
Theorem granularity_by_precision md d (fields : fields_t File) :
  date_taken md = Some d ->
  let dated := dict_set "backdated_time" (Str (isoformat d)) fields in
  ((1 <= precision d <= 5)%Z ->
   exists g,
     nth_error granularities (Z.to_nat (precision d - 1)) = Some g /\
     date_fields md fields = Ok (dict_set "backdated_time_granularity" (Str g) dated)) /\
  ((5 < precision d)%Z -> date_fields md fields = Ok dated) /\
  ((-5 < precision d <= 0)%Z ->
   exists g,
     nth_error granularities (Z.to_nat (precision d + 4)) = Some g /\
     date_fields md fields = Ok (dict_set "backdated_time_granularity" (Str g) dated)) /\
  ((precision d <= -5)%Z -> date_fields md fields = Raise IndexError).
Proof.
  intros Hd dated. unfold date_fields. rewrite Hd. fold dated.
  remember (precision d) as p eqn:Ep. clear Ep.
  repeat split.
  - intros Hp. replace (p <=? 5)%Z with true by (symmetry; apply Z.leb_le; lia).
    assert (E : (p = 1 \/ p = 2 \/ p = 3 \/ p = 4 \/ p = 5)%Z) by lia.
    destruct E as [E | [E | [E | [E | E]]]]; subst p; eexists; split; reflexivity.
  - intros Hp. replace (p <=? 5)%Z with false by (symmetry; apply Z.leb_gt; lia).
    reflexivity.
  - intros Hp. replace (p <=? 5)%Z with true by (symmetry; apply Z.leb_le; lia).
    assert (E : (p = 0 \/ p = -1 \/ p = -2 \/ p = -3 \/ p = -4)%Z) by lia.
    destruct E as [E | [E | [E | [E | E]]]]; subst p; eexists; split; reflexivity.
  - intros Hp. replace (p <=? 5)%Z with true by (symmetry; apply Z.leb_le; lia).
    unfold tuple_index. cbn [granularities List.length Z.of_nat].
    replace (p - 1 <? 0)%Z with true by (symmetry; apply Z.ltb_lt; lia).
    replace (p - 1 + Z.pos (Pos.of_succ_nat 4) <? 0)%Z with true
      by (symmetry; apply Z.ltb_lt; lia).
    reflexivity.
Qed.

Lemma city_has_coordinates place :
  place_record place ->
  is_city place = Ok true ->
  exists fields d lat lon,
    place = VDict fields /\
    lookup "location" fields = Some (VDict d) /\
    lookup "latitude" d = Some lat /\
    lookup "longitude" d = Some lon.
Proof.
  intros (fields & -> & Hloc). unfold is_city. cbn [getitem].
  destruct (lookup "category" fields) as [category|]; cbn [bind]; [|discriminate].
  destruct (in_tuple category city_categories); [|discriminate].
  destruct (lookup "location" fields) as [loc|] eqn:El; cbn [bind]; [|discriminate].
  destruct (Hloc _ eq_refl) as [d ->]. rewrite !contains_dict. cbn [bind].
  destruct (lookup "latitude" d) as [lat|] eqn:Ela; cbn [bind]; [|discriminate].
  destruct (lookup "longitude" d) as [lon|] eqn:Elo; cbn [bind]; [|discriminate].
  intros _. exists fields, d, lat, lon. auto.
Qed.

(** The coordinates of a place, where it has them, are numbers a float
    can hold: floats, bools, and ints that are not beyond the floats. *)
Definition numeric_coordinates (place : value) : Prop :=
  forall loc k v,
    getitem place "location" = Ok loc ->
    k = "latitude" \/ k = "longitude" ->
    getitem loc k = Ok v ->
    exists x, as_number v = Ok x.

(** The distance to a city with numeric coordinates is what [distance]
    gives for these coordinates. *)
Lemma city_distance a place :
  place_record place -> numeric_coordinates place -> is_city place = Ok true ->
  exists b, distance_to cos a place = distance cos a b.
Proof.
  intros Hrec Hnum Hcity.
  destruct (city_has_coordinates _ Hrec Hcity) as (fields & d & lat & lon & -> & El & Ela & Elo).
  assert (Hl : getitem (VDict fields) "location" = Ok (VDict d)) by (cbn; rewrite El; reflexivity).
  destruct (Hnum (VDict d) "longitude" lon Hl (or_intror eq_refl)) as [x Hx];
    [cbn; rewrite Elo; reflexivity|].
  destruct (Hnum (VDict d) "latitude" lat Hl (or_introl eq_refl)) as [y Hy];
    [cbn; rewrite Ela; reflexivity|].
  unfold distance_to, place_distance. rewrite Hl. cbn [bind getitem].
  rewrite Elo, Ela. cbn [bind]. rewrite Hx, Hy. cbn [bind]. eauto.
Qed.

Lemma city_has_distance a place :
  PrimFloat.is_infinity (lat a) = false ->
  place_record place -> numeric_coordinates place -> is_city place = Ok true ->
  exists dx, distance_to cos a place = Ok dx.
Proof.
  intros Hfin Hrec Hnum Hcity.
  destruct (city_distance a place Hrec Hnum Hcity) as [b ->].
  exact (distance_finite cos a b Hfin).
Qed.

Lemma for_each_nearer_total a items : forall acc,
  (forall x, In x items -> exists dx, distance_to cos a x = Ok dx) ->
  exists acc',
    for_each (nearer_place cos a) items acc = Ok acc' /\
    (fst acc' = fst acc \/ In (fst acc') items).
Proof.
  induction items as [|x items IH]; intros acc H; cbn [for_each]; [eauto|].
  destruct (H x (or_introl eq_refl)) as (dx & Hd).
  rewrite (nearer_place_distance _ _ _ _ Hd). cbn [bind].
  destruct (IH (if dx <? snd acc then (x, dx) else acc)) as (acc' & E & Hin).
  { intros y Hy. apply H. right. exact Hy. }
  exists acc'. split; [exact E|].
  destruct Hin as [Hin|Hin]; [|right; right; exact Hin].
  destruct (dx <? snd acc); cbn [fst] in Hin; [right; left; congruence|left; exact Hin].
Qed.

(** X13. In any state the program can reach, the places [get_cities]
    returns all have a latitude and a longitude. So, when they are place
    records whose coordinates are numbers a float can hold, the choice of
    the place for the upload goes one of these ways. When the latitude of
    the photo is an infinity, the distance to the first place raises
    [ValueError], and only an empty list leaves the fields as they are.
    Otherwise the distance loop runs to its end, and the place field can
    fail only with [KeyError] for a nearest place without [id]. *)
Theorem place_choice_failures fuel a (st st' : State World) items
    (fields : fields_t File) :
  reachable World http_get cos st ->
  get_cities http_get cos fuel a st = (st', Ok (VList items)) ->
  (forall place, In place items -> place_record place /\ numeric_coordinates place) ->
  if PrimFloat.is_infinity (lat a) then
    (items = [] /\ place_fields cos a (VList items) fields = Ok fields) \/
    (items <> [] /\ place_fields cos a (VList items) fields = Raise ValueError)
  else
    (exists fields', place_fields cos a (VList items) fields = Ok fields') \/
    place_fields cos a (VList items) fields = Raise (KeyError "id").
Proof.
  intros Hr Hget Hok.
  destruct (get_cities_invariant World http_get cos all_cities _ _ _ _ _ (Forall_nil _)
              add_city_all_cities (reachable_all_cities _ _ _ _ Hr) Hget) as [_ Hv].
  destruct (Hv _ eq_refl) as (items' & E & Hall). inversion E; subst items'.
  unfold all_cities in Hall. rewrite Forall_forall in Hall.
  destruct (PrimFloat.is_infinity (lat a)) eqn:Hinf.
  { destruct items as [|x items]; [left; split; reflexivity|].
    right. split; [discriminate|].
    destruct (Hok x (or_introl eq_refl)) as [Hrec Hnum].
    destruct (city_distance a x Hrec Hnum (Hall x (or_introl eq_refl))) as [b Hb].
    rewrite (distance_infinite cos a b Hinf) in Hb.
    unfold place_fields. cbn [iterate bind for_each].
    unfold nearer_place. unfold distance_to in Hb.
    destruct (getitem x "location") as [loc|e|]; cbn [bind] in *;
      [rewrite Hb; reflexivity|inversion Hb; reflexivity|discriminate]. }
  destruct (for_each_nearer_total a items (VNone, 1.0e12)) as (acc & Hacc & Hin).
  { intros x Hx. destruct (Hok x Hx) as [Hrec Hnum].
    exact (city_has_distance a x Hinf Hrec Hnum (Hall x Hx)). }
  unfold place_fields. cbn [iterate bind]. rewrite Hacc. cbn [bind].
  destruct Hin as [E0|Hin].
  - cbn [fst] in E0. rewrite E0. cbn. left. eauto.
  - destruct (Hok _ Hin) as [(fs & Efs & _) _]. rewrite Efs.
    destruct (truthy (VDict fs)); [|left; eauto]. cbn [getitem].
    destruct (lookup "id" fs) as [id|]; cbn [bind]; [left; eauto|right; reflexivity].
Qed.

End UploadFacts.

End Upload.

(** ** [permitted]: the permissions the token carries

    [FacebookSession.permitted] (lines 63-90) with the [scope] table
    (lines 50-53). *)

Module Permissions.

(** [s.split(sep)] for a separator of one character: the pieces between
    the separators, the empty ones too. *)
Fixpoint split_on_from (sep : ascii) (cur : string) (s : string) : list string :=
  match s with
  | EmptyString => [cur]
  | String c s' =>
      if Ascii.eqb c sep then cur :: split_on_from sep EmptyString s'
      else split_on_from sep (cur ++ String c EmptyString) s'
  end.

Definition split_on (sep : ascii) (s : string) : list string :=
  split_on_from sep EmptyString s.

(** [s.strip()]. *)
Fixpoint lstrip (s : string) : string :=
  match s with
  | EmptyString => EmptyString
  | String c s' => if isspace c then lstrip s' else s
  end.

Fixpoint rstrip (s : string) : string :=
  match s with
  | EmptyString => EmptyString
  | String c s' =>
      match rstrip s' with
      | EmptyString => if isspace c then EmptyString else String c EmptyString
      | r => String c r
      end
  end.

Definition strip (s : string) : string := rstrip (lstrip s).

Definition scope : list (string * string) :=
  [("read", "user_photos"); ("write", "user_photos,publish_actions")].

(** The inner loop (lines 82-89): [true] is its [break] on a granted
    permission, [false] a [return False], for a permission that is not
    granted or that the answer does not list. *)
Fixpoint find_granted (required : string) (items : list value) : outcome bool :=
  match items with
  | [] => Ok false
  | permission :: items' =>
      name <- getitem permission "permission" ;;
      if negb (value_eqb name (VStr required)) then find_granted required items'
      else
        status <- getitem permission "status" ;;
        Ok (value_eqb status (VStr "granted"))
  end.

(** The outer loop (lines 77-90) over the pieces of the scope. *)
Fixpoint check_required (permissions : value) (required : list string) : outcome bool :=
  match required with
  | [] => Ok true
  | r :: rest =>
      let r := strip r in
      if String.eqb r EmptyString then check_required permissions rest
      else
        data <- getitem permissions "data" ;;
        items <- iterate data ;;
        granted <- find_granted r items ;;
        if granted then check_required permissions rest else Ok false
  end.

Definition check_scope (level : string) (permissions : value) : outcome bool :=
  match lookup level scope with
  | Some s => check_required permissions (split_on "," s)
  | None => Raise (KeyError level)
  end.

(** The stored password and [self.session]: [None], or a session made with
    a token. *)
Record Account : Type := { keyring : option string; oauth : option string }.

Definition permissions_url : request :=
  Next (VStr "https://graph.facebook.com/me/permissions").

Section WithServer.

Variable World : Type.
Variable http_get : request -> World -> World * (string + value).

Definition permitted (level : string) (a : Account) (s : Session World)
  : Account * Session World * outcome bool :=
  let no_token := ({| keyring := keyring a; oauth := None |}, s, Ok false) in
  match keyring a with
  | None => no_token
  | Some EmptyString => no_token
  | Some access_token =>
      let a' := match oauth a with
                | None => {| keyring := keyring a; oauth := Some access_token |}
                | Some _ => a
                end in
      let (s', r) := get http_get permissions_url s in
      let permissions := match r with Ok body => body | _ => VNone end in
      if negb (truthy permissions) then (a', s', Ok false)
      else (a', s', check_scope level permissions)
  end.

End WithServer.

Arguments permitted {World} http_get level a s.

(** The first entry of [items] named [required] is granted. *)
Definition first_is_granted (required : string) (items : list value) : Prop :=
  exists pre entry post name status,
    items = pre ++ entry :: post /\
    (forall x, In x pre ->
       exists n, getitem x "permission" = Ok n /\ value_eqb n (VStr required) = false) /\
    getitem entry "permission" = Ok name /\
    value_eqb name (VStr required) = true /\
    getitem entry "status" = Ok status /\
    value_eqb status (VStr "granted") = true.

Lemma find_granted_iff required items :
  find_granted required items = Ok true <-> first_is_granted required items.
Proof.
  split.
  - induction items as [|x items IH]; cbn [find_granted]; [discriminate|].
    destruct (getitem x "permission") as [n|e|] eqn:En; cbn [bind]; try discriminate.
    destruct (value_eqb n (VStr required)) eqn:Eq; cbn [negb].
    + destruct (getitem x "status") as [st|e|] eqn:Es; cbn [bind]; try discriminate.
      intros H. inversion H as [Hg].
      exists [], x, items, n, st. repeat split; auto. intros y [].
    + intros H. destruct (IH H) as (pre & entry & post & name & st & -> & Hpre & Hrest).
      exists (x :: pre), entry, post, name, st. split; [reflexivity|].
      split; [|exact Hrest].
      intros y [<-|Hy]; [eauto|exact (Hpre y Hy)].
  - intros (pre & entry & post & name & st & -> & Hpre & En & Eq & Es & Eg).
    induction pre as [|x pre IH]; cbn [app find_granted].
    + rewrite En. cbn [bind]. rewrite Eq. cbn [negb]. rewrite Es. cbn [bind].
      rewrite Eg. reflexivity.
    + destruct (Hpre x (or_introl eq_refl)) as (n & Hn & Hne).
      rewrite Hn. cbn [bind]. rewrite Hne. cbn [negb].
      apply IH. intros y Hy. apply Hpre. right. exact Hy.
Qed.

Lemma check_scope_read permissions :
  check_scope "read" permissions
  = (data <- getitem permissions "data" ;;
     items <- iterate data ;;
     granted <- find_granted "user_photos" items ;;
     Ok granted).
Proof.
  cbn.
  destruct (getitem permissions "data") as [data|e|]; cbn [bind]; try reflexivity.
  destruct (iterate data) as [items|e|]; cbn [bind]; try reflexivity.
  destruct (find_granted "user_photos" items) as [[|]|e|]; reflexivity.
Qed.

Lemma check_scope_write permissions :
  check_scope "write" permissions
  = (data <- getitem permissions "data" ;;
     items <- iterate data ;;
     granted <- find_granted "user_photos" items ;;
     if granted then
       data' <- getitem permissions "data" ;;
       items' <- iterate data' ;;
       find_granted "publish_actions" items'
     else Ok false).
Proof.
  cbn.
  destruct (getitem permissions "data") as [data|e|]; cbn [bind]; try reflexivity.
  destruct (iterate data) as [items|e|]; cbn [bind]; try reflexivity.
  destruct (find_granted "user_photos" items) as [[|]|e|]; cbn [bind]; try reflexivity.
  destruct (find_granted "publish_actions" items) as [[|]|e|]; reflexivity.
Qed.

(** X14. For an answer whose [data] is the list [items], the level is
    permitted exactly when, for each permission the level needs
    ([user_photos], and [publish_actions] too for writing), the first entry
    of the answer that names it has the status [granted]. *)
Theorem permitted_by_first_entries permissions items :
  getitem permissions "data" = Ok (VList items) ->
  (check_scope "read" permissions = Ok true <-> first_is_granted "user_photos" items) /\
  (check_scope "write" permissions = Ok true <->
   first_is_granted "user_photos" items /\ first_is_granted "publish_actions" items).
Proof.
  intros Hd. rewrite check_scope_read, check_scope_write, Hd. cbn [bind iterate].
  rewrite <- !find_granted_iff. split.
  - destruct (find_granted "user_photos" items) as [[|]|e|]; cbn [bind];
      split; intros H; congruence.
  - destruct (find_granted "user_photos" items) as [[|]|e|]; cbn [bind].
    + split; [auto|tauto].
    + split; [discriminate|intros [H _]; discriminate].
    + split; [discriminate|intros [H _]; discriminate].
    + split; [discriminate|intros [H _]; discriminate].
Qed.

(** X15. Whoever may write may read: an answer that permits the level
    [write] permits the level [read]. *)
Theorem write_permits_read permissions :
  check_scope "write" permissions = Ok true ->
  check_scope "read" permissions = Ok true.
Proof.
  rewrite check_scope_read, check_scope_write.
  destruct (getitem permissions "data") as [data|e|]; cbn [bind]; try discriminate.
  destruct (iterate data) as [items|e|]; cbn [bind]; try discriminate.
  destruct (find_granted "user_photos" items) as [[|]|e|]; cbn [bind];
    try discriminate.
  reflexivity.
Qed.

Lemma getitem_error v k e : getitem v k = Raise e -> e = KeyError k \/ e = TypeError.
Proof.
  destruct v as [| | | | | |d]; cbn; intros H; inversion H; auto.
  destruct (lookup k d); inversion H. auto.
Qed.

Lemma iterate_error v e : iterate v = Raise e -> e = TypeError.
Proof. destruct v; cbn; intros H; inversion H; reflexivity. Qed.

Lemma find_granted_error required items e :
  find_granted required items = Raise e -> (exists k, e = KeyError k) \/ e = TypeError.
Proof.
  induction items as [|x items IH]; cbn [find_granted]; [discriminate|].
  destruct (getitem x "permission") as [n|e'|] eqn:En; cbn [bind]; try discriminate.
  - destruct (negb (value_eqb n (VStr required))); [exact IH|].
    destruct (getitem x "status") as [st|e'|] eqn:Es; cbn [bind]; try discriminate.
    intros H. inversion H; subst. destruct (getitem_error _ _ _ Es); eauto.
  - intros H. inversion H; subst. destruct (getitem_error _ _ _ En); eauto.
Qed.

Lemma check_required_error permissions required e :
  check_required permissions required = Raise e ->
  (exists k, e = KeyError k) \/ e = TypeError.
Proof.
  induction required as [|r rest IH]; cbn [check_required]; [discriminate|].
  destruct (String.eqb (strip r) EmptyString); [exact IH|].
  destruct (getitem permissions "data") as [data|e'|] eqn:Ed; cbn [bind];
    try discriminate.
  2:{ intros H. inversion H; subst. destruct (getitem_error _ _ _ Ed); eauto. }
  destruct (iterate data) as [items|e'|] eqn:Ei; cbn [bind]; try discriminate.
  2:{ intros H. inversion H; subst. right. exact (iterate_error _ _ Ei). }
  destruct (find_granted (strip r) items) as [[|]|e'|] eqn:Ef; cbn [bind];
    try discriminate; [exact IH|].
  intros H. inversion H; subst. exact (find_granted_error _ _ _ Ef).
Qed.

Section PermittedFacts.

Variable World : Type.
Variable http_get : request -> World -> World * (string + value).

(** X16. [permitted] asks the server at most once, and not at all without
    a stored token. A request that fails is not raised: the answer is then
    "not permitted". What [permitted] can raise is a [KeyError] or a
    [TypeError] on an answer of the wrong shape, or a [KeyError] on a level
    that is not in the table. *)
Theorem permitted_swallows_request_failure level a (s s' : Session World) a' out :
  permitted http_get level a s = (a', s', out) ->
  (keyring a = None \/ keyring a = Some EmptyString ->
   s' = s /\ oauth a' = None /\ out = Ok false) /\
  (exists new,
     calls s' = calls s ++ new /\ (List.length new <= 1)%nat /\
     forall c msg, In c new -> rsp c = inl msg -> out = Ok false) /\
  (forall e, out = Raise e -> (exists k, e = KeyError k) \/ e = TypeError).
Proof.
  unfold permitted. intros H.
  assert (Hnone : (a', s', out) = ({| keyring := keyring a; oauth := None |}, s, Ok false) ->
                  (keyring a = None \/ keyring a = Some EmptyString ->
                   s' = s /\ oauth a' = None /\ out = Ok false) /\
                  (exists new,
                     calls s' = calls s ++ new /\ (List.length new <= 1)%nat /\
                     forall c msg, In c new -> rsp c = inl msg -> out = Ok false) /\
                  (forall e, out = Raise e -> (exists k, e = KeyError k) \/ e = TypeError)).
  { intros E. inversion E; subst. split; [auto|]. split; [|discriminate].
    exists []. rewrite app_nil_r. split; [reflexivity|]. split; [cbn; lia|].
    intros c msg []. }
  destruct (keyring a) as [[|ch token]|] eqn:Ek; [exact (Hnone (eq_sym H))| |exact (Hnone (eq_sym H))].
  clear Hnone.
  destruct (get http_get permissions_url s) as [s1 r] eqn:G.
  destruct (get_spec _ _ _ _ _ _ G) as (response & Hc & Hr).
  split; [intros [E|E]; discriminate|].
  assert (Hs : s' = s1).
  { destruct (negb (truthy match r with Ok body => body | _ => VNone end));
      inversion H; reflexivity. }
  subst s'. split.
  - exists [{| req := permissions_url; rsp := response |}].
    split; [exact Hc|]. split; [cbn; lia|].
    intros c msg [<-|[]] E. cbn in E. subst response. subst r. cbn in H.
    inversion H. reflexivity.
  - intros e E. subst out.
    destruct (negb (truthy match r with Ok body => body | _ => VNone end));
      inversion H as [[Ha Hcheck]].
    unfold check_scope in Hcheck.
    destruct (lookup level scope); [|inversion Hcheck; eauto].
    exact (check_required_error _ _ _ Hcheck).
Qed.

End PermittedFacts.

End Permissions.

(** ** [load_user_data]: which album is selected

    The loop of [FacebookUploader.load_user_data] (lines 433-449) over the
    albums [get_albums] yields, with the combo box as the list of its
    items. *)

Module Albums.

(** An item of the combo box: its text, its data and whether it can be
    chosen. *)
Record Item : Type := { text : value; data : value; enabled : bool }.

(** The item added before the loop (lines 433-435). *)
Definition default_item : Item :=
  {| text := VStr "<default>"; data := VStr "me"; enabled := true |}.

(** [setItemData(idx, 0, Qt.UserRole - 1)]: the item at [idx] can no longer
    be chosen. *)
Fixpoint disable (idx : nat) (items : list Item) : list Item :=
  match items, idx with
  | [], _ => []
  | it :: items', O =>
      {| text := text it; data := data it; enabled := false |} :: items'
  | it :: items', S idx' => it :: disable idx' items'
  end.

(** The loop body (lines 441-448); the loop's variables are the items of
    the combo box and [selected]. *)
Definition add_album (album_id : value) (album : value) (acc : list Item * nat)
  : outcome (list Item * nat) :=
  let (items, selected) := acc in
  name <- getitem album "name" ;;
  id <- getitem album "id" ;;
  let items := items ++ [{| text := name; data := id; enabled := true |}] in
  let idx := (List.length items - 1)%nat in
  can_upload <- getitem album "can_upload" ;;
  if negb (truthy can_upload) then Ok (disable idx items, selected)
  else
    id <- getitem album "id" ;;
    if (value_eqb id album_id || (selected =? 0)%nat)%bool then Ok (items, idx)
    else Ok (items, selected).

(** Lines 433-449: the items and the index given to [setCurrentIndex]. *)
Definition choose_album (album_id : value) (albums : list value)
  : outcome (list Item * nat) :=
  for_each (add_album album_id) albums ([default_item], 0%nat).

(** The album can be uploaded to. *)
Definition uploadable (album : value) : bool :=
  match getitem album "can_upload" with
  | Ok can_upload => truthy can_upload
  | _ => false
  end.

(** The album is the one asked for. *)
Definition wanted (album_id : value) (album : value) : bool :=
  match getitem album "id" with
  | Ok id => value_eqb id album_id
  | _ => false
  end.

(** What the loop keeps true of the albums seen so far. *)
Definition selection_ok (album_id : value) (seen : list value) (items : list Item)
    (selected : nat) : Prop :=
  List.length items = S (List.length seen) /\
  (forall it, nth_error items selected = Some it -> enabled it = true) /\
  (selected = 0%nat <-> forall album, In album seen -> uploadable album = false) /\
  (selected <> 0%nat ->
   exists album,
     nth_error seen (selected - 1) = Some album /\
     uploadable album = true /\
     ((exists other, In other seen /\ uploadable other = true /\
                     wanted album_id other = true) ->
      wanted album_id album = true) /\
     (wanted album_id album = false ->
      forall i other, (i < selected - 1)%nat -> nth_error seen i = Some other ->
                      uploadable other = false)).

Lemma nth_error_disable_other idx items i :
  i <> idx -> nth_error (disable idx items) i = nth_error items i.
Proof.
  revert idx i. induction items as [|it items IH]; intros [|idx] [|i] H; cbn;
    try reflexivity; try congruence.
  apply IH. congruence.
Qed.

Lemma length_disable idx items : List.length (disable idx items) = List.length items.
Proof.
  revert idx. induction items as [|it items IH]; intros [|idx]; cbn; try reflexivity.
  rewrite IH. reflexivity.
Qed.

Lemma add_album_ok album_id album seen items selected items' selected' :
  selection_ok album_id seen items selected ->
  add_album album_id album (items, selected) = Ok (items', selected') ->
  selection_ok album_id (seen ++ [album]) items' selected'.
Proof.
  intros (Hlen & Hen & Hzero & Hsel). unfold add_album.
  destruct (getitem album "name") as [name|e|]; cbn [bind]; try discriminate.
  destruct (getitem album "id") as [id|e|] eqn:Eid; cbn [bind]; try discriminate.
  destruct (getitem album "can_upload") as [can|e|] eqn:Ecan; cbn [bind];
    try discriminate.
  set (item := {| text := name; data := id; enabled := true |}).
  assert (Hidx : (List.length (items ++ [item]) - 1 = List.length items)%nat)
    by (rewrite length_app; cbn; lia).
  rewrite Hidx.
  assert (Hup : uploadable album = truthy can) by (unfold uploadable; rewrite Ecan; reflexivity).
  assert (Hwant : wanted album_id album = value_eqb id album_id)
    by (unfold wanted; rewrite Eid; reflexivity).
  assert (Hlt : (selected < List.length items)%nat).
  { destruct (Nat.eq_dec selected 0) as [->|Hne]; [lia|].
    destruct (Hsel Hne) as (a & Ha & _).
    assert (selected - 1 < List.length seen)%nat by (apply nth_error_Some; congruence).
    lia. }
  assert (Hold : forall i, (i < List.length seen)%nat ->
                           nth_error (seen ++ [album]) i = nth_error seen i)
    by (intros i Hi; apply nth_error_app1; exact Hi).
  assert (Hnew : nth_error (seen ++ [album]) (List.length seen) = Some album)
    by (rewrite nth_error_app2, Nat.sub_diag by lia; reflexivity).
  destruct (truthy can) eqn:Et; cbn [negb].
  - (* an album that can be uploaded to *)
    destruct (value_eqb id album_id || (selected =? 0)%nat)%bool eqn:Ec;
      intros H; inversion H; subst items' selected'; clear H.
    + (* it becomes the selection *)
      split; [rewrite !length_app; cbn; lia|].
      split.
      { intros it Hit. rewrite nth_error_app2, Nat.sub_diag in Hit by lia.
        inversion Hit. reflexivity. }
      split.
      { split; [lia|]. intros Hall. exfalso.
        assert (X : uploadable album = false)
          by (apply Hall; apply in_or_app; right; left; reflexivity).
        congruence. }
      intros _. exists album.
      replace (List.length items - 1)%nat with (List.length seen) by lia.
      split; [exact Hnew|]. split; [congruence|]. split.
      * intros (other & Hin & Hu & Hw). apply orb_prop in Ec.
        destruct Ec as [Ec|Ec]; [congruence|].
        apply Nat.eqb_eq in Ec. apply in_app_or in Hin.
        destruct Hin as [Hin|[<-|[]]]; [|exact Hw].
        rewrite (proj1 Hzero Ec other Hin) in Hu. discriminate.
      * intros Hw i other Hi Hother. rewrite Hwant in Hw. rewrite Hw in Ec.
        cbn in Ec. apply Nat.eqb_eq in Ec.
        rewrite Hold in Hother by lia.
        exact (proj1 Hzero Ec other (nth_error_In _ _ Hother)).
    + (* the selection stays *)
      apply orb_false_elim in Ec. destruct Ec as [Ew Ez].
      apply Nat.eqb_neq in Ez.
      split; [rewrite !length_app; cbn; lia|].
      split.
      { intros it Hit. rewrite nth_error_app1 in Hit by lia. exact (Hen it Hit). }
      split; [split; [congruence|]|].
      { intros Hall. exfalso.
        assert (X : uploadable album = false)
          by (apply Hall; apply in_or_app; right; left; reflexivity).
        congruence. }
      intros _. destruct (Hsel Ez) as (a & Ha & Hu & Hw & Hfirst).
      assert (Hs : (selected - 1 < List.length seen)%nat)
        by (apply nth_error_Some; congruence).
      exists a. rewrite Hold by exact Hs. split; [exact Ha|]. split; [exact Hu|].
      split.
      * intros (other & Hin & Hou & How). apply Hw.
        apply in_app_or in Hin. destruct Hin as [Hin|[<-|[]]]; [eauto|congruence].
      * intros Hwa i other Hi Hother. rewrite Hold in Hother by lia.
        exact (Hfirst Hwa i other Hi Hother).
  - (* an album that cannot be uploaded to *)
    intros H. inversion H; subst items' selected'; clear H.
    split; [rewrite length_disable, !length_app; cbn; lia|].
    split.
    { intros it Hit. rewrite nth_error_disable_other in Hit by lia.
      rewrite nth_error_app1 in Hit by lia. exact (Hen it Hit). }
    split.
    { rewrite Hzero. split.
      - intros Hall other Hin. apply in_app_or in Hin.
        destruct Hin as [Hin|[<-|[]]]; [exact (Hall other Hin)|congruence].
      - intros Hall other Hin. apply Hall. apply in_or_app. left. exact Hin. }
    intros Ez. destruct (Hsel Ez) as (a & Ha & Hu & Hw & Hfirst).
    assert (Hs : (selected - 1 < List.length seen)%nat)
      by (apply nth_error_Some; congruence).
    exists a. rewrite Hold by exact Hs. split; [exact Ha|]. split; [exact Hu|].
    split.
    + intros (other & Hin & Hou & How). apply Hw.
      apply in_app_or in Hin. destruct Hin as [Hin|[<-|[]]]; [eauto|congruence].
    + intros Hwa i other Hi Hother. rewrite Hold in Hother by lia.
      exact (Hfirst Hwa i other Hi Hother).
Qed.

Lemma for_each_add_album album_id albums : forall seen items selected acc',
  selection_ok album_id seen items selected ->
  for_each (add_album album_id) albums (items, selected) = Ok acc' ->
  selection_ok album_id (seen ++ albums) (fst acc') (snd acc').
Proof.
  induction albums as [|album albums IH]; intros seen items selected acc' Hok H;
    cbn [for_each] in H.
  - inversion H; subst. rewrite app_nil_r. exact Hok.
  - destruct (add_album album_id album (items, selected)) as [[items1 selected1]|e|] eqn:E;
      cbn [bind] in H; try discriminate.
    replace (seen ++ album :: albums) with ((seen ++ [album]) ++ albums)
      by (rewrite <- app_assoc; reflexivity).
    exact (IH _ _ _ _ (add_album_ok _ _ _ _ _ _ _ Hok E) H).
Qed.

(** X17. When the loop over the albums completes, the selected index is 0,
    the default item, exactly when no album can be uploaded to. Otherwise
    the selected item can be chosen and is an album that can be uploaded
    to: the one asked for if such an album is among them, and else the
    first of them. *)
Theorem selected_album_is_uploadable album_id albums items selected :
  choose_album album_id albums = Ok (items, selected) ->
  List.length items = S (List.length albums) /\
  (forall it, nth_error items selected = Some it -> enabled it = true) /\
  (selected = 0%nat <-> forall album, In album albums -> uploadable album = false) /\
  (selected <> 0%nat ->
   exists album,
     nth_error albums (selected - 1) = Some album /\
     uploadable album = true /\
     ((exists other, In other albums /\ uploadable other = true /\
                     wanted album_id other = true) ->
      wanted album_id album = true) /\
     (wanted album_id album = false ->
      forall i other, (i < selected - 1)%nat -> nth_error albums i = Some other ->
                      uploadable other = false)).
Proof.
  intros H.
  apply (for_each_add_album album_id albums [] [default_item] 0%nat) in H.
  - exact H.
  - split; [reflexivity|]. split.
    + intros it Hit. inversion Hit. reflexivity.
    + split; [split; [intros _ album []|reflexivity]|]. intros Hne. congruence.
Qed.

End Albums.

(** ** [optimise]: the size of the uploaded image

    The size computed by [FacebookUploader.optimise] (lines 455-476). *)

Module Optimise.

(** [x / y] on floats. *)
Definition float_div (x y : float) : outcome float :=
  if (y =? 0)%float then Raise ZeroDivisionError else Ok (x / y)%float.

(** [int(x)]: towards zero; a NaN and the infinities have no int. *)
Definition int_of_float (x : float) : outcome Z :=
  match Prim2SF x with
  | S754_zero _ => Ok 0%Z
  | S754_finite s m e =>
      let a := match e with
               | Z0 => Zpos m
               | Zpos p => (Zpos m * 2 ^ Zpos p)%Z
               | Zneg p => (Zpos m / 2 ^ Zpos p)%Z
               end in
      Ok (if s then (- a)%Z else a)
  | S754_infinity _ => Raise OverflowError
  | S754_nan => Raise ValueError
  end.

(** Lines 459-468: the length the longer side is to have, [None] when the
    image is left as it is. *)
Definition new_size (w h : Z) : option Z :=
  let old_size := Z.max w h in
  if ((old_size =? 2048) || (old_size =? 960) || (old_size =? 720))%Z then None
  else if (960 <? old_size)%Z then Some 2048%Z
  else if (720 <? old_size)%Z then Some 960%Z
  else if (360 <? old_size)%Z then Some 720%Z
  else None.

(** [int((float(n * a) / float(b)) + 0.5)] (lines 471 and 474). *)
Definition scaled (n a b : Z) : outcome Z :=
  p <- float_of_int (n * a) ;;
  q <- float_of_int b ;;
  r <- float_div p q ;;
  int_of_float (r + 0.5)%float.

(** Lines 469-476: the size [im.resize] is called with, [None] when it is
    not called. *)
Definition optimised_size (w h : Z) : outcome (option (Z * Z)) :=
  match new_size w h with
  | Some n =>
      if (h <=? w)%Z then h' <- scaled n h w ;; Ok (Some (n, h'))
      else w' <- scaled n w h ;; Ok (Some (w', n))
  | None => Ok None
  end.

(** One of the sizes the code scales to. *)
Definition preferred (n : Z) : Prop := n = 720%Z \/ n = 960%Z \/ n = 2048%Z.

Lemma new_size_cases w h :
  let old_size := Z.max w h in
  (new_size w h = None /\ ((old_size <= 360)%Z \/ preferred old_size)) \/
  (exists n,
     new_size w h = Some n /\ (360 < old_size)%Z /\ ~ preferred old_size /\
     preferred n /\
     ((old_size <= 2048)%Z ->
      (old_size < n)%Z /\ forall m, preferred m -> (old_size <= m)%Z -> (n <= m)%Z) /\
     ((2048 < old_size)%Z -> n = 2048%Z)).
Proof.
  intros old_size. unfold new_size. fold old_size. unfold preferred.
  destruct (old_size =? 2048)%Z eqn:E1; [apply Z.eqb_eq in E1|apply Z.eqb_neq in E1];
    cbn [orb]; [left; auto|].
  destruct (old_size =? 960)%Z eqn:E2; [apply Z.eqb_eq in E2|apply Z.eqb_neq in E2];
    cbn [orb]; [left; auto|].
  destruct (old_size =? 720)%Z eqn:E3; [apply Z.eqb_eq in E3|apply Z.eqb_neq in E3];
    [left; auto|].
  destruct (960 <? old_size)%Z eqn:L1; [apply Z.ltb_lt in L1|apply Z.ltb_ge in L1].
  { right. exists 2048%Z. repeat split; auto; lia. }
  destruct (720 <? old_size)%Z eqn:L2; [apply Z.ltb_lt in L2|apply Z.ltb_ge in L2].
  { right. exists 960%Z. repeat split; auto; lia. }
  destruct (360 <? old_size)%Z eqn:L3; [apply Z.ltb_lt in L3|apply Z.ltb_ge in L3].
  { right. exists 720%Z. repeat split; auto; lia. }
  left. split; [reflexivity|]. left. lia.
Qed.

(** X18. [optimise] leaves an image as it is, without a call of
    [im.resize], when its longer side is at most 360, or is 720, 960 or
    2048. For any other image it computes a new size: the longer side
    becomes one of 720, 960 and 2048, the least of these that is not below
    the old length, which is an enlargement, or 2048 when the old length
    is above it; the shorter side is scaled by lines 471 and 474, and the
    size is handed to [im.resize] when that scaling returns. *)
Theorem longer_side_after_optimise w h :
  let old_size := Z.max w h in
  ((old_size <= 360)%Z \/ preferred old_size -> optimised_size w h = Ok None) /\
  ((360 < old_size)%Z -> ~ preferred old_size ->
   exists n,
     preferred n /\
     ((old_size <= 2048)%Z ->
      (old_size < n)%Z /\ forall m, preferred m -> (old_size <= m)%Z -> (n <= m)%Z) /\
     ((2048 < old_size)%Z -> n = 2048%Z) /\
     optimised_size w h
     = if (h <=? w)%Z then h' <- scaled n h w ;; Ok (Some (n, h'))
       else w' <- scaled n w h ;; Ok (Some (w', n))).
Proof.
  intros old_size. subst old_size. unfold optimised_size.
  pose proof (new_size_cases w h) as C. cbv zeta in C.
  destruct C as [[-> Hkeep]|(n & -> & Hlo & Hnot & Hn & Hle & Hgt)].
  - split; [reflexivity|]. intros Hlo Hnot. exfalso. destruct Hkeep as [H|H]; [lia|auto].
  - split; [intros [H|H]; exfalso; [lia|auto]|].
    intros _ _. exists n. auto.
Qed.

(** The shorter side is not bounded below: a 5000 x 1 image is to be
    resized to 2048 x 0. *)
Example short_side_can_vanish : optimised_size 5000 1 = Ok (Some (2048, 0)%Z).
Proof. vm_compute. reflexivity. Qed.

End Optimise.

(** ** The cache look-up, once more *)

(** X1. The cache look-up raises [ValueError] when there is an entry to
    measure and the latitude of the coordinate is an infinity, at which
    [math.cos] has no value. Otherwise it
    ends with the initial pair [(None, 1e12)] when no entry is within
    1e12 m of the coordinate, and else with the list and the distance of
    the nearest entry, the first one at the least distance. *)
Theorem lookup_finds_first_nearest (cos : float -> float) latlong cache :
  (cache <> [] ->
   PrimFloat.is_infinity (lat latlong) = true ->
   find_nearest cos latlong cache = Raise ValueError) /\
  (cache = [] \/ PrimFloat.is_infinity (lat latlong) = false ->
   (find_nearest cos latlong cache = Ok (VNone, 1.0e12%float) /\
    forall x, In x cache -> beyond cos latlong false 1.0e12%float x) \/
   (exists e d,
      first_nearest cos latlong cache e /\
      distance cos latlong (location e) = Ok d /\
      find_nearest cos latlong cache = Ok (VList (cities_list e), d) /\
      (d <? 1.0e12)%float = true)).
Proof.
  split; [apply find_nearest_raises|].
  intros [->|Hfin]; [left; split; [reflexivity|intros x []]|].
  apply find_nearest_scan. exact Hfin.
Qed.

(** ** More samples *)

Module Sample2.

(** An encoder that takes the photo and strings, and raises
    [AttributeError] for a field that is not a string. The encoding of the
    fields is the fields. *)
Definition is_text (f : Upload.field unit) : bool :=
  match f with
  | Upload.Source _ | Upload.Str _ | Upload.Val (VStr _) => true
  | _ => false
  end.

Definition multipart (fields : Upload.fields_t unit) : exn + Upload.fields_t unit :=
  if forallb (fun kv => is_text (snd kv)) fields then inr fields
  else inl AttributeError.

(** A server that answers every post. *)
Definition post_ok (url : string) (body : Upload.fields_t unit) (w : nat)
  : nat * (string + value) :=
  (S w, inr (VDict [("id", VStr "100")])).

(** A server that refuses every post. *)
Definition post_refused (url : string) (body : Upload.fields_t unit) (w : nat)
  : nat * (string + value) :=
  (S w, inl "400 Client Error").

Definition uploader : Upload.Uploader nat unit (Upload.fields_t unit) :=
  {| Upload.resolver := Sample.start 0%nat; Upload.posts := [] |}.



(** A coordinate that is not on the globe. *)
Definition nowhere : LatLong := {| lat := infinity; lon := 0 |}.

Definition params : Upload.Params :=
  {| Upload.album_id := "me"; Upload.no_story := false; Upload.geo_tag := true |}.

(** A photo with a title, a date known to the day, and coordinates. *)
Definition photo : Upload.Metadata :=
  {| Upload.title := Some "Springfield";
     Upload.description := None;
     Upload.date_taken :=
       Some {| Upload.isoformat := "2016-05-01T00:00:00"; Upload.precision := 3 |};
     Upload.latlong := Some Sample.origin |}.

(** The same photo without coordinates. *)
Definition photo_nowhere : Upload.Metadata :=
  {| Upload.title := Some "Springfield";
     Upload.description := None;
     Upload.date_taken :=
       Some {| Upload.isoformat := "2016-05-01T00:00:00"; Upload.precision := 3 |};
     Upload.latlong := None |}.

Definition photo_fields : Upload.fields_t unit :=
  [("photo", Upload.Source tt);
   ("no_story", Upload.Str "False");
   ("caption", Upload.Str "Springfield");
   ("backdated_time", Upload.Str "2016-05-01T00:00:00");
   ("backdated_time_granularity", Upload.Str "day")].

Definition second_call : call :=
  {| req := Search Sample.origin 10000 "springfield"; rsp := inr (Sample.page []) |}.

Definition permission (name status : string) : value :=
  VDict [("permission", VStr name); ("status", VStr status)].

(** An answer that grants [user_photos] and lists [publish_actions] twice,
    first as declined. *)
Definition answer : value :=
  VDict [("data", VList [permission "public_profile" "granted";
                         permission "user_photos" "granted";
                         permission "publish_actions" "declined";
                         permission "publish_actions" "granted"])].

(** An answer that grants both. *)
Definition answer_all : value :=
  VDict [("data", VList [permission "user_photos" "granted";
                         permission "publish_actions" "granted"])].

Definition down_server (r : request) (w : nat) : nat * (string + value) :=
  (S w, inl "Connection refused").

Definition account : Permissions.Account :=
  {| Permissions.keyring := Some "token"; Permissions.oauth := None |}.

Definition album (id name : string) (can_upload : bool) : value :=
  VDict [("id", VStr id); ("can_upload", VBool can_upload); ("name", VStr name)].

Definition albums : list value :=
  [album "1" "Profile pictures" false;
   album "2" "Holidays" true;
   album "3" "Springfield" true].

(** An upload of the photo [md] to the server. *)
Definition upload (http_get : request -> nat -> nat * (string + value))
    (http_post : string -> Upload.fields_t unit -> nat -> nat * (string + value))
    (fuel : nat) (md : Upload.Metadata)
  : Upload.Uploader nat unit (Upload.fields_t unit) * outcome string :=
  Upload.do_upload http_get Sample.cos_flat multipart http_post fuel tt md params uploader.

End Sample2.

(** ** The further properties at the samples *)


(** Off the globe, the look-up raises once the cache has an entry; with an
    empty cache nothing is measured and the call goes on to search. *)
Example lookup_raises_at_infinity :
  get_cities Sample.twin_server Sample.cos_flat 2 Sample2.nowhere Sample.cached
  = (Sample.cached, Raise ValueError) /\
  snd (get_cities Sample.twin_server Sample.cos_flat 2 Sample2.nowhere (Sample.start 0%nat))
  = Ok (VList Sample.twins).
Proof. split; vm_compute; reflexivity. Qed.

Lemma few_searches_witness :
  NoDup (searches [Sample.first_call; Sample2.second_call]) /\
  (List.length (searches [Sample.first_call; Sample2.second_call]) <= 6)%nat.
Proof.
  apply (searches_are_few_and_distinct nat Sample.twin_server Sample.cos_flat 2
           Sample.origin (Sample.start 0%nat)
           (fst (get_cities Sample.twin_server Sample.cos_flat 2 Sample.origin
                   (Sample.start 0%nat)))
           (snd (get_cities Sample.twin_server Sample.cos_flat 2 Sample.origin
                   (Sample.start 0%nat)))).
  - apply surjective_pairing.
  - vm_compute. reflexivity.
Defined.

Lemma query_words_witness :
  Search Sample.origin 10000 "springfield" = Search Sample.origin 1000 "" \/
  exists word,
    Search Sample.origin 10000 "springfield" = Search Sample.origin 10000 word /\
    lower word = word /\ (2 < String.length word)%nat.
Proof.
  apply (searches_are_for_query_words nat Sample.twin_server Sample.cos_flat 2
           Sample.origin (Sample.start 0%nat)
           (fst (get_cities Sample.twin_server Sample.cos_flat 2 Sample.origin
                   (Sample.start 0%nat)))
           (snd (get_cities Sample.twin_server Sample.cos_flat 2 Sample.origin
                   (Sample.start 0%nat)))
           [Sample.first_call; Sample2.second_call]).
  - apply surjective_pairing.
  - vm_compute. reflexivity.
  - right. left. reflexivity.
Defined.

Lemma equal_counts_witness :
  secondary_searches Sample.twin_server 2 Sample.origin
    [("springfield", 1%Z); ("park", 1%Z)] [] {| world := 0%nat; calls := [] |}
  = ({| world := 0%nat; calls := [] |}, Ok []).
Proof.
  apply equal_counts_search_nothing.
  intros w w' [<-|[<-|[]]] [<-|[<-|[]]]; reflexivity.
Defined.

Lemma is_city_raises_witness :
  is_city Sample.bare = Raise (KeyError "location") <->
  exists fields,
    Sample.bare = VDict fields /\
    ((lookup "category" fields = None /\ KeyError "location" = KeyError "category") \/
     (exists category,
        lookup "category" fields = Some category /\
        in_tuple category city_categories = true /\
        lookup "location" fields = None /\
        KeyError "location" = KeyError "location")).
Proof.
  apply is_city_raises_iff. eexists. split; [reflexivity|].
  intros loc H. vm_compute in H. discriminate.
Defined.

Lemma upload_refused_witness :
  (Upload.posts (fst (Sample2.upload Sample.twin_server Sample2.post_refused 2 Sample2.photo))
   = Upload.posts Sample2.uploader /\
   forall text,
     snd (Sample2.upload Sample.twin_server Sample2.post_refused 2 Sample2.photo)
     <> Ok text) \/
  (exists p,
     Upload.posts (fst (Sample2.upload Sample.twin_server Sample2.post_refused 2
                          Sample2.photo))
     = Upload.posts Sample2.uploader ++ [p] /\
     snd (Sample2.upload Sample.twin_server Sample2.post_refused 2 Sample2.photo)
     = Ok match Upload.answer p with inl msg => msg | inr _ => EmptyString end).
Proof.
  apply (Upload.upload_posts_once_or_raises nat Sample.twin_server Sample.cos_flat unit
           (Upload.fields_t unit) Sample2.multipart Sample2.post_refused 2 tt
           Sample2.photo Sample2.params Sample2.uploader).
  apply surjective_pairing.
Defined.

Lemma upload_aborted_witness :
  snd (Sample2.upload Sample.flaky_server Sample2.post_ok 3 Sample2.photo)
  = Raise (RequestException "503 Server Error") /\
  Upload.posts (fst (Sample2.upload Sample.flaky_server Sample2.post_ok 3 Sample2.photo))
  = Upload.posts Sample2.uploader.
Proof.
  apply (Upload.search_failure_aborts_upload nat Sample.flaky_server Sample.cos_flat unit
           (Upload.fields_t unit) Sample2.multipart Sample2.post_ok 3 tt
           Sample2.photo Sample2.params Sample2.uploader
           _ _ [Sample.flaky_first_call; Sample.failed_call] Sample.failed_call
           "503 Server Error").
  - apply surjective_pairing.
  - vm_compute. reflexivity.
  - right. left. reflexivity.
  - reflexivity.
Defined.

Lemma upload_nowhere_witness :
  cities_cache (Upload.resolver
                  (fst (Sample2.upload Sample.twin_server Sample2.post_ok 2
                          Sample2.photo_nowhere)))
  = cities_cache (Upload.resolver Sample2.uploader) /\
  calls (session (Upload.resolver
                    (fst (Sample2.upload Sample.twin_server Sample2.post_ok 2
                            Sample2.photo_nowhere))))
  = calls (session (Upload.resolver Sample2.uploader)) /\
  forall p,
    Upload.posts (fst (Sample2.upload Sample.twin_server Sample2.post_ok 2
                         Sample2.photo_nowhere))
    = Upload.posts Sample2.uploader ++ [p] ->
    lookup "place" (Upload.sent p) = None.
Proof.
  apply (Upload.upload_without_geotag nat Sample.twin_server Sample.cos_flat unit
           (Upload.fields_t unit) Sample2.multipart Sample2.post_ok 2 tt
           Sample2.photo_nowhere Sample2.params Sample2.uploader
           _ (snd (Sample2.upload Sample.twin_server Sample2.post_ok 2
                     Sample2.photo_nowhere))).
  - left. reflexivity.
  - apply surjective_pairing.
Defined.


Lemma granularity_witness :
  let dated := Upload.dict_set "backdated_time" (Upload.Str "2016-05-01T00:00:00")
                 ([] : Upload.fields_t unit) in
  ((1 <= 3 <= 5)%Z ->
   exists g,
     nth_error Upload.granularities (Z.to_nat (3 - 1)) = Some g /\
     Upload.date_fields Sample2.photo [] = Ok (Upload.dict_set "backdated_time_granularity"
                                                 (Upload.Str g) dated)) /\
  ((5 < 3)%Z -> Upload.date_fields Sample2.photo [] = Ok dated) /\
  ((-5 < 3 <= 0)%Z ->
   exists g,
     nth_error Upload.granularities (Z.to_nat (3 + 4)) = Some g /\
     Upload.date_fields Sample2.photo [] = Ok (Upload.dict_set "backdated_time_granularity"
                                                 (Upload.Str g) dated)) /\
  ((3 <= -5)%Z -> Upload.date_fields Sample2.photo ([] : Upload.fields_t unit)
                  = Raise IndexError).
Proof.
  apply (Upload.granularity_by_precision unit Sample2.photo
           {| Upload.isoformat := "2016-05-01T00:00:00"; Upload.precision := 3 |} []).
  reflexivity.
Defined.

(** At the origin the places of [Sample.twin_server] are measured and one
    is chosen; at [Sample2.nowhere] the distance to the first raises. *)
Lemma place_choice_witness :
  ((exists fields',
      Upload.place_fields Sample.cos_flat Sample.origin (VList Sample.twins)
        Sample2.photo_fields = Ok fields') \/
   Upload.place_fields Sample.cos_flat Sample.origin (VList Sample.twins)
     Sample2.photo_fields = Raise (KeyError "id")) /\
  ((Sample.twins = [] /\
    Upload.place_fields Sample.cos_flat Sample2.nowhere (VList Sample.twins)
      Sample2.photo_fields = Ok Sample2.photo_fields) \/
   (Sample.twins <> [] /\
    Upload.place_fields Sample.cos_flat Sample2.nowhere (VList Sample.twins)
      Sample2.photo_fields = Raise ValueError)).
Proof.
  assert (Htwins : forall place, In place Sample.twins ->
                     place_record place /\ Upload.numeric_coordinates place).
  { intros place Hin.
    assert (E : place = Sample.heights \/ place = Sample.park)
      by (destruct Hin as [<-|[<-|[]]]; auto).
    split.
    + destruct E as [-> | ->]; eexists; (split; [reflexivity|]);
        intros loc H; vm_compute in H; inversion H; eexists; reflexivity.
    + intros loc k v Hl Hk Hv.
      destruct E as [-> | ->]; vm_compute in Hl; inversion Hl; subst loc;
        destruct Hk as [-> | ->]; vm_compute in Hv; inversion Hv;
        eexists; reflexivity. }
  split.
  - apply (Upload.place_choice_failures nat Sample.twin_server Sample.cos_flat
             unit 2 Sample.origin (Sample.start 0%nat)
             (fst (get_cities Sample.twin_server Sample.cos_flat 2 Sample.origin
                     (Sample.start 0%nat)))
             Sample.twins Sample2.photo_fields).
    + apply reachable_start.
    + vm_compute. reflexivity.
    + exact Htwins.
  - apply (Upload.place_choice_failures nat Sample.twin_server Sample.cos_flat
             unit 2 Sample2.nowhere (Sample.start 0%nat)
             (fst (get_cities Sample.twin_server Sample.cos_flat 2 Sample2.nowhere
                     (Sample.start 0%nat)))
             Sample.twins Sample2.photo_fields).
    + apply reachable_start.
    + vm_compute. reflexivity.
    + exact Htwins.
Defined.

Lemma first_entries_witness :
  (Permissions.check_scope "read" Sample2.answer = Ok true <->
   Permissions.first_is_granted "user_photos"
     [Sample2.permission "public_profile" "granted";
      Sample2.permission "user_photos" "granted";
      Sample2.permission "publish_actions" "declined";
      Sample2.permission "publish_actions" "granted"]) /\
  (Permissions.check_scope "write" Sample2.answer = Ok true <->
   Permissions.first_is_granted "user_photos"
     [Sample2.permission "public_profile" "granted";
      Sample2.permission "user_photos" "granted";
      Sample2.permission "publish_actions" "declined";
      Sample2.permission "publish_actions" "granted"] /\
   Permissions.first_is_granted "publish_actions"
     [Sample2.permission "public_profile" "granted";
      Sample2.permission "user_photos" "granted";
      Sample2.permission "publish_actions" "declined";
      Sample2.permission "publish_actions" "granted"]).
Proof.
  apply Permissions.permitted_by_first_entries. reflexivity.
Defined.

Lemma write_permits_read_witness :
  Permissions.check_scope "read" Sample2.answer_all = Ok true.
Proof.
  apply Permissions.write_permits_read. reflexivity.
Defined.

Lemma permitted_offline_witness :
  (Some "token" = None \/ Some "token" = Some EmptyString ->
   {| world := 1%nat;
      calls := [{| req := Permissions.permissions_url; rsp := inl "Connection refused" |}] |}
   = {| world := 0%nat; calls := [] |} /\
   Permissions.oauth {| Permissions.keyring := Some "token";
                        Permissions.oauth := Some "token" |} = None /\
   Ok false = Ok false) /\
  (exists new,
     calls {| world := 1%nat;
              calls := [{| req := Permissions.permissions_url;
                           rsp := inl "Connection refused" |}] |}
     = calls {| world := 0%nat; calls := [] |} ++ new /\
     (List.length new <= 1)%nat /\
     forall c msg, In c new -> rsp c = inl msg -> Ok false = Ok false) /\
  (forall e, Ok false = Raise e -> (exists k, e = KeyError k) \/ e = TypeError).
Proof.
  apply (Permissions.permitted_swallows_request_failure nat Sample2.down_server "write"
           Sample2.account {| world := 0%nat; calls := [] |}).
  reflexivity.
Defined.

Lemma selected_album_witness :
  List.length [Albums.default_item;
               {| Albums.text := VStr "Profile pictures"; Albums.data := VStr "1";
                  Albums.enabled := false |};
               {| Albums.text := VStr "Holidays"; Albums.data := VStr "2";
                  Albums.enabled := true |};
               {| Albums.text := VStr "Springfield"; Albums.data := VStr "3";
                  Albums.enabled := true |}]
  = S (List.length Sample2.albums) /\
  (forall it,
     nth_error [Albums.default_item;
                {| Albums.text := VStr "Profile pictures"; Albums.data := VStr "1";
                   Albums.enabled := false |};
                {| Albums.text := VStr "Holidays"; Albums.data := VStr "2";
                   Albums.enabled := true |};
                {| Albums.text := VStr "Springfield"; Albums.data := VStr "3";
                   Albums.enabled := true |}] 3 = Some it ->
     Albums.enabled it = true) /\
  (3%nat = 0%nat <->
   forall album, In album Sample2.albums -> Albums.uploadable album = false) /\
  (3%nat <> 0%nat ->
   exists album,
     nth_error Sample2.albums (3 - 1) = Some album /\
     Albums.uploadable album = true /\
     ((exists other, In other Sample2.albums /\ Albums.uploadable other = true /\
                     Albums.wanted (VStr "3") other = true) ->
      Albums.wanted (VStr "3") album = true) /\
     (Albums.wanted (VStr "3") album = false ->
      forall i other, (i < 3 - 1)%nat -> nth_error Sample2.albums i = Some other ->
                      Albums.uploadable other = false)).
Proof.
  apply (Albums.selected_album_is_uploadable (VStr "3") Sample2.albums).
  reflexivity.
Defined.
